(** * DotScramble: region detection and effect pipeline

    A shallow embedding of the core of the DotScramble privacy studio:

    - [History]        : [core/utils.py], class [HistoryManager];
    - [TextDetector]   : [core/text_detector.py], [detect_specific_word]
                         and [_group_nearby_boxes];
    - [ImageProcessor] : [core/image_processor.py], the effects
                         [pixelate], [gradient_fade], [apply_opacity] and
                         [DetectionEngine.detect_text];
    - [Batch]          : [core/batch_processor.py], [process_batch] and
                         [_process_single_image].

    Python integers are [Z]; Python lists are lists kept in the same
    order (so [append] adds at the end and [pop()] removes the last
    element); [None] is [option]'s [None]; a raised exception is the left
    injection of a sum carrying [str(e)]. *)

From Stdlib Require Import ZArith QArith Qround Lia Lqa String Ascii Bool.
From stdpp Require Import base option list gmap strings.

Local Open Scope Z_scope.

(* ===================================================================== *)
(** ** Undo / redo history ([core/utils.py]) *)
(* ===================================================================== *)

Module History.

Section WithImage.

(** The snapshots are whole images; [image.copy()] makes the stored
    entry independent of the caller's array, so entries are values. *)
Variable Image : Type.

Record HistoryManager := mkHistory {
  history : list Image;
  redo_stack : list Image;
  max_history : Z
}.

(** [__init__] *)
Definition init (max_history : Z) : HistoryManager :=
  mkHistory [] [] max_history.

(** [list.pop(0)] on a list known to be non-empty. *)
Definition pop_front (l : list Image) : list Image := tail l.

(** [save_state]: [image] is [None] for Python's [None]. *)
Definition save_state (self : HistoryManager) (image : option Image)
  : HistoryManager :=
  match image with
  | Some img =>
      let h := history self ++ [img] in
      let h := if Z.of_nat (length h) >? max_history self
               then pop_front h else h in
      mkHistory h [] (max_history self)
  | None => self
  end.

(** [undo]: the state after the call and the returned value. *)
Definition undo (self : HistoryManager) : HistoryManager * option Image :=
  if Z.of_nat (length (history self)) >? 0
  then (mkHistory (removelast (history self)) (redo_stack self)
          (max_history self),
        last (history self))
  else (self, None).

(** [redo] *)
Definition redo (self : HistoryManager) : HistoryManager * option Image :=
  if Z.of_nat (length (redo_stack self)) >? 0
  then (mkHistory (history self) (removelast (redo_stack self))
          (max_history self),
        last (redo_stack self))
  else (self, None).

(** [add_to_redo] *)
Definition add_to_redo (self : HistoryManager) (image : option Image)
  : HistoryManager :=
  match image with
  | Some img =>
      mkHistory (history self) (redo_stack self ++ [img]) (max_history self)
  | None => self
  end.

Definition can_undo (self : HistoryManager) : bool :=
  Z.of_nat (length (history self)) >? 0.

Definition can_redo (self : HistoryManager) : bool :=
  Z.of_nat (length (redo_stack self)) >? 0.

(** [clear] *)
Definition clear (self : HistoryManager) : HistoryManager :=
  mkHistory [] [] (max_history self).

(** The calls a client can make on a manager. *)
Inductive op :=
| SaveState (image : option Image)
| Undo
| Redo
| AddToRedo (image : option Image)
| CanUndo
| CanRedo
| Clear.

Definition step (self : HistoryManager) (o : op) : HistoryManager :=
  match o with
  | SaveState image => save_state self image
  | Undo => fst (undo self)
  | Redo => fst (redo self)
  | AddToRedo image => add_to_redo self image
  | CanUndo => self
  | CanRedo => self
  | Clear => clear self
  end.

(** The manager after a sequence of calls, first call first. *)
Definition run (ops : list op) (self : HistoryManager) : HistoryManager :=
  fold_left step ops self.

(** The values returned by a run of successive [undo()] calls. *)
Fixpoint undo_n (n : nat) (self : HistoryManager) : list (option Image) :=
  match n with
  | O => []
  | S n' => let '(self', r) := undo self in r :: undo_n n' self'
  end.

(** The undo stack never outgrows a non-negative capacity. *)
Definition bounded (self : HistoryManager) : Prop :=
  Z.of_nat (length (history self)) <= max_history self.

Lemma max_history_step self o : max_history (step self o) = max_history self.
Proof.
  destruct o as [[img|]| | |[img|]| | |]; simpl; try reflexivity.
  - unfold undo. destruct (_ >? _); reflexivity.
  - unfold redo. destruct (_ >? _); reflexivity.
Qed.

Lemma max_history_run ops self : max_history (run ops self) = max_history self.
Proof.
  revert self. induction ops as [|o ops IH]; intros self; simpl.
  - reflexivity.
  - unfold run in IH. rewrite IH. apply max_history_step.
Qed.

Lemma length_removelast (l : list Image) :
  length (removelast l) = Nat.pred (length l).
Proof.
  induction l as [|a [|b l] IH]; simpl in *; try reflexivity.
  rewrite IH. reflexivity.
Qed.

Lemma save_state_bounded self img :
  0 <= max_history self ->
  bounded self ->
  bounded (save_state self (Some img)).
Proof.
  unfold bounded, save_state, pop_front. simpl. intros Hm Hb.
  destruct (_ >? _) eqn:E.
  - destruct (history self) as [|a l]; simpl in *.
    + lia.
    + rewrite length_app in *. simpl in *. lia.
  - lia.
Qed.

Lemma step_bounded self o :
  0 <= max_history self -> bounded self -> bounded (step self o).
Proof.
  intros Hm Hb. destruct o as [[img|]| | |[img|]| | |]; simpl; try assumption.
  - apply save_state_bounded; assumption.
  - unfold undo, bounded in *. destruct (_ >? _); simpl; [|assumption].
    rewrite length_removelast. lia.
  - unfold redo, bounded in *. destruct (_ >? _); simpl; assumption.
Qed.

Lemma run_bounded ops self :
  0 <= max_history self -> bounded self -> bounded (run ops self).
Proof.
  revert self. induction ops as [|o ops IH]; intros self Hm Hb; simpl.
  - assumption.
  - apply IH.
    + rewrite max_history_step. assumption.
    + apply step_bounded; assumption.
Qed.

(** After a push the stack is the most recent [max_history] entries of
    what it would be without a bound: the oldest entry goes first. *)
Lemma save_state_keeps_most_recent self img :
  0 <= max_history self ->
  bounded self ->
  history (save_state self (Some img))
  = drop (length (history self ++ [img]) - Z.to_nat (max_history self))
         (history self ++ [img]).
Proof.
  unfold bounded, save_state, pop_front. simpl. intros Hm Hb.
  rewrite length_app. simpl.
  destruct (_ >? _) eqn:E.
  - assert (length (history self) = Z.to_nat (max_history self)) as Hl
      by (apply Z.gtb_lt in E; lia).
    replace (length (history self) + 1 - Z.to_nat (max_history self))%nat
      with 1%nat by lia.
    destruct (history self ++ [img]); reflexivity.
  - replace (length (history self) + 1 - Z.to_nat (max_history self))%nat
      with 0%nat by (rewrite Z.gtb_ltb, Z.ltb_ge in E; lia).
    reflexivity.
Qed.

(** C5. Along every sequence of history operations started from a fresh
    manager of capacity [maxh >= 0], a [save_state] of an image leaves at
    most [maxh] entries on the undo stack, namely the most recent ones
    (the oldest is evicted first), and leaves the redo stack empty.  With
    capacity 3, after pushing A, B, C, D the stack holds B, C, D, and four
    successive [undo()] calls return D, C, B and then [None]. *)
Theorem save_state_bounds_undo_stack
  (maxh : Z) (ops : list op) (img A B C D : Image) :
  0 <= maxh ->
  let st := run ops (init maxh) in
  let st' := save_state st (Some img) in
  (Z.of_nat (length (history st')) <= maxh
   /\ history st'
      = drop (length (history st ++ [img]) - Z.to_nat maxh)
             (history st ++ [img])
   /\ redo_stack st' = [])
  /\
  (let s4 := run [SaveState (Some A); SaveState (Some B);
                  SaveState (Some C); SaveState (Some D)] (init 3) in
   history s4 = [B; C; D]
   /\ undo_n 4 s4 = [Some D; Some C; Some B; None]).
Proof.
  intros Hm st st'.
  assert (max_history st = maxh) as Hmax
    by (unfold st; rewrite max_history_run; reflexivity).
  assert (bounded st) as Hb.
  { unfold st. apply run_bounded; unfold bounded; simpl; lia. }
  split; [split; [|split] |].
  - assert (max_history st' = maxh) as Hmax' by exact Hmax.
    rewrite <- Hmax'. apply save_state_bounded; [lia | exact Hb].
  - unfold st'. rewrite save_state_keeps_most_recent.
    + rewrite Hmax. reflexivity.
    + rewrite Hmax. assumption.
    + exact Hb.
  - reflexivity.
  - split; reflexivity.
Qed.

(** C10. [save_state] called with [None] changes nothing: the undo stack
    keeps its entries (nothing pushed, nothing evicted) and the redo stack
    is not cleared. *)
Theorem save_state_none_is_noop (self : HistoryManager) :
  save_state self None = self
  /\ history (save_state self None) = history self
  /\ redo_stack (save_state self None) = redo_stack self
  /\ max_history (save_state self None) = max_history self.
Proof.
  unfold save_state. repeat split.
Qed.

End WithImage.

Arguments mkHistory {Image}.
Arguments history {Image}.
Arguments redo_stack {Image}.
Arguments max_history {Image}.
Arguments init {Image}.
Arguments save_state {Image}.
Arguments undo {Image}.
Arguments redo {Image}.
Arguments add_to_redo {Image}.
Arguments clear {Image}.
Arguments run {Image}.
Arguments undo_n {Image}.
Arguments SaveState {Image}.
Arguments Undo {Image}.
Arguments Redo {Image}.
Arguments AddToRedo {Image}.
Arguments CanUndo {Image}.
Arguments CanRedo {Image}.
Arguments Clear {Image}.

End History.

(* ===================================================================== *)
(** ** Python string operations

    Strings are sequences of code points below 256 (Latin-1), which is
    what [string] holds; the operations are the ones of [str]. *)
(* ===================================================================== *)

Module PyStr.

Definition code (c : ascii) : Z := Z.of_nat (nat_of_ascii c).

(** [str.isspace] on one character. *)
Definition is_space (c : ascii) : bool :=
  let n := code c in
  ((9 <=? n) && (n <=? 13)) || ((28 <=? n) && (n <=? 32))
  || (n =? 133) || (n =? 160).

(** [str.lower] on one character: A-Z and the accented capitals. *)
Definition lower_char (c : ascii) : ascii :=
  let n := code c in
  if ((65 <=? n) && (n <=? 90))
     || ((192 <=? n) && (n <=? 222) && negb (n =? 215))
  then ascii_of_nat (Z.to_nat (n + 32)) else c.

(** [s.lower()] *)
Fixpoint lower (s : string) : string :=
  match s with
  | EmptyString => EmptyString
  | String c s' => String (lower_char c) (lower s')
  end.

Definition is_empty (s : string) : bool :=
  match s with EmptyString => true | _ => false end.

(** [s.lstrip()] *)
Fixpoint lstrip (s : string) : string :=
  match s with
  | EmptyString => EmptyString
  | String c s' => if is_space c then lstrip s' else s
  end.

(** [s.rstrip()] *)
Fixpoint rstrip (s : string) : string :=
  match s with
  | EmptyString => EmptyString
  | String c s' =>
      let r := rstrip s' in
      if is_space c && is_empty r then EmptyString else String c r
  end.

(** [s.strip()] *)
Definition strip (s : string) : string := rstrip (lstrip s).

(** [s.split()]: the maximal runs of non-space characters; [cur] is the
    run being read. *)
Fixpoint split_from (cur : string) (s : string) : list string :=
  match s with
  | EmptyString => if is_empty cur then [] else [cur]
  | String c s' =>
      if is_space c
      then (if is_empty cur then split_from EmptyString s'
            else cur :: split_from EmptyString s')
      else split_from (String.append cur (String c EmptyString)) s'
  end.

Definition split (s : string) : list string := split_from EmptyString s.

(** [s.startswith(p)] *)
Fixpoint startswith (s p : string) {struct p} : bool :=
  match p, s with
  | EmptyString, _ => true
  | String _ _, EmptyString => false
  | String b p', String a s' => Ascii.eqb a b && startswith s' p'
  end.

(** [needle in hay] *)
Fixpoint contains (needle hay : string) : bool :=
  startswith hay needle
  || match hay with
     | EmptyString => false
     | String _ hay' => contains needle hay'
     end.

(** [len(s)] *)
Definition len (s : string) : Z := Z.of_nat (String.length s).



End PyStr.

(* ===================================================================== *)
(** ** Targeted text detection ([core/text_detector.py]) *)
(* ===================================================================== *)

Module TextDetector.

(** A box [(x, y, w, h)]. *)
Definition box : Type := Z * Z * Z * Z.

(** Row [i] of the OCR collaborator's table [data]: [data['text'][i]],
    [int(data['conf'][i])] ([None] when [int] raises), [data['left'][i]],
    [data['top'][i]], [data['width'][i]], [data['height'][i]]. *)
Record ocr_row := mkRow {
  ocr_text : string;
  ocr_conf : option Z;
  ocr_left : Z;
  ocr_top : Z;
  ocr_width : Z;
  ocr_height : Z
}.

(** An entry of [matched_boxes]: the dict with keys ['text'], ['box'],
    ['conf']. *)
Record matched := mkMatched {
  m_text : string;
  m_box : box;
  m_conf : Z
}.

(** The multi-word branch: the [for target_word_part in target_words]
    loop with its [break]s; the result is [match_found]. *)
Fixpoint multi_word_match (exact_match : bool) (compare_text : string)
  (target_words : list string) : bool :=
  match target_words with
  | [] => false
  | target_word_part :: rest =>
      if exact_match then
        if String.eqb compare_text target_word_part then true
        else multi_word_match exact_match compare_text rest
      else
        if PyStr.startswith compare_text target_word_part
           || PyStr.startswith target_word_part compare_text
        then
          if PyStr.len compare_text <=? PyStr.len target_word_part * 2
          then true
          else multi_word_match exact_match compare_text rest
        else
          if String.eqb compare_text target_word_part then true
          else multi_word_match exact_match compare_text rest
  end.

(** [match_found] for one compared word. *)
Definition match_found (target : string) (target_words : list string)
  (exact_match : bool) (compare_text : string) : bool :=
  if Nat.eqb (length target_words) 1 then
    if exact_match then String.eqb compare_text target
    else PyStr.contains target compare_text
  else multi_word_match exact_match compare_text target_words.

(** The text a row is compared by. *)
Definition compare_text_of (case_sensitive : bool) (row : ocr_row) : string :=
  let detected_text := PyStr.strip (ocr_text row) in
  if case_sensitive then detected_text else PyStr.lower detected_text.

(** One turn of the matching loop: [None] when the row is skipped. *)
Definition match_row (target : string) (target_words : list string)
  (confidence_threshold : Z) (case_sensitive exact_match : bool)
  (row : ocr_row) : option matched :=
  let detected_text := PyStr.strip (ocr_text row) in
  if PyStr.is_empty detected_text then None
  else
    match ocr_conf row with
    | None => None
    | Some conf =>
        if conf <? confidence_threshold then None
        else
          if match_found target target_words exact_match
               (compare_text_of case_sensitive row)
          then Some (mkMatched detected_text
                       (ocr_left row, ocr_top row, ocr_width row,
                        ocr_height row) conf)
          else None
    end.

(** Padding, clamping to the image and the size test, as written at the
    end of both [detect_specific_word] (padding 8) and
    [_group_nearby_boxes] (padding 10).  [shape] is [image.shape[:2]],
    that is [(img_h, img_w)]. *)
Definition pad_and_clamp (padding : Z) (shape : Z * Z) (b : box)
  : option box :=
  let '(x, y, w, h) := b in
  let x := Z.max 0 (x - padding) in
  let y := Z.max 0 (y - padding) in
  let w := w + padding * 2 in
  let h := h + padding * 2 in
  let '(img_h, img_w) := shape in
  let x := Z.max 0 (Z.min x (img_w - 1)) in
  let y := Z.max 0 (Z.min y (img_h - 1)) in
  let w := Z.min w (img_w - x) in
  let h := Z.min h (img_h - y) in
  if (w >? 5) && (h >? 5) then Some (x, y, w, h) else None.

(** The sort key [(b['box'][1], b['box'][0])] and the order of tuples. *)
Definition sort_key (m : matched) : Z * Z :=
  let '(x, y, _, _) := m_box m in (y, x).

Definition key_lt (a b : Z * Z) : bool :=
  (fst a <? fst b) || ((fst a =? fst b) && (snd a <? snd b)).

(** [sorted(matched_boxes, key=...)]: a stable sort; an entry goes in
    front of the later entries whose key is not smaller. *)
Fixpoint insert_by_key (m : matched) (l : list matched) : list matched :=
  match l with
  | [] => [m]
  | m' :: l' =>
      if key_lt (sort_key m') (sort_key m) then m' :: insert_by_key m l'
      else m :: l
  end.

Definition sorted (matched_boxes : list matched) : list matched :=
  foldr insert_by_key [] matched_boxes.

(** The two tests of the inner loop: [y_diff > max(h1, h2)] rejects, then
    [horizontal_distance < max_distance * 3] accepts. *)
Definition absorbs (max_distance : Z) (seed : box) (box2 : matched) : bool :=
  let '(x1, y1, w1, h1) := seed in
  let '(x2, y2, w2, h2) := m_box box2 in
  let y_diff := Z.abs (y1 - y2) in
  if y_diff >? Z.max h1 h2 then false
  else
    let horizontal_distance := Z.abs (x2 - (x1 + w1)) in
    horizontal_distance <? max_distance * 3.

(** The inner loop [for j, box2 in enumerate(sorted_boxes)] from index
    [j] on, for the seed at index [i]. *)
Fixpoint absorb (max_distance : Z) (i : nat) (seed : box) (j : nat)
  (boxes : list matched) (group : list matched) (used : gset nat)
  : list matched * gset nat :=
  match boxes with
  | [] => (group, used)
  | box2 :: rest =>
      if bool_decide (j ∈ used) || Nat.eqb j i
      then absorb max_distance i seed (S j) rest group used
      else if absorbs max_distance seed box2
      then absorb max_distance i seed (S j) rest (group ++ [box2])
             (used ∪ {[j]})
      else absorb max_distance i seed (S j) rest group used
  end.

(** [min] and [max] of a non-empty list. *)
Definition py_min (a : Z) (l : list Z) : Z := fold_left Z.min l a.
Definition py_max (a : Z) (l : list Z) : Z := fold_left Z.max l a.

Definition box_x (b : box) : Z := let '(x, _, _, _) := b in x.
Definition box_y (b : box) : Z := let '(_, y, _, _) := b in y.
Definition box_w (b : box) : Z := let '(_, _, w, _) := b in w.
Definition box_h (b : box) : Z := let '(_, _, _, h) := b in h.

(** The combined box of a group before padding: the union of the
    members' boxes. *)
Definition union_box (first : matched) (others : list matched) : box :=
  let all_x := map (fun b => box_x (m_box b)) others in
  let all_y := map (fun b => box_y (m_box b)) others in
  let all_x_end := map (fun b => box_x (m_box b) + box_w (m_box b)) others in
  let all_y_end := map (fun b => box_y (m_box b) + box_h (m_box b)) others in
  let x := py_min (box_x (m_box first)) all_x in
  let y := py_min (box_y (m_box first)) all_y in
  let w := py_max (box_x (m_box first) + box_w (m_box first)) all_x_end - x in
  let h := py_max (box_y (m_box first) + box_h (m_box first)) all_y_end - y in
  (x, y, w, h).

(** The [if group:] block: the region appended for a group, if any. *)
Definition group_region (shape : Z * Z) (group : list matched) : option box :=
  match group with
  | [] => None
  | first :: others => pad_and_clamp 10 shape (union_box first others)
  end.

(** The outer loop [for i, box1 in enumerate(sorted_boxes)] from index
    [i] on; [todo] is [sorted_boxes[i:]]. *)
Fixpoint group_loop (shape : Z * Z) (max_distance : Z)
  (sorted_boxes : list matched) (i : nat) (todo : list matched)
  (used : gset nat) (regions : list box) : list box :=
  match todo with
  | [] => regions
  | box1 :: todo' =>
      if bool_decide (i ∈ used)
      then group_loop shape max_distance sorted_boxes (S i) todo' used regions
      else
        let '(group, used) :=
          absorb max_distance i (m_box box1) 0 sorted_boxes [box1]
            (used ∪ {[i]}) in
        let regions :=
          match group_region shape group with
          | Some r => regions ++ [r]
          | None => regions
          end in
        group_loop shape max_distance sorted_boxes (S i) todo' used regions
  end.

(** [_group_nearby_boxes(matched_boxes, image, max_distance)] *)
Definition _group_nearby_boxes (matched_boxes : list matched)
  (shape : Z * Z) (max_distance : Z) : list box :=
  match matched_boxes with
  | [] => []
  | _ =>
      let sorted_boxes := sorted matched_boxes in
      group_loop shape max_distance sorted_boxes 0 sorted_boxes ∅ []
  end.

(** The normalised target and its words. *)
Definition target_of (target_word : string) (case_sensitive : bool) : string :=
  let target := PyStr.strip target_word in
  if case_sensitive then target else PyStr.lower target.

(** The list [matched_boxes] built by the matching loop. *)
Definition matched_boxes_of (data : list ocr_row) (target_word : string)
  (confidence_threshold : Z) (case_sensitive exact_match : bool)
  : list matched :=
  let target := target_of target_word case_sensitive in
  let target_words := PyStr.split target in
  omap (match_row target target_words confidence_threshold case_sensitive
          exact_match) data.

(** [detect_specific_word].  [tesseract_available] is the module flag
    [TESSERACT_AVAILABLE]; [image] is [None] or the image's
    [shape[:2]]; [ocr] is the answer of [pytesseract.image_to_data] on
    the image, [None] when the call raises.  The message boxes and the
    log lines are not modelled. *)
Definition detect_specific_word (tesseract_available : bool)
  (image : option (Z * Z)) (ocr : option (list ocr_row))
  (target_word : string) (confidence_threshold : Z)
  (case_sensitive exact_match : bool) : list box :=
  if negb tesseract_available then []
  else
    match image with
    | None => []
    | Some shape =>
        if PyStr.is_empty target_word
           || PyStr.is_empty (PyStr.strip target_word)
        then []
        else
          match ocr with
          | None => []
          | Some data =>
              let target_words :=
                PyStr.split (target_of target_word case_sensitive) in
              let matched_boxes :=
                matched_boxes_of data target_word confidence_threshold
                  case_sensitive exact_match in
              if (Nat.ltb 1 (length matched_boxes))
                 && (Nat.ltb 1 (length target_words))
              then _group_nearby_boxes matched_boxes shape 50
              else omap (fun m => pad_and_clamp 8 shape (m_box m))
                     matched_boxes
          end
    end.

(** A box lies inside an image of the given width and height. *)
Definition in_bounds (img_w img_h : Z) (b : box) : Prop :=
  let '(x, y, w, h) := b in
  0 <= x /\ 0 <= y /\ x + w <= img_w /\ y + h <= img_h.

(** The OCR rows of the phrase example: "Remind" at (10,10,50,20) with
    confidence 90 and "Me" at (65,10,30,20) with confidence 88. *)
Definition remind_me_rows : list ocr_row :=
  [mkRow "Remind" (Some 90) 10 10 50 20; mkRow "Me" (Some 88) 65 10 30 20].


(** [enumerate(l)] counted from [j]. *)
Fixpoint enumerate_from {A : Type} (j : nat) (l : list A) : list (nat * A) :=
  match l with
  | [] => []
  | a :: l' => (j, a) :: enumerate_from (S j) l'
  end.

(** The entries the inner loop takes for the seed at index [i] when it
    starts with the set [used]: the ones that are neither used nor the
    seed and pass the two tests. *)
Definition taken (max_distance : Z) (i : nat) (seed : box) (used : gset nat)
  (jb : nat * matched) : bool :=
  negb (bool_decide (fst jb ∈ used)) && negb (Nat.eqb (fst jb) i)
  && absorbs max_distance seed (snd jb).

(** *** Matching *)



(** *** Clamping *)

Lemma pad_and_clamp_in_bounds padding img_h img_w b b' :
  pad_and_clamp padding (img_h, img_w) b = Some b' ->
  in_bounds img_w img_h b'.
Proof.
  destruct b as [[[x y] w] h]. unfold pad_and_clamp.
  destruct (_ && _) eqn:E; [|discriminate].
  intros H. injection H as <-. unfold in_bounds. lia.
Qed.

Lemma pad_and_clamp_size padding img_h img_w b x y w h :
  pad_and_clamp padding (img_h, img_w) b = Some (x, y, w, h) ->
  5 < w /\ 5 < h.
Proof.
  destruct b as [[[x0 y0] w0] h0]. unfold pad_and_clamp.
  destruct (_ && _) eqn:E; [|discriminate].
  apply andb_true_iff in E. destruct E as [E1 E2].
  intros H. injection H as <- <- <- <-. lia.
Qed.

(** *** The inner loop *)

Lemma enumerate_from_ge {A : Type} (l : list A) j k a :
  In (k, a) (enumerate_from j l) -> (j <= k)%nat.
Proof.
  revert j. induction l as [|b l IH]; intros j; simpl.
  - intros [].
  - intros [H|H].
    + injection H as -> _. lia.
    + apply IH in H. lia.
Qed.

Lemma enumerate_from_lookup {A : Type} (l : list A) j k a :
  In (k, a) (enumerate_from j l)
  <-> (j <= k)%nat /\ l !! (k - j)%nat = Some a.
Proof.
  revert j. induction l as [|b l IH]; intros j; simpl.
  - split; [intros [] | intros [_ H]; discriminate].
  - rewrite IH. split.
    + intros [H|[H1 H2]].
      * injection H as -> ->. split; [lia|].
        replace (k - k)%nat with 0%nat by lia. reflexivity.
      * split; [lia|].
        replace (k - j)%nat with (S (k - S j)) by lia. exact H2.
    + intros [H1 H2]. destruct (decide (k = j)) as [->|Hne].
      * left. replace (j - j)%nat with 0%nat in H2 by lia.
        simpl in H2. congruence.
      * right. split; [lia|].
        replace (k - j)%nat with (S (k - S j)) in H2 by lia. exact H2.
Qed.

Lemma absorb_spec max_distance i seed boxes :
  forall j group used,
    absorb max_distance i seed j boxes group used
    = (group
         ++ map snd (List.filter (taken max_distance i seed used)
                       (enumerate_from j boxes)),
       used ∪ list_to_set
                (map fst (List.filter (taken max_distance i seed used)
                            (enumerate_from j boxes)))).
Proof.
  induction boxes as [|b boxes IH]; intros j group used.
  - simpl. rewrite app_nil_r, (right_id_L ∅ (∪)). reflexivity.
  - assert (taken max_distance i seed used (j, b)
            = negb (bool_decide (j ∈ used)) && negb (Nat.eqb j i)
              && absorbs max_distance seed b) as Ht by reflexivity.
    cbn [absorb enumerate_from List.filter]. rewrite Ht.
    destruct (bool_decide (j ∈ used)) eqn:Eu; cbn [orb negb andb].
    { apply IH. }
    destruct (Nat.eqb j i) eqn:Ei; cbn [orb negb andb].
    { apply IH. }
    destruct (absorbs max_distance seed b) eqn:Ea.
    + rewrite IH.
      assert (List.filter (taken max_distance i seed (used ∪ {[j]}))
                (enumerate_from (S j) boxes)
              = List.filter (taken max_distance i seed used)
                  (enumerate_from (S j) boxes)) as ->.
      { apply List.filter_ext_in. intros [k a] Hin.
        apply enumerate_from_ge in Hin. unfold taken. simpl.
        f_equal. f_equal. f_equal.
        apply bool_decide_ext. rewrite elem_of_union, elem_of_singleton.
        split; [intros [H|H]; [exact H | lia] | auto]. }
      simpl. rewrite <- app_assoc. simpl. f_equal.
      rewrite <- (assoc_L (∪)). reflexivity.
    + apply IH.
Qed.


(** *** The union of a group *)

Lemma py_min_le a l : py_min a l <= a /\ Forall (fun x => py_min a l <= x) l.
Proof.
  unfold py_min. revert a. induction l as [|b l IH]; intros a; simpl.
  - split; [lia | constructor].
  - destruct (IH (Z.min a b)) as [H1 H2]. split; [lia|].
    constructor; [lia | exact H2].
Qed.

Lemma py_min_in a l : py_min a l = a \/ In (py_min a l) l.
Proof.
  unfold py_min. revert a. induction l as [|b l IH]; intros a; simpl.
  - auto.
  - destruct (IH (Z.min a b)) as [H|H]; [|auto].
    rewrite H. destruct (Z.min_spec a b) as [[_ ->]|[_ ->]]; auto.
Qed.

Lemma py_max_ge a l : a <= py_max a l /\ Forall (fun x => x <= py_max a l) l.
Proof.
  unfold py_max. revert a. induction l as [|b l IH]; intros a; simpl.
  - split; [lia | constructor].
  - destruct (IH (Z.max a b)) as [H1 H2]. split; [lia|].
    constructor; [lia | exact H2].
Qed.

Lemma py_max_in a l : py_max a l = a \/ In (py_max a l) l.
Proof.
  unfold py_max. revert a. induction l as [|b l IH]; intros a; simpl.
  - auto.
  - destruct (IH (Z.max a b)) as [H|H]; [|auto].
    rewrite H. destruct (Z.max_spec a b) as [[_ ->]|[_ ->]]; auto.
Qed.

Lemma union_box_spec first others :
  let '(ux, uy, uw, uh) := union_box first others in
  Forall (fun m =>
            ux <= box_x (m_box m) /\ uy <= box_y (m_box m)
            /\ box_x (m_box m) + box_w (m_box m) <= ux + uw
            /\ box_y (m_box m) + box_h (m_box m) <= uy + uh)
         (first :: others)
  /\ (exists m, In m (first :: others) /\ box_x (m_box m) = ux)
  /\ (exists m, In m (first :: others) /\ box_y (m_box m) = uy)
  /\ (exists m, In m (first :: others)
                /\ box_x (m_box m) + box_w (m_box m) = ux + uw)
  /\ (exists m, In m (first :: others)
                /\ box_y (m_box m) + box_h (m_box m) = uy + uh).
Proof.
  unfold union_box.
  set (fx := fun b => box_x (m_box b)).
  set (fy := fun b => box_y (m_box b)).
  set (fxe := fun b => box_x (m_box b) + box_w (m_box b)).
  set (fye := fun b => box_y (m_box b) + box_h (m_box b)).
  change (box_x (m_box first)) with (fx first).
  change (box_y (m_box first)) with (fy first).
  change (fx first + box_w (m_box first)) with (fxe first).
  change (fy first + box_h (m_box first)) with (fye first).
  destruct (py_min_le (fx first) (map fx others)) as [Hx1 Hx2].
  destruct (py_min_le (fy first) (map fy others)) as [Hy1 Hy2].
  destruct (py_max_ge (fxe first) (map fxe others)) as [Hxe1 Hxe2].
  destruct (py_max_ge (fye first) (map fye others)) as [Hye1 Hye2].
  rewrite List.Forall_map in Hx2, Hy2, Hxe2, Hye2.
  assert (forall (f : matched -> Z) v,
            v = f first \/ In v (map f others) ->
            exists m, In m (first :: others) /\ f m = v) as Hex.
  { intros f v [->|H]; [exists first; simpl; auto|].
    apply List.in_map_iff in H. destruct H as [m [<- H]].
    exists m. simpl. auto. }
  split; [|split; [|split; [|split]]].
  - constructor.
    + change (box_x (m_box first)) with (fx first).
      change (box_y (m_box first)) with (fy first).
      change (fx first + box_w (m_box first)) with (fxe first).
      change (fy first + box_h (m_box first)) with (fye first).
      lia.
    + rewrite List.Forall_forall in *. intros m Hm.
      specialize (Hx2 m Hm). specialize (Hy2 m Hm).
      specialize (Hxe2 m Hm). specialize (Hye2 m Hm).
      change (box_x (m_box m)) with (fx m).
      change (box_y (m_box m)) with (fy m).
      change (fx m + box_w (m_box m)) with (fxe m).
      change (fy m + box_h (m_box m)) with (fye m).
      lia.
  - apply (Hex fx). apply py_min_in.
  - apply (Hex fy). apply py_min_in.
  - replace (py_min (fx first) (map fx others)
             + (py_max (fxe first) (map fxe others)
                - py_min (fx first) (map fx others)))
      with (py_max (fxe first) (map fxe others)) by lia.
    apply (Hex fxe). apply py_max_in.
  - replace (py_min (fy first) (map fy others)
             + (py_max (fye first) (map fye others)
                - py_min (fy first) (map fy others)))
      with (py_max (fye first) (map fye others)) by lia.
    apply (Hex fye). apply py_max_in.
Qed.



(** *** The outer loop *)



Lemma group_loop_in_bounds img_h img_w max_distance sorted_boxes todo :
  forall i used regions,
    Forall (in_bounds img_w img_h) regions ->
    Forall (in_bounds img_w img_h)
      (group_loop (img_h, img_w) max_distance sorted_boxes i todo used regions).
Proof.
  induction todo as [|box1 todo IH]; intros i used regions Hr.
  - exact Hr.
  - cbn [group_loop]. destruct (bool_decide (i ∈ used)).
    + apply IH. exact Hr.
    + destruct (absorb _ _ _ _ _ _ _) as [group used'].
      apply IH. destruct (group_region (img_h, img_w) group) as [r|] eqn:Er.
      * apply Forall_app. split; [exact Hr|].
        constructor; [|constructor].
        destruct group as [|first others]; [discriminate|].
        unfold group_region in Er.
        eapply pad_and_clamp_in_bounds. exact Er.
      * exact Hr.
Qed.

Lemma detect_specific_word_in_bounds tesseract_available img_h img_w ocr
  target_word threshold case_sensitive exact_match :
  Forall (in_bounds img_w img_h)
    (detect_specific_word tesseract_available (Some (img_h, img_w)) ocr
       target_word threshold case_sensitive exact_match).
Proof.
  unfold detect_specific_word.
  destruct (negb tesseract_available); [constructor|].
  destruct (_ || _); [constructor|].
  destruct ocr as [data|]; [|constructor].
  destruct (_ && _).
  - unfold _group_nearby_boxes.
    destruct (matched_boxes_of _ _ _ _ _) as [|m l]; [constructor|].
    apply group_loop_in_bounds. constructor.
  - induction (matched_boxes_of _ _ _ _ _) as [|m l IH]; simpl.
    + constructor.
    + destruct (pad_and_clamp 8 (img_h, img_w) (m_box m)) as [r|] eqn:Er.
      * constructor; [|exact IH].
        eapply pad_and_clamp_in_bounds. exact Er.
      * exact IH.
Qed.

(** *** The two examples *)






End TextDetector.

(* ===================================================================== *)
(** ** Effects and free-text detection ([core/image_processor.py]) *)
(* ===================================================================== *)

Module ImageProcessor.

(** A raised exception, by its message. *)
Definition exn : Type := string.

(** A pixel has three channels (B, G, R), each a [uint8]; an image, or a
    region of one, is a list of rows. *)
Definition pixel : Type := Z * Z * Z.
Definition image : Type := list (list pixel).

(** One channel of an image, such as [region[:, :, c]]. *)
Definition plane : Type := list (list Z).

Definition channel (c : nat) (p : pixel) : Z :=
  let '(b, g, r) := p in
  match c with O => b | S O => g | _ => r end.

Definition set_channel (c : nat) (v : Z) (p : pixel) : pixel :=
  let '(b, g, r) := p in
  match c with O => (v, g, r) | S O => (b, v, r) | _ => (b, g, v) end.

(** [region[:, :, c]] *)
Definition get_plane (c : nat) (region : image) : plane :=
  map (map (channel c)) region.

(** [region[:, :, c] = values], for [values] of the shape of the plane. *)
Definition set_plane (c : nat) (region : image) (values : plane) : image :=
  zip_with (zip_with (fun p v => set_channel c v p)) region values.

Definition is_u8 (v : Z) : Prop := 0 <= v <= 255.

Definition pixel_u8 (p : pixel) : Prop :=
  let '(b, g, r) := p in is_u8 b /\ is_u8 g /\ is_u8 r.

(** Every channel value of the image is a [uint8]. *)
Definition image_u8 (img : image) : Prop := Forall (Forall pixel_u8) img.

(** Two arrays have the same numbers of rows and of columns. *)
Definition same_shape {A B : Type} (a : list (list A)) (b : list (list B))
  : Prop :=
  Forall2 (fun r1 r2 => length r1 = length r2) a b.

(** The bounds of a Python slice [l[start:stop]] on a sequence of
    length [n]. *)
Definition slice_index (n i : Z) : Z :=
  if i <? 0 then Z.max 0 (i + n) else Z.min i n.

(** [l[start:stop]] *)
Definition py_slice {A : Type} (l : list A) (start stop : Z) : list A :=
  let n := Z.of_nat (length l) in
  let a := slice_index n start in
  let b := slice_index n stop in
  take (Z.to_nat (b - a)) (drop (Z.to_nat a) l).

(** [image[y:y+h, x:x+w]] *)
Definition crop (img : image) (x y w h : Z) : image :=
  map (fun row => py_slice row x (x + w)) (py_slice img y (y + h)).

(** [region.shape[:2]], that is (rows, columns); an array without rows
    is read as having no columns. *)
Definition shape2 (region : image) : Z * Z :=
  (Z.of_nat (length region), Z.of_nat (length (hd [] region))).

(** *** The OpenCV collaborator's [addWeighted]

    [dst = saturate_cast<uchar>(src1*alpha + src2*beta + gamma)] for each
    element, as OpenCV documents it; the weights and the sum are taken
    in exact rational arithmetic, and rounding is to the nearest integer
    with ties to even ([cvRound]). *)

Definition cvRound (q : Q) : Z :=
  let f := Qfloor q in
  match Qcompare (q - inject_Z f) (1 # 2) with
  | Lt => f
  | Gt => f + 1
  | Eq => if Z.even f then f else f + 1
  end.

Definition saturate_u8 (v : Z) : Z := Z.max 0 (Z.min 255 v).

Definition weighted (a : Z) (alpha : Q) (b : Z) (beta gamma : Q) : Z :=
  saturate_u8 (cvRound (inject_Z a * alpha + inject_Z b * beta + gamma)).

(** Element-wise combination of two rows, of two planes: [None] when
    the sizes differ (OpenCV raises). *)
Fixpoint zip_strict {A B C : Type} (f : A -> B -> option C)
  (l1 : list A) (l2 : list B) : option (list C) :=
  match l1, l2 with
  | [], [] => Some []
  | a :: l1', b :: l2' =>
      match f a b, zip_strict f l1' l2' with
      | Some c, Some l => Some (c :: l)
      | _, _ => None
      end
  | _, _ => None
  end.

Definition size_error : exn := "Sizes of input arguments do not match".

(** [cv2.addWeighted] on one-channel arrays. *)
Definition addWeighted_plane (src1 : plane) (alpha : Q) (src2 : plane)
  (beta gamma : Q) : exn + plane :=
  match zip_strict
          (zip_strict (fun a b => Some (weighted a alpha b beta gamma)))
          src1 src2 with
  | Some dst => inr dst
  | None => inl size_error
  end.

Definition weighted_pixel (p1 : pixel) (alpha : Q) (p2 : pixel)
  (beta gamma : Q) : pixel :=
  let '(b1, g1, r1) := p1 in
  let '(b2, g2, r2) := p2 in
  (weighted b1 alpha b2 beta gamma,
   weighted g1 alpha g2 beta gamma,
   weighted r1 alpha r2 beta gamma).

(** [cv2.addWeighted] on three-channel arrays. *)
Definition addWeighted (src1 : image) (alpha : Q) (src2 : image)
  (beta gamma : Q) : exn + image :=
  match zip_strict
          (zip_strict (fun a b => Some (weighted_pixel a alpha b beta gamma)))
          src1 src2 with
  | Some dst => inr dst
  | None => inl size_error
  end.

(** *** [ImageProcessor] *)

(** [apply_opacity(original, processed, opacity)] *)
Definition apply_opacity (original processed : image) (opacity : Z)
  : exn + image :=
  let alpha := (inject_Z opacity / 100)%Q in
  addWeighted processed alpha original (1 - alpha)%Q 0%Q.

(** The opacity step at the end of [apply_effect_to_region]
    ([gui/main_window.py]): [if opacity < 100: result = apply_opacity(...)]. *)
Definition opacity_step (original_region result : image) (opacity : Z)
  : exn + image :=
  if opacity <? 100 then apply_opacity original_region result opacity
  else inr result.

Inductive interpolation := INTER_NEAREST | INTER_LINEAR.

(** The sizes [(temp_w, temp_h)] of the intermediate image in
    [pixelate]. *)
Definition temp_size (region_w region_h pixel_size : Z) : Z * Z :=
  let pixel_size := Z.max 1 pixel_size in
  let temp_h := Z.max 1 (region_h / pixel_size) in
  let temp_w := Z.max 1 (region_w / pixel_size) in
  (temp_w, temp_h).

(** The intermediate sizes in the words of the specification:
    [ceil(w / blockSize)] by [ceil(h / blockSize)], block size floored
    at 1. *)
Definition spec_temp_size (w h block_size : Z) : Z * Z :=
  let b := Z.max 1 block_size in
  ((w + b - 1) / b, (h + b - 1) / b).

(** The gradient mask of [gradient_fade]: [np.linspace(0, 1, h_reg)]
    as a column, tiled [w_reg] times, times 255 as [uint8] (in exact
    arithmetic). *)
Definition gradient_mask (h_reg w_reg : Z) : plane :=
  map (fun i =>
         let g := if h_reg <=? 1 then 0%Q
                  else (inject_Z (Z.of_nat i) / inject_Z (h_reg - 1))%Q in
         replicate (Z.to_nat w_reg) (Qfloor (g * 255)))
      (seq 0 (Z.to_nat h_reg)).

Section Collaborators.

(** [cv2.resize(src, (width, height), interpolation=...)] and
    [cv2.GaussianBlur(src, (k, k), 0)]; both may raise. *)
Variable resize : image -> Z * Z -> interpolation -> exn + image.
Variable GaussianBlur : image -> Z -> exn + image.

(** [pixelate(image, x, y, w, h, pixel_size)] *)
Definition pixelate (img : image) (x y w h pixel_size : Z) : exn + image :=
  let region := crop img x y w h in
  let '(region_h, region_w) := shape2 region in
  let '(temp_w, temp_h) := temp_size region_w region_h pixel_size in
  match resize region (temp_w, temp_h) INTER_LINEAR with
  | inl e => inl e
  | inr temp => resize temp (region_w, region_h) INTER_NEAREST
  end.

(** One turn of [for c in range(3)] in [gradient_fade]. *)
Definition fade_channel (blurred : image) (region : exn + image) (c : nat)
  : exn + image :=
  match region with
  | inl e => inl e
  | inr region =>
      match addWeighted_plane (get_plane c region) 1 (get_plane c blurred)
              0 0 with
      | inl e => inl e
      | inr values => inr (set_plane c region values)
      end
  end.

(** [gradient_fade(image, x, y, w, h)] *)
Definition gradient_fade (img : image) (x y w h : Z) : exn + image :=
  let region := crop img x y w h in
  let '(h_reg, w_reg) := shape2 region in
  let gradient := gradient_mask h_reg w_reg in
  match GaussianBlur region 99 with
  | inl e => inl e
  | inr blurred => fold_left (fade_channel blurred) [0; 1; 2]%nat (inr region)
  end.

End Collaborators.

(** The fade in the words of the specification: row [i] of [h] rows is
    blended with weight [g = i / (h - 1)] on the blurred copy, 0 at the
    top row and 1 at the bottom row. *)
Definition spec_gradient_blend (region blurred : image) : image :=
  let h := Z.of_nat (length region) in
  imap (fun i '(row, brow) =>
          let g := (inject_Z (Z.of_nat i) / inject_Z (h - 1))%Q in
          zip_with (fun p q => weighted_pixel p (1 - g)%Q q g 0%Q) row brow)
       (zip region blurred).

(** *** [DetectionEngine.detect_text] *)

Definition box_of (row : TextDetector.ocr_row) : TextDetector.box :=
  (TextDetector.ocr_left row, TextDetector.ocr_top row,
   TextDetector.ocr_width row, TextDetector.ocr_height row).

(** The loop of the [try] block: [None] when [int(data['conf'][i])]
    raises on some row. *)
Fixpoint text_regions (rows : list TextDetector.ocr_row)
  : option (list TextDetector.box) :=
  match rows with
  | [] => Some []
  | row :: rest =>
      match TextDetector.ocr_conf row with
      | None => None
      | Some conf =>
          match text_regions rest with
          | None => None
          | Some regions =>
              if (conf >? 30)
                 && (TextDetector.ocr_width row >? 10)
                 && (TextDetector.ocr_height row >? 10)
              then Some (box_of row :: regions)
              else Some regions
          end
      end
  end.

(** The [except] block: the bounding rectangles of the contours of the
    thresholded image, filtered by size. *)
Definition fallback_regions (contour_boxes : list TextDetector.box)
  : list TextDetector.box :=
  List.filter (fun b =>
                 let '(x, y, w, h) := b in
                 (10 <? w) && (w <? 200) && (10 <? h) && (h <? 100))
              contour_boxes.

(** [detect_text(image)]: [ocr] is the answer of
    [pytesseract.image_to_data], [None] when it raises; [contour_boxes]
    are the rectangles [cv2.boundingRect] gives in the fallback. *)
Definition detect_text (ocr : option (list TextDetector.ocr_row))
  (contour_boxes : list TextDetector.box) : list TextDetector.box :=
  match ocr with
  | Some rows =>
      match text_regions rows with
      | Some regions => regions
      | None => fallback_regions contour_boxes
      end
  | None => fallback_regions contour_boxes
  end.

(** *** Example data *)

(** A region of two rows and one column, black above white. *)
Definition two_row_image : image := [[(0, 0, 0)]; [(255, 255, 255)]].

(** A blur that answers the mid grey of [two_row_image] on every row. *)
Definition grey_blur (src : image) (ksize : Z) : exn + image :=
  inr (map (map (fun _ => (128, 128, 128))) src).

(** A [resize] that answers, for the linear pass, a single pixel holding
    the requested width and height, and, for the nearest-neighbour pass,
    its source: the result of [pixelate] then shows the intermediate
    size that was asked for. *)
Definition probe_resize (src : image) (size : Z * Z) (interp : interpolation)
  : exn + image :=
  match interp with
  | INTER_LINEAR => inr [[(fst size, snd size, 0)]]
  | INTER_NEAREST => inr src
  end.

(** A black image of five rows and five columns. *)
Definition black_5x5 : image := replicate 5 (replicate 5 (0, 0, 0)).

(** The rows of the table that [detect_text] keeps. *)
Definition kept (row : TextDetector.ocr_row) : bool :=
  match TextDetector.ocr_conf row with
  | Some conf =>
      (conf >? 30) && (TextDetector.ocr_width row >? 10)
      && (TextDetector.ocr_height row >? 10)
  | None => false
  end.

(** *** Rounding *)

Lemma cvRound_comp (x y : Q) : (x == y)%Q -> cvRound x = cvRound y.
Proof.
  intros H. unfold cvRound.
  rewrite (Qfloor_comp x y H).
  assert ((x - inject_Z (Qfloor y))%Q == (y - inject_Z (Qfloor y))%Q)%Q as H'
    by (rewrite H; reflexivity).
  rewrite (Qcompare_comp _ _ H' (1 # 2)%Q (1 # 2)%Q (Qeq_refl _)).
  reflexivity.
Qed.

Lemma cvRound_Z (n : Z) : cvRound (inject_Z n) = n.
Proof.
  unfold cvRound. rewrite Qfloor_Z.
  assert ((inject_Z n - inject_Z n)%Q == 0%Q)%Q as H by ring.
  rewrite (Qcompare_comp _ _ H (1 # 2)%Q (1 # 2)%Q (Qeq_refl _)).
  reflexivity.
Qed.



Lemma saturate_u8_id (v : Z) : is_u8 v -> saturate_u8 v = v.
Proof. unfold is_u8, saturate_u8. lia. Qed.

Lemma saturate_u8_range (v : Z) : is_u8 (saturate_u8 v).
Proof. unfold is_u8, saturate_u8. lia. Qed.

(** Weights 1 and 0 return the first operand, weights 0 and 1 the
    second. *)
Lemma weighted_first (a b : Z) (alpha beta gamma : Q) :
  is_u8 a -> (alpha == 1)%Q -> (beta == 0)%Q -> (gamma == 0)%Q ->
  weighted a alpha b beta gamma = a.
Proof.
  intros Ha H1 H2 H3. unfold weighted.
  rewrite (cvRound_comp _ (inject_Z a)).
  - rewrite cvRound_Z. apply saturate_u8_id. exact Ha.
  - rewrite H1, H2, H3. ring.
Qed.

Lemma weighted_second (a b : Z) (alpha beta gamma : Q) :
  is_u8 b -> (alpha == 0)%Q -> (beta == 1)%Q -> (gamma == 0)%Q ->
  weighted a alpha b beta gamma = b.
Proof.
  intros Hb H1 H2 H3. unfold weighted.
  rewrite (cvRound_comp _ (inject_Z b)).
  - rewrite cvRound_Z. apply saturate_u8_id. exact Hb.
  - rewrite H1, H2, H3. ring.
Qed.


(** *** Element-wise operations *)

Lemma zip_strict_Forall2 {A B C : Type} (f : A -> B -> option C)
  (g : A -> B -> C) (l1 : list A) (l2 : list B) :
  Forall2 (fun a b => f a b = Some (g a b)) l1 l2 ->
  zip_strict f l1 l2 = Some (zip_with g l1 l2).
Proof.
  induction 1 as [|a b l1 l2 Hab _ IH]; simpl.
  - reflexivity.
  - rewrite Hab, IH. reflexivity.
Qed.

Lemma zip_strict_row {A B C : Type} (g : A -> B -> C)
  (l1 : list A) (l2 : list B) :
  length l1 = length l2 ->
  zip_strict (fun a b => Some (g a b)) l1 l2 = Some (zip_with g l1 l2).
Proof.
  intros H. apply zip_strict_Forall2.
  revert l2 H. induction l1 as [|a l1 IH]; intros [|b l2] H;
    try discriminate; constructor; [reflexivity|].
  apply IH. simpl in H. lia.
Qed.

Lemma zip_strict_rows {A B C : Type} (g : A -> B -> C)
  (p1 : list (list A)) (p2 : list (list B)) :
  same_shape p1 p2 ->
  zip_strict (zip_strict (fun a b => Some (g a b))) p1 p2
  = Some (zip_with (zip_with g) p1 p2).
Proof.
  intros H. apply zip_strict_Forall2.
  eapply Forall2_impl; [exact H|].
  intros r1 r2 Hr. apply zip_strict_row. exact Hr.
Qed.

Lemma zip_with_first {A B : Type} (g : A -> B -> A) (P : A -> Prop)
  (l1 : list A) (l2 : list B) :
  (forall a b, P a -> g a b = a) ->
  Forall P l1 -> length l1 = length l2 ->
  zip_with g l1 l2 = l1.
Proof.
  intros Hg H. revert l2. induction H as [|a l1 Ha _ IH]; intros [|b l2] Hl;
    try discriminate; simpl; [reflexivity|].
  rewrite (Hg a b Ha), IH; [reflexivity|]. simpl in Hl. lia.
Qed.

Lemma zip_with_second {A B : Type} (g : A -> B -> B) (P : B -> Prop)
  (l1 : list A) (l2 : list B) :
  (forall a b, P b -> g a b = b) ->
  Forall P l2 -> length l1 = length l2 ->
  zip_with g l1 l2 = l2.
Proof.
  intros Hg H. revert l1. induction H as [|b l2 Hb _ IH]; intros [|a l1] Hl;
    try discriminate; simpl; [reflexivity|].
  rewrite (Hg a b Hb), IH; [reflexivity|]. simpl in Hl. lia.
Qed.

Lemma zip_with_rows_first {A B : Type} (g : A -> B -> A) (P : A -> Prop)
  (p1 : list (list A)) (p2 : list (list B)) :
  (forall a b, P a -> g a b = a) ->
  Forall (Forall P) p1 -> same_shape p1 p2 ->
  zip_with (zip_with g) p1 p2 = p1.
Proof.
  intros Hg H Hs. revert H.
  induction Hs as [|r1 r2 p1 p2 Hr _ IH]; intros H; simpl; [reflexivity|].
  inversion H as [|? ? H1 H2]; subst.
  rewrite (zip_with_first g P r1 r2 Hg H1 Hr), (IH H2). reflexivity.
Qed.

Lemma zip_with_rows_second {A B : Type} (g : A -> B -> B) (P : B -> Prop)
  (p1 : list (list A)) (p2 : list (list B)) :
  (forall a b, P b -> g a b = b) ->
  Forall (Forall P) p2 -> same_shape p1 p2 ->
  zip_with (zip_with g) p1 p2 = p2.
Proof.
  intros Hg H Hs. revert H.
  induction Hs as [|r1 r2 p1 p2 Hr _ IH]; intros H; simpl; [reflexivity|].
  inversion H as [|? ? H1 H2]; subst.
  rewrite (zip_with_second g P r1 r2 Hg H1 Hr), (IH H2). reflexivity.
Qed.

Lemma same_shape_sym {A B : Type} (a : list (list A)) (b : list (list B)) :
  same_shape a b -> same_shape b a.
Proof.
  unfold same_shape. induction 1; constructor; [congruence | assumption].
Qed.

Lemma same_shape_get_plane c (a b : image) :
  same_shape a b -> same_shape (get_plane c a) (get_plane c b).
Proof.
  unfold same_shape, get_plane. induction 1 as [|r1 r2 a b Hr _ IH]; simpl.
  - constructor.
  - constructor; [|exact IH]. rewrite !length_map. exact Hr.
Qed.

(** *** Opacity *)

(** The blend in closed form. *)
Lemma apply_opacity_formula (original processed : image) (opacity : Z) :
  same_shape processed original ->
  apply_opacity original processed opacity
  = inr (zip_with
           (zip_with (fun p o =>
                        weighted_pixel p (inject_Z opacity / 100)%Q
                          o (1 - inject_Z opacity / 100)%Q 0%Q))
           processed original).
Proof.
  intros Hs. unfold apply_opacity, addWeighted.
  rewrite (zip_strict_rows _ processed original Hs). reflexivity.
Qed.

Lemma apply_opacity_mismatch (original processed : image) (opacity : Z) :
  ~ same_shape processed original ->
  apply_opacity original processed opacity = inl size_error.
Proof.
  intros Hs. unfold apply_opacity, addWeighted.
  destruct (zip_strict _ processed original) as [dst|] eqn:E; [|reflexivity].
  exfalso. apply Hs. clear Hs. revert original dst E.
  induction processed as [|r1 p IH]; intros [|r2 o] dst E; simpl in E;
    try discriminate.
  - constructor.
  - destruct (zip_strict _ r1 r2) as [row|] eqn:Er; [|discriminate].
    destruct (zip_strict _ p o) as [rest|] eqn:Ep; [|discriminate].
    constructor; [|eapply IH; exact Ep].
    clear -Er. revert r2 row Er.
    induction r1 as [|a r1 IHr]; intros [|b r2] row Er; simpl in Er;
      try discriminate; [reflexivity|].
    destruct (zip_strict _ r1 r2) as [row'|] eqn:Er'; [|discriminate].
    simpl. f_equal. eapply IHr. exact Er'.
Qed.


Lemma weighted_pixel_second p q alpha beta gamma :
  pixel_u8 q -> (alpha == 0)%Q -> (beta == 1)%Q -> (gamma == 0)%Q ->
  weighted_pixel p alpha q beta gamma = q.
Proof.
  destruct p as [[b1 g1] r1], q as [[b2 g2] r2].
  intros [Hb [Hg Hr]] H1 H2 H3. unfold weighted_pixel.
  rewrite !weighted_second by assumption. reflexivity.
Qed.


Lemma apply_opacity_0 (original processed : image) :
  same_shape processed original -> image_u8 original ->
  apply_opacity original processed 0 = inr original.
Proof.
  intros Hs Hu. rewrite apply_opacity_formula by exact Hs. f_equal.
  apply (zip_with_rows_second _ pixel_u8); [|exact Hu | exact Hs].
  intros p o Ho. apply weighted_pixel_second; [exact Ho | | | ]; reflexivity.
Qed.

(** *** The gradient fade *)

Lemma set_plane_get_plane c (region : image) :
  set_plane c region (get_plane c region) = region.
Proof.
  unfold set_plane, get_plane.
  induction region as [|row region IH]; simpl; [reflexivity|].
  rewrite IH. f_equal.
  induction row as [|p row IHr]; simpl; [reflexivity|].
  rewrite IHr. f_equal.
  destruct p as [[b g] r]. destruct c as [|[|c]]; reflexivity.
Qed.

Lemma get_plane_u8 c (region : image) :
  image_u8 region -> Forall (Forall is_u8) (get_plane c region).
Proof.
  unfold image_u8, get_plane. intros H.
  apply List.Forall_map. eapply Forall_impl; [exact H|].
  intros row Hrow. apply List.Forall_map. eapply Forall_impl; [exact Hrow|].
  intros [[b g] r] [Hb [Hg Hr]]. destruct c as [|[|c]]; assumption.
Qed.

Lemma fade_channel_unchanged (blurred region : image) (c : nat) :
  same_shape region blurred -> image_u8 region ->
  fade_channel blurred (inr region) c = inr region.
Proof.
  intros Hs Hu. unfold fade_channel, addWeighted_plane.
  rewrite (zip_strict_rows _ _ _ (same_shape_get_plane c _ _ Hs)).
  rewrite (zip_with_rows_first _ is_u8).
  - rewrite set_plane_get_plane. reflexivity.
  - intros a b Ha. apply weighted_first; [exact Ha | | | ]; reflexivity.
  - apply get_plane_u8. exact Hu.
  - apply same_shape_get_plane. exact Hs.
Qed.

(** *** Cropping *)

Lemma py_slice_length {A : Type} (l : list A) (a b : Z) :
  0 <= a -> a <= b -> b <= Z.of_nat (length l) ->
  length (py_slice l a b) = Z.to_nat (b - a).
Proof.
  intros Ha Hab Hb. unfold py_slice, slice_index.
  destruct (a <? 0) eqn:Ea; [apply Z.ltb_lt in Ea; lia|].
  destruct (b <? 0) eqn:Eb; [apply Z.ltb_lt in Eb; lia|].
  rewrite length_take, length_drop. lia.
Qed.

Lemma py_slice_Forall {A : Type} (P : A -> Prop) (l : list A) (a b : Z) :
  Forall P l -> Forall P (py_slice l a b).
Proof.
  intros H. unfold py_slice. apply Forall_take, Forall_drop. exact H.
Qed.

Lemma crop_shape (img : image) (x y w h img_w img_h : Z) :
  Z.of_nat (length img) = img_h ->
  Forall (fun row => Z.of_nat (length row) = img_w) img ->
  0 <= x -> 0 <= y -> 0 < w -> 0 < h ->
  x + w <= img_w -> y + h <= img_h ->
  shape2 (crop img x y w h) = (h, w).
Proof.
  intros Hh Hrows Hx Hy Hw Hh' Hxw Hyh. unfold shape2, crop.
  rewrite length_map.
  pose proof (py_slice_length img y (y + h)) as Hl.
  pose proof (py_slice_Forall _ img y (y + h) Hrows) as Hf.
  destruct (py_slice img y (y + h)) as [|row rows].
  - simpl in Hl. lia.
  - f_equal; [rewrite Hl; lia|].
    simpl. inversion Hf as [|? ? Hrow _]; subst.
    rewrite py_slice_length; lia.
Qed.

(** *** Free-text detection *)

Lemma text_regions_kept rows regions :
  text_regions rows = Some regions ->
  regions = map box_of (List.filter kept rows).
Proof.
  revert regions. induction rows as [|row rows IH]; intros regions; simpl.
  - intros H. injection H as <-. reflexivity.
  - unfold kept at 1. destruct (TextDetector.ocr_conf row) as [conf|];
      [|discriminate].
    destruct (text_regions rows) as [rest|]; [|discriminate].
    pose proof (IH rest eq_refl) as Hrest.
    destruct (_ && _); intros H; injection H as <-; simpl;
      rewrite Hrest; reflexivity.
Qed.

Lemma detect_text_boxes ocr contour_boxes b :
  In b (detect_text ocr contour_boxes) ->
  (exists rows row, ocr = Some rows /\ In row rows /\ b = box_of row)
  \/ In b contour_boxes.
Proof.
  unfold detect_text, fallback_regions.
  destruct ocr as [rows|].
  - destruct (text_regions rows) as [regions|] eqn:E.
    + apply text_regions_kept in E. subst regions. intros H.
      apply List.in_map_iff in H. destruct H as [row [<- H]].
      apply List.filter_In in H. left. exists rows, row. tauto.
    + intros H. apply List.filter_In in H. tauto.
  - intros H. apply List.filter_In in H. tauto.
Qed.

(** *** The effects' properties *)

(** C1 (the code departs from the claim). Whatever the blur returns, as
    long as it has the shape of the region, [gradient_fade] returns the
    region as it was: each channel is combined with weights 1 and 0, and
    the gradient mask is never read.  No row is blended with the blurred
    copy, the bottom row included. *)
Theorem gradient_fade_returns_region
  (GaussianBlur : image -> Z -> exn + image)
  (img : image) (x y w h : Z) (blurred : image) :
  GaussianBlur (crop img x y w h) 99 = inr blurred ->
  same_shape (crop img x y w h) blurred ->
  image_u8 (crop img x y w h) ->
  gradient_fade GaussianBlur img x y w h = inr (crop img x y w h).
Proof.
  intros Hb Hs Hu. unfold gradient_fade.
  destruct (shape2 (crop img x y w h)) as [h_reg w_reg].
  rewrite Hb. cbn [fold_left].
  rewrite !fade_channel_unchanged by assumption. reflexivity.
Qed.

(** C4 (amended). For a region of width [w] and height [h] inside the
    image, [pixelate] floors the block size at 1, resizes the region
    with linear interpolation to [max(1, w // b)] by [max(1, h // b)],
    floor division, and resizes the result back to [w] by [h] with
    nearest-neighbour interpolation. *)
Theorem pixelate_floor_sizes
  (resize : image -> Z * Z -> interpolation -> exn + image)
  (img : image) (x y w h img_w img_h pixel_size : Z) :
  Z.of_nat (length img) = img_h ->
  Forall (fun row => Z.of_nat (length row) = img_w) img ->
  0 <= x -> 0 <= y -> 0 < w -> 0 < h ->
  x + w <= img_w -> y + h <= img_h ->
  let b := Z.max 1 pixel_size in
  shape2 (crop img x y w h) = (h, w)
  /\ temp_size w h pixel_size = (Z.max 1 (w / b), Z.max 1 (h / b))
  /\ pixelate resize img x y w h pixel_size
     = match resize (crop img x y w h) (Z.max 1 (w / b), Z.max 1 (h / b))
               INTER_LINEAR with
       | inl e => inl e
       | inr temp => resize temp (w, h) INTER_NEAREST
       end
  /\ (b <= w -> Z.max 1 (w / b) * b <= w < (Z.max 1 (w / b) + 1) * b)
  /\ (w < b -> Z.max 1 (w / b) = 1)
  /\ (b <= h -> Z.max 1 (h / b) * b <= h < (Z.max 1 (h / b) + 1) * b)
  /\ (h < b -> Z.max 1 (h / b) = 1).
Proof.
  intros Hh Hrows Hx Hy Hw Hh' Hxw Hyh b.
  assert (shape2 (crop img x y w h) = (h, w)) as Hshape
    by (eapply crop_shape; eassumption).
  assert (1 <= b) as Hb by (unfold b; lia).
  split; [exact Hshape|]. split; [reflexivity|].
  split; [unfold pixelate; rewrite Hshape; reflexivity|].
  assert (forall n, 0 < n -> b <= n ->
            Z.max 1 (n / b) * b <= n < (Z.max 1 (n / b) + 1) * b) as Hge.
  { intros n Hn Hbn.
    assert (1 <= n / b) by (apply Z.div_le_lower_bound; lia).
    replace (Z.max 1 (n / b)) with (n / b) by lia.
    pose proof (Z.mul_div_le n b ltac:(lia)).
    pose proof (Z.mul_succ_div_gt n b ltac:(lia)). nia. }
  assert (forall n, 0 < n -> n < b -> Z.max 1 (n / b) = 1) as Hlt.
  { intros n Hn Hnb. rewrite Z.div_small by lia. reflexivity. }
  repeat split; try (apply Hge; assumption); try (apply Hlt; assumption).
Qed.

(** C4, the claim as written fails: for a 5 by 5 region and block size
    2 the intermediate image is 2 by 2, not the 3 by 3 of ceiling
    division. *)
Lemma pixelate_ceiling_counterexample :
  temp_size 5 5 2 = (2, 2)
  /\ spec_temp_size 5 5 2 = (3, 3)
  /\ pixelate probe_resize black_5x5 0 0 5 5 2 = inr [[(2, 2, 0)]].
Proof.
  split; [|split]; vm_compute; reflexivity.
Qed.


(** C9 (amended). Every box returned by targeted-text detection lies
    inside the image, whatever the OCR collaborator answers.  Free-text
    detection returns boxes of its collaborators unchanged (the OCR rows
    with confidence above 30 and width and height above 10, or else the
    contour rectangles of the fallback), so its boxes lie inside the
    image when the collaborators' boxes do. *)
Theorem detector_boxes_within_image
  (img_w img_h : Z) (tesseract_available : bool)
  (ocr : option (list TextDetector.ocr_row)) (target_word : string)
  (threshold : Z) (case_sensitive exact_match : bool)
  (rows : list TextDetector.ocr_row) (regions : list TextDetector.box)
  (contour_boxes : list TextDetector.box) :
  Forall (TextDetector.in_bounds img_w img_h)
    (TextDetector.detect_specific_word tesseract_available
       (Some (img_h, img_w)) ocr target_word threshold case_sensitive
       exact_match)
  /\ (text_regions rows = Some regions ->
      detect_text (Some rows) contour_boxes
      = map box_of (List.filter kept rows))
  /\ (Forall (TextDetector.in_bounds img_w img_h)
        (map box_of (default [] ocr)) ->
      Forall (TextDetector.in_bounds img_w img_h) contour_boxes ->
      Forall (TextDetector.in_bounds img_w img_h)
        (detect_text ocr contour_boxes)).
Proof.
  split; [apply TextDetector.detect_specific_word_in_bounds|]. split.
  - intros H. unfold detect_text. rewrite H.
    apply text_regions_kept. exact H.
  - intros Hocr Hc. rewrite List.Forall_forall in *. intros b Hb.
    apply detect_text_boxes in Hb.
    destruct Hb as [[rows' [row [-> [Hin ->]]]]|Hb].
    + apply Hocr. simpl. apply List.in_map. exact Hin.
    + apply Hc. exact Hb.
Qed.

(** C9, the claim as written fails for free-text detection: an OCR row
    at (90, 0) of size 20 by 20 with confidence 90 on a 100 by 100 image
    is returned as it is, and reaches beyond the right edge. *)
Lemma free_text_out_of_bounds_counterexample :
  detect_text (Some [TextDetector.mkRow "x" (Some 90) 90 0 20 20]) []
  = [(90, 0, 20, 20)]
  /\ ~ Forall (TextDetector.in_bounds 100 100)
         (detect_text (Some [TextDetector.mkRow "x" (Some 90) 90 0 20 20]) []).
Proof.
  split; [reflexivity|].
  change (detect_text (Some [TextDetector.mkRow "x" (Some 90) 90 0 20 20]) [])
    with [(90, 0, 20, 20)].
  intros H. inversion H as [|? ? Hb _]; subst.
  unfold TextDetector.in_bounds in Hb. lia.
Qed.

End ImageProcessor.

(* ===================================================================== *)
(** ** Paths ([pathlib.Path] and [os.path.join], POSIX flavour) *)
(* ===================================================================== *)

Module PyPath.

Definition slash : ascii := "/"%char.
Definition dot : ascii := "."%char.

(** The components of a path between slashes; [cur] is the component
    being read. *)
Fixpoint components_from (cur : string) (s : string) : list string :=
  match s with
  | EmptyString => [cur]
  | String c s' =>
      if Ascii.eqb c slash then cur :: components_from EmptyString s'
      else components_from (String.append cur (String c EmptyString)) s'
  end.

(** [Path(p).name]: the last component, empty and "." components
    dropped. *)
Definition name (p : string) : string :=
  let parts :=
    List.filter (fun c => negb (PyStr.is_empty c) && negb (String.eqb c "."))
      (components_from EmptyString p) in
  List.last parts EmptyString.

(** [s.rfind('.')], [None] for -1. *)
Fixpoint rfind_dot (s : string) : option nat :=
  match s with
  | EmptyString => None
  | String c s' =>
      match rfind_dot s' with
      | Some i => Some (S i)
      | None => if Ascii.eqb c dot then Some O else None
      end
  end.

(** The position where the suffix starts: the last dot, unless it is the
    first or the last character of the name. *)
Definition suffix_start (nm : string) : option nat :=
  match rfind_dot nm with
  | Some i =>
      if Nat.ltb 0 i && Nat.ltb i (String.length nm - 1) then Some i else None
  | None => None
  end.

(** [Path(p).stem] *)
Definition stem (p : string) : string :=
  let nm := name p in
  match suffix_start nm with
  | Some i => String.substring 0 i nm
  | None => nm
  end.

(** [Path(p).suffix] *)
Definition suffix (p : string) : string :=
  let nm := name p in
  match suffix_start nm with
  | Some i => String.substring i (String.length nm - i) nm
  | None => EmptyString
  end.

Definition ends_with_slash (s : string) : bool :=
  match String.get (String.length s - 1) s with
  | Some c => Ascii.eqb c slash
  | None => false
  end.

(** [os.path.join(a, b)] *)
Definition join (a b : string) : string :=
  if PyStr.startswith b "/" then b
  else if PyStr.is_empty a || ends_with_slash a then String.append a b
  else String.append a (String.append "/" b).

End PyPath.

(* ===================================================================== *)
(** ** The batch engine ([core/batch_processor.py]) *)
(* ===================================================================== *)

Module Batch.

Definition exn : Type := string.
Definition box : Type := TextDetector.box.

(** The [settings] dictionary: a field is [None] when its key is
    absent. *)
Record settings := mkSettings {
  detection_mode : option string;
  effect_type : option string;
  effect_params : option (gmap string Z)
}.

(** A result dictionary.  [regions_processed] is [None] in the
    dictionary built for a failure, which has no such key. *)
Record result := mkResult {
  input_path : string;
  output_path : option string;
  success : bool;
  regions_processed : option Z;
  error : option string
}.

(** What a detection returns: a Python list, the empty tuple (OpenCV's
    answer when a cascade finds nothing) or an array of boxes. *)
Inductive detected :=
| PyList (boxes : list box)
| PyTuple
| NdArray (boxes : list box).

Definition boxes_of (r : detected) : list box :=
  match r with
  | PyList l => l
  | PyTuple => []
  | NdArray l => l
  end.

(** [BLUR_RANGE] and [PIXEL_RANGE] of [config.py]. *)
Definition BLUR_RANGE_default : Z := 51.
Definition BLUR_RANGE_min : Z := 15.
Definition PIXEL_RANGE_default : Z := 15.

(** The file name of a result, [f"processed_{Path(input_path).stem}.jpg"]. *)
Definition output_filename (input_path : string) : string :=
  String.append "processed_"
    (String.append (PyPath.stem input_path) ".jpg").


Definition load_error (input_path : string) : exn :=
  String.append "Could not load image: " input_path.

Definition ambiguous_truth : exn :=
  "The truth value of an array with more than one element is ambiguous".

(** The dictionary recorded for a failure. *)
Definition error_info (input_path : string) (e : exn) : result :=
  mkResult input_path None false None (Some e).

Section Engine.

(** Decoded images, with [image.shape[:2]] as (height, width). *)
Variable Image : Type.
Variable shape : Image -> Z * Z.

(** What the world has seen so far: the calls made on the file system
    and on the callbacks, oldest first. *)
Inductive event :=
| EvMakedirs (dir : string)
| EvImwrite (path : string) (img : Image)
| EvProgress (current total : Z) (r : result)
| EvError (path : string) (msg : string).

(** The state a run threads: the events so far and [self.results]. *)
Record state := mkState {
  trace : list event;
  results : list result
}.

(** The collaborators.  Those that touch the world see the events so
    far; an answer [Some e] or [inl e] is a raised exception.

    - [imread]: [cv2.imread], [None] when the file cannot be decoded;
    - [imwrite]: [cv2.imwrite], whose boolean answer the engine drops;
    - [makedirs]: [os.makedirs(output_dir, exist_ok=True)];
    - the methods of [self.detection_engine] and [self.image_processor];
    - [empty_array_truth]: the truth value NumPy gives an empty array
      (a deprecated [False], or an error in later versions). *)
Variable imread : list event -> string -> option Image.
Variable imwrite : list event -> string -> Image -> option exn.
Variable makedirs : list event -> string -> option exn.
Variable empty_array_truth : exn + bool.

Record detection_engine := mkEngine {
  detect_faces : Image -> exn + detected;
  detect_eyes : Image -> exn + detected;
  detect_full_body : Image -> exn + detected;
  detect_license_plates : Image -> exn + detected;
  detect_text : Image -> exn + detected
}.

Record image_processor := mkProcessor {
  gaussian_blur : Image -> Z -> Z -> Z -> Z -> Z -> exn + Image;
  pixelate : Image -> Z -> Z -> Z -> Z -> Z -> exn + Image;
  black_bar : Image -> Z -> Z -> Z -> Z -> exn + Image;
  gradient_fade : Image -> Z -> Z -> Z -> Z -> exn + Image;
  mosaic_effect : Image -> Z -> Z -> Z -> Z -> exn + Image;
  frosted_glass : Image -> Z -> Z -> Z -> Z -> exn + Image;
  oil_paint : Image -> Z -> Z -> Z -> Z -> exn + Image
}.

Variable engine : detection_engine.
Variable processor : image_processor.

(** The two callbacks, [None] when the caller passes none. *)
Variable progress_callback :
  option (list event -> Z -> Z -> result -> option exn).
Variable error_callback :
  option (list event -> string -> string -> option exn).

(** *** A state and exception monad *)

Definition M (A : Type) : Type := state -> state * (exn + A).

Definition ret {A : Type} (a : A) : M A := fun st => (st, inr a).

Definition raise {A : Type} (e : exn) : M A := fun st => (st, inl e).

Definition bind {A B : Type} (m : M A) (k : A -> M B) : M B :=
  fun st =>
    match m st with
    | (st', inr a) => k a st'
    | (st', inl e) => (st', inl e)
    end.

(** [try: m  except Exception as e: handler(str(e))] *)
Definition try_except {A : Type} (m : M A) (handler : exn -> M A) : M A :=
  fun st =>
    match m st with
    | (st', inl e) => handler e st'
    | r => r
    end.

(** A call that does not touch the world. *)
Definition lift {A : Type} (r : exn + A) : M A := fun st => (st, r).

(** A call on the world: it is recorded, then it returns or raises. *)
Definition call (ev : event) (raises : list event -> option exn) : M unit :=
  fun st =>
    let st' := mkState (trace st ++ [ev]) (results st) in
    match raises (trace st) with
    | None => (st', inr tt)
    | Some e => (st', inl e)
    end.

(** [self.results = []] and reading [self.results]. *)
Definition reset_results : M unit :=
  fun st => (mkState (trace st) [], inr tt).

Definition get_results : M (list result) :=
  fun st => (st, inr (results st)).

(** [self.results.append(r)] *)
Definition append_result (r : result) : M unit :=
  fun st => (mkState (trace st) (results st ++ [r]), inr tt).

#[local] Instance M_ret : MRet M := @ret.
#[local] Instance M_bind : MBind M := fun A B k m => bind m k.

(** *** The engine *)

(** [if not regions] *)
Definition not_regions (r : detected) : exn + bool :=
  match r with
  | PyList l => inr (match l with [] => true | _ => false end)
  | PyTuple => inr true
  | NdArray [] =>
      match empty_array_truth with
      | inl e => inl e
      | inr t => inr (negb t)
      end
  | NdArray (_ :: _) => inl ambiguous_truth
  end.

(** [_detect_regions(image, detection_mode)] *)
Definition _detect_regions (img : Image) (mode : string) : exn + detected :=
  if String.eqb mode "face" then detect_faces engine img
  else if String.eqb mode "eye" then detect_eyes engine img
  else if String.eqb mode "body" then detect_full_body engine img
  else if String.eqb mode "license_plate"
       then detect_license_plates engine img
  else if String.eqb mode "text" then detect_text engine img
  else if String.eqb mode "full" then
    let '(h, w) := shape img in inr (PyList [(0, 0, w, h)])
  else inr (PyList []).

(** [_apply_effect_to_region(image, x, y, w, h, effect_type, effect_params)] *)
Definition _apply_effect_to_region (img : Image) (x y w h : Z)
  (effect : string) (params : gmap string Z) : exn + Image :=
  if String.eqb effect "blur" then
    let strength := default BLUR_RANGE_default (params !! "blur_strength"%string) in
    gaussian_blur processor img x y w h strength
  else if String.eqb effect "pixelation" then
    let pixel_size := default PIXEL_RANGE_default (params !! "pixel_size"%string) in
    pixelate processor img x y w h pixel_size
  else if String.eqb effect "black_bar" then black_bar processor img x y w h
  else if String.eqb effect "gradient" then gradient_fade processor img x y w h
  else if String.eqb effect "mosaic" then mosaic_effect processor img x y w h
  else if String.eqb effect "glass" then
    let strength := default BLUR_RANGE_min (params !! "blur_strength"%string) in
    frosted_glass processor img x y w h
  else if String.eqb effect "oil_paint" then oil_paint processor img x y w h
  else inr img.

(** The loop [for (x, y, w, h) in regions]. *)
Fixpoint apply_effects (processed_image : Image) (regions : list box)
  (effect : string) (params : gmap string Z) : exn + Image :=
  match regions with
  | [] => inr processed_image
  | (x, y, w, h) :: rest =>
      match _apply_effect_to_region processed_image x y w h effect params with
      | inl e => inl e
      | inr processed_image => apply_effects processed_image rest effect params
      end
  end.

Definition read_image (input_path : string) : M Image :=
  fun st =>
    match imread (trace st) input_path with
    | Some img => (st, inr img)
    | None => (st, inl (load_error input_path))
    end.

Definition write_image (path : string) (img : Image) : M unit :=
  call (EvImwrite path img) (fun t => imwrite t path img).

(** [_process_single_image(input_path, output_dir, settings)] *)
Definition _process_single_image (input_path output_dir : string)
  (st : settings) : M result :=
  img ← read_image input_path;
  let mode := default "face"%string (detection_mode st) in
  let effect := default "blur"%string (effect_type st) in
  let params := default ∅ (effect_params st) in
  regions ← lift (_detect_regions img mode);
  empty ← lift (not_regions regions);
  if (empty : bool) then
    let output_path :=
      PyPath.join output_dir (output_filename input_path) in
    write_image output_path img ;;
    ret (mkResult input_path (Some output_path) true (Some 0) None)
  else
    processed_image ←
      lift (apply_effects img (boxes_of regions) effect params);
    let output_path :=
      PyPath.join output_dir (output_filename input_path) in
    write_image output_path processed_image ;;
    ret (mkResult input_path (Some output_path) true
           (Some (Z.of_nat (length (boxes_of regions)))) None).

(** One turn of the loop of [process_batch], for the file at index [i]. *)
Definition process_one (i total_files : Z) (input_path output_dir : string)
  (st : settings) : M unit :=
  try_except
    (r ← _process_single_image input_path output_dir st;
     append_result r ;;
     match progress_callback with
     | Some cb =>
         call (EvProgress (i + 1) total_files r)
           (fun t => cb t (i + 1) total_files r)
     | None => ret tt
     end)
    (fun e =>
       append_result (error_info input_path e) ;;
       match error_callback with
       | Some cb =>
           call (EvError input_path e) (fun t => cb t input_path e)
       | None => ret tt
       end).

(** [for i, input_path in enumerate(input_paths)] from index [i] on. *)
Fixpoint process_loop (i total_files : Z) (input_paths : list string)
  (output_dir : string) (st : settings) : M unit :=
  match input_paths with
  | [] => ret tt
  | input_path :: rest =>
      process_one i total_files input_path output_dir st ;;
      process_loop (i + 1) total_files rest output_dir st
  end.

(** [process_batch(input_paths, output_dir, settings, ...)] *)
Definition process_batch (input_paths : list string) (output_dir : string)
  (st : settings) : M (list result) :=
  reset_results ;;
  call (EvMakedirs output_dir) (fun t => makedirs t output_dir) ;;
  process_loop 0 (Z.of_nat (length input_paths)) input_paths output_dir st ;;
  get_results.

(** Neither callback raises, whatever it is called with. *)
Definition callbacks_return : Prop :=
  (forall cb, progress_callback = Some cb ->
              forall t a b r, cb t a b r = None)
  /\ (forall cb, error_callback = Some cb ->
                 forall t p m, cb t p m = None).


(** The calls of the two callbacks among the events. *)
Definition is_progress (ev : event) : bool :=
  match ev with EvProgress _ _ _ => true | _ => false end.

Definition is_error (ev : event) : bool :=
  match ev with EvError _ _ => true | _ => false end.

(** *** One file *)

Ltac run_monad :=
  unfold read_image, write_image, mbind, M_bind, bind, ret, raise, lift,
    try_except, call, append_result, reset_results, get_results in *;
  cbv beta zeta in *.

(** The path a result is written to,
    [os.path.join(output_dir, output_filename)]. *)
Definition written_path (input_path output_dir : string) : string :=
  PyPath.join output_dir (output_filename input_path).

(** When [_process_single_image] returns, it has made one call of
    [imwrite], on the derived path, and reports that path. *)
Lemma _process_single_image_returns input_path output_dir stg st st' r :
  _process_single_image input_path output_dir stg st = (st', inr r) ->
  exists img n,
    r = mkResult input_path (Some (written_path input_path output_dir))
          true (Some n) None
    /\ trace st'
       = trace st ++ [EvImwrite (written_path input_path output_dir) img]
    /\ results st' = results st
    /\ imread (trace st) input_path <> None.
Proof.
  unfold _process_single_image, written_path. run_monad. cbv zeta.
  destruct (imread (trace st) input_path) as [img|]; [|discriminate].
  destruct (_detect_regions img _) as [e|regions]; [discriminate|].
  destruct (not_regions regions) as [e|[|]]; [discriminate| |].
  - destruct (imwrite (trace st) _ img) as [e|]; [discriminate|].
    intros H. injection H as <- <-. exists img, 0. simpl. auto.
  - destruct (apply_effects img _ _ _) as [e|out]; [discriminate|].
    destruct (imwrite (trace st) _ out) as [e|]; [discriminate|].
    intros H. injection H as <- <-.
    exists out, (Z.of_nat (length (boxes_of regions))). simpl. auto.
Qed.

(** When it raises, nothing was recorded except, possibly, the call of
    [imwrite] that raised. *)
Lemma _process_single_image_raises input_path output_dir stg st st' e :
  _process_single_image input_path output_dir stg st = (st', inl e) ->
  results st' = results st
  /\ (trace st' = trace st
      \/ exists img,
           trace st'
           = trace st ++ [EvImwrite (written_path input_path output_dir) img]).
Proof.
  unfold _process_single_image, written_path. run_monad. cbv zeta.
  destruct (imread (trace st) input_path) as [img|].
  2:{ intros H. injection H as <- <-. auto. }
  destruct (_detect_regions img _) as [e'|regions].
  { intros H. injection H as <- <-. auto. }
  destruct (not_regions regions) as [e'|[|]].
  { intros H. injection H as <- <-. auto. }
  - destruct (imwrite (trace st) _ img) as [e'|]; [|discriminate].
    intros H. injection H as <- <-. simpl. eauto.
  - destruct (apply_effects img _ _ _) as [e'|out].
    { intros H. injection H as <- <-. auto. }
    destruct (imwrite (trace st) _ out) as [e'|]; [|discriminate].
    intros H. injection H as <- <-. simpl. eauto.
Qed.

Lemma _process_single_image_decode_failure input_path output_dir stg st :
  imread (trace st) input_path = None ->
  _process_single_image input_path output_dir stg st
  = (st, inl (load_error input_path)).
Proof.
  intros H. unfold _process_single_image. run_monad. rewrite H. reflexivity.
Qed.

(** *** One turn of the loop *)

(** A decode failure is recorded and reported, and the turn ends
    normally. *)
Lemma process_one_decode_failure i total input_path output_dir stg st cb :
  imread (trace st) input_path = None ->
  error_callback = Some cb ->
  cb (trace st) input_path (load_error input_path) = None ->
  process_one i total input_path output_dir stg st
  = (mkState (trace st ++ [EvError input_path (load_error input_path)])
       (results st ++ [error_info input_path (load_error input_path)]),
     inr tt).
Proof.
  intros Hd Hcb Hok. unfold process_one. run_monad.
  rewrite (_process_single_image_decode_failure _ _ _ _ Hd).
  rewrite Hcb. simpl. rewrite Hok. reflexivity.
Qed.

Lemma process_one_success i total input_path output_dir stg st st1 r :
  _process_single_image input_path output_dir stg st = (st1, inr r) ->
  (forall cb, progress_callback = Some cb ->
              cb (trace st1) (i + 1) total r = None) ->
  process_one i total input_path output_dir stg st
  = (mkState
       (trace st1
          ++ match progress_callback with
             | Some _ => [EvProgress (i + 1) total r]
             | None => []
             end)
       (results st1 ++ [r]),
     inr tt).
Proof.
  intros H Hcb. unfold process_one. run_monad. rewrite H. simpl.
  destruct progress_callback as [cb|]; simpl.
  - rewrite (Hcb cb eq_refl). reflexivity.
  - rewrite app_nil_r. reflexivity.
Qed.

Lemma process_one_failure i total input_path output_dir stg st st1 e :
  _process_single_image input_path output_dir stg st = (st1, inl e) ->
  (forall cb, error_callback = Some cb ->
              cb (trace st1) input_path e = None) ->
  process_one i total input_path output_dir stg st
  = (mkState
       (trace st1
          ++ match error_callback with
             | Some _ => [EvError input_path e]
             | None => []
             end)
       (results st1 ++ [error_info input_path e]),
     inr tt).
Proof.
  intros H Hcb. unfold process_one. run_monad. rewrite H. simpl.
  destruct error_callback as [cb|]; simpl.
  - rewrite (Hcb cb eq_refl). reflexivity.
  - rewrite app_nil_r. reflexivity.
Qed.

(** When the callbacks return, a turn ends normally and adds exactly one
    result, for its file. *)
Lemma process_one_total i total input_path output_dir stg st :
  callbacks_return ->
  exists st' r,
    process_one i total input_path output_dir stg st = (st', inr tt)
    /\ results st' = results st ++ [r]
    /\ Batch.input_path r = input_path.
Proof.
  intros [Hp He].
  destruct (_process_single_image input_path output_dir stg st)
    as [st1 [e|r]] eqn:E.
  - eexists _, _. split; [|split].
    + apply (process_one_failure _ _ _ _ _ _ _ _ E).
      intros cb Hcb. apply (He cb Hcb).
    + simpl. apply _process_single_image_raises in E.
      destruct E as [-> _]. reflexivity.
    + reflexivity.
  - eexists _, _. split; [|split].
    + apply (process_one_success _ _ _ _ _ _ _ _ E).
      intros cb Hcb. apply (Hp cb Hcb).
    + simpl. apply _process_single_image_returns in E.
      destruct E as [img [n [_ [_ [-> _]]]]]. reflexivity.
    + apply _process_single_image_returns in E.
      destruct E as [img [n [-> _]]]. reflexivity.
Qed.

(** *** The loop *)

Lemma process_loop_cons i total input_path rest output_dir stg st :
  process_loop i total (input_path :: rest) output_dir stg st
  = match process_one i total input_path output_dir stg st with
    | (st', inr _) => process_loop (i + 1) total rest output_dir stg st'
    | (st', inl e) => (st', inl e)
    end.
Proof. reflexivity. Qed.

Lemma process_loop_total input_paths output_dir stg :
  callbacks_return ->
  forall i total st,
  exists st' rs,
    process_loop i total input_paths output_dir stg st = (st', inr tt)
    /\ results st' = results st ++ rs
    /\ map Batch.input_path rs = input_paths.
Proof.
  intros Hcb. induction input_paths as [|p rest IH]; intros i total st.
  - exists st, []. rewrite app_nil_r. auto.
  - rewrite process_loop_cons.
    destruct (process_one_total i total p output_dir stg st Hcb)
      as [st1 [r [E [Hr Hp]]]].
    rewrite E.
    destruct (IH (i + 1) total st1) as [st2 [rs [E2 [Hrs Hps]]]].
    exists st2, (r :: rs). split; [exact E2|]. split.
    + rewrite Hrs, Hr, <- app_assoc. reflexivity.
    + simpl. rewrite Hp, Hps. reflexivity.
Qed.

(** *** Where results are written *)





(** *** The batch run *)

Lemma process_batch_unfold input_paths output_dir stg st :
  makedirs (trace st) output_dir = None ->
  process_batch input_paths output_dir stg st
  = match process_loop 0 (Z.of_nat (length input_paths)) input_paths
            output_dir stg
            (mkState (trace st ++ [EvMakedirs output_dir]) []) with
    | (st', inr _) => (st', inr (results st'))
    | (st', inl e) => (st', inl e)
    end.
Proof.
  intros Hm. unfold process_batch. run_monad. simpl. rewrite Hm.
  destruct (process_loop _ _ _ _ _ _) as [st' [e|[]]]; reflexivity.
Qed.



(** C6. A file that cannot be decoded is recovered within its turn of
    the loop: a result with [success = False] and the error message is
    appended, the error callback is called once, with the path and the
    message, and the loop goes on with the next file.  When the
    callbacks return, a run gives one result per file, in order.  In a
    run over three files of which the second cannot be decoded and the
    other two are processed, the results are three, the second a
    failure; the error callback is called once, and the progress
    callback for files 1 and 3. *)
Theorem decode_failure_is_recovered
  (i total : Z) (input_path : string) (rest input_paths : list string)
  (output_dir : string) (stg : settings) (st st0 : state)
  (cb : list event -> string -> string -> option exn)
  (p1 p2 p3 : string)
  (pcb : list event -> Z -> Z -> result -> option exn) :
  (imread (trace st) input_path = None ->
   error_callback = Some cb ->
   cb (trace st) input_path (load_error input_path) = None ->
   let failure := error_info input_path (load_error input_path) in
   let st' :=
     mkState (trace st ++ [EvError input_path (load_error input_path)])
       (results st ++ [failure]) in
   process_one i total input_path output_dir stg st = (st', inr tt)
   /\ process_loop i total (input_path :: rest) output_dir stg st
      = process_loop (i + 1) total rest output_dir stg st'
   /\ success failure = false
   /\ error failure = Some (load_error input_path))
  /\ (callbacks_return ->
      makedirs (trace st0) output_dir = None ->
      exists st' rs,
        process_batch input_paths output_dir stg st0 = (st', inr rs)
        /\ map Batch.input_path rs = input_paths)
  /\ (progress_callback = Some pcb ->
      error_callback = Some cb ->
      callbacks_return ->
      makedirs (trace st0) output_dir = None ->
      trace st0 = [] ->
      (forall t, imread t p2 = None) ->
      (forall s, exists s' r,
           _process_single_image p1 output_dir stg s = (s', inr r)) ->
      (forall s, exists s' r,
           _process_single_image p3 output_dir stg s = (s', inr r)) ->
      exists st' r1 r2 r3,
        process_batch [p1; p2; p3] output_dir stg st0
        = (st', inr [r1; r2; r3])
        /\ success r1 = true
        /\ r2 = error_info p2 (load_error p2) /\ success r2 = false
        /\ success r3 = true
        /\ List.filter is_error (trace st')
           = [EvError p2 (load_error p2)]
        /\ List.filter is_progress (trace st')
           = [EvProgress 1 3 r1; EvProgress 3 3 r3]).
Proof.
  split; [|split].
  - intros Hd Hcb Hok failure st'.
    pose proof (process_one_decode_failure i total input_path output_dir
                  stg st cb Hd Hcb Hok) as H1.
    split; [exact H1|]. split; [|split; reflexivity].
    rewrite process_loop_cons. fold failure in H1. fold st' in H1.
    rewrite H1. reflexivity.
  - intros Hcb Hm. rewrite (process_batch_unfold _ _ _ _ Hm).
    destruct (process_loop_total input_paths output_dir stg Hcb 0
                (Z.of_nat (length input_paths))
                (mkState (trace st0 ++ [EvMakedirs output_dir]) []))
      as [st' [rs [E [Hrs Hps]]]].
    rewrite E. exists st', rs. simpl in Hrs. rewrite Hrs. auto.
  - intros Hp He [Hpr Her] Hm Ht0 Hd H1 H3.
    rewrite (process_batch_unfold _ _ _ _ Hm). rewrite Ht0.
    change (Z.of_nat (length [p1; p2; p3])) with 3.
    change ([] ++ [EvMakedirs output_dir]) with [EvMakedirs output_dir].
    set (s0 := mkState [EvMakedirs output_dir] []).
    destruct (H1 s0) as [s1 [r1 E1]].
    pose proof (_process_single_image_returns _ _ _ _ _ _ E1)
      as [img1 [n1 [Hr1 [Htr1 [Hres1 _]]]]].
    pose proof (process_one_success 0 3 _ _ _ _ _ _ E1
                  (fun c Hc => Hpr c Hc _ _ _ _)) as P1.
    rewrite Hp in P1.
    set (s1' := mkState (trace s1 ++ [EvProgress (0 + 1) 3 r1])
                  (results s1 ++ [r1])) in *.
    pose proof (process_one_decode_failure (0 + 1) 3 p2 output_dir stg s1'
                  cb (Hd _) He (Her cb He _ _ _)) as P2.
    set (s2' := mkState
                  (trace s1' ++ [EvError p2 (load_error p2)])
                  (results s1' ++ [error_info p2 (load_error p2)])) in *.
    destruct (H3 s2') as [s3 [r3 E3]].
    pose proof (_process_single_image_returns _ _ _ _ _ _ E3)
      as [img3 [n3 [Hr3 [Htr3 [Hres3 _]]]]].
    pose proof (process_one_success (0 + 1 + 1) 3 _ _ _ _ _ _ E3
                  (fun c Hc => Hpr c Hc _ _ _ _)) as P3.
    rewrite Hp in P3.
    rewrite process_loop_cons, P1. cbv iota beta.
    rewrite process_loop_cons, P2. cbv iota beta.
    rewrite process_loop_cons, P3. cbv iota beta.
    cbn [process_loop]. unfold ret.
    eexists _, r1, (error_info p2 (load_error p2)), r3.
    split; [|split; [|split; [|split; [|split; [|split]]]]].
    + f_equal. f_equal. cbn [results]. rewrite Hres3. unfold s2', s1'.
      cbn [results]. rewrite Hres1. reflexivity.
    + rewrite Hr1. reflexivity.
    + reflexivity.
    + reflexivity.
    + rewrite Hr3. reflexivity.
    + cbn [trace]. rewrite Htr3. unfold s2', s1'. cbn [trace].
      rewrite Htr1. unfold s0. cbn [trace].
      rewrite !List.filter_app. reflexivity.
    + cbn [trace]. rewrite Htr3. unfold s2', s1'. cbn [trace].
      rewrite Htr1. unfold s0. cbn [trace].
      rewrite !List.filter_app. reflexivity.
Qed.

End Engine.

Arguments EvMakedirs {Image}.
Arguments EvImwrite {Image}.
Arguments EvProgress {Image}.
Arguments EvError {Image}.
Arguments mkState {Image}.
Arguments trace {Image}.
Arguments results {Image}.
Arguments mkEngine {Image}.
Arguments mkProcessor {Image}.

End Batch.

(* ===================================================================== *)
(** ** Concrete scenarios *)
(* ===================================================================== *)

Module Scenarios.

(** A small world for the batch engine: a decoded image is named by the
    file it came from, every image is 20 wide and 10 high, the file
    [broken.png] cannot be decoded, writing and the callbacks never
    raise, the cascades find nothing and the effects leave the image as
    it is. *)
Definition Img : Type := string.

Definition shape (_ : Img) : Z * Z := (10, 20).

Definition imread (_ : list (Batch.event Img)) (path : string) : option Img :=
  if String.eqb path "broken.png" then None else Some path.

Definition imwrite (_ : list (Batch.event Img)) (_ : string) (_ : Img)
  : option Batch.exn := None.

Definition makedirs (_ : list (Batch.event Img)) (_ : string)
  : option Batch.exn := None.

Definition engine : Batch.detection_engine Img :=
  Batch.mkEngine
    (fun _ => inr Batch.PyTuple) (fun _ => inr Batch.PyTuple)
    (fun _ => inr Batch.PyTuple) (fun _ => inr (Batch.NdArray []))
    (fun _ => inr (Batch.NdArray [])).

Definition processor : Batch.image_processor Img :=
  Batch.mkProcessor
    (fun img _ _ _ _ _ => inr img) (fun img _ _ _ _ _ => inr img)
    (fun img _ _ _ _ => inr img) (fun img _ _ _ _ => inr img)
    (fun img _ _ _ _ => inr img) (fun img _ _ _ _ => inr img)
    (fun img _ _ _ _ => inr img).

Definition on_progress (_ : list (Batch.event Img)) (_ _ : Z)
  (_ : Batch.result) : option Batch.exn := None.

Definition on_error (_ : list (Batch.event Img)) (_ _ : string)
  : option Batch.exn := None.

(** Full-frame detection with the blur effect. *)
Definition full_blur : Batch.settings :=
  Batch.mkSettings (Some "full"%string) (Some "blur"%string) None.

Definition fresh : Batch.state Img := Batch.mkState [] [].

(** A batch run in this world. *)
Definition run (input_paths : list string) (output_dir : string)
  : Batch.state Img * (Batch.exn + list Batch.result) :=
  Batch.process_batch Img shape imread imwrite makedirs (inr false) engine
    processor (Some on_progress) (Some on_error) input_paths output_dir
    full_blur fresh.

(** The result recorded for [photo.png] written to [out]. *)
Definition photo_result : Batch.result :=
  Batch.mkResult "photo.png" (Some "out/processed_photo.jpg"%string) true
    (Some 1) None.


(** An OCR row inside a 100 by 100 image. *)
Definition inner_row : TextDetector.ocr_row :=
  TextDetector.mkRow "word" (Some 90) 10 10 20 20.

Lemma callbacks_return_here :
  Batch.callbacks_return Img (Some on_progress) (Some on_error).
Proof.
  split; intros cb H; injection H as <-; reflexivity.
Qed.


(** C1 at a failing input: on black above white with a mid-grey blur the
    code returns the region as it was, while the blend of the
    specification turns the bottom row into the blurred one. *)
Lemma gradient_fade_diverges_from_blend :
  ImageProcessor.gradient_fade ImageProcessor.grey_blur
    ImageProcessor.two_row_image 0 0 1 2
  = inr [[(0, 0, 0)]; [(255, 255, 255)]]
  /\ ImageProcessor.spec_gradient_blend ImageProcessor.two_row_image
       [[(128, 128, 128)]; [(128, 128, 128)]]
     = [[(0, 0, 0)]; [(128, 128, 128)]].
Proof.
  split; vm_compute; reflexivity.
Qed.

(** The bound and the eviction order on a concrete run: capacity 2, one
    push, an undo whose result goes to the redo stack, then a new push. *)
Lemma bounded_undo_stack_witness :
  0 <= 2
  /\ Z.of_nat (length (History.history
       (History.save_state
          (History.run [History.SaveState (Some "a"%string); History.Undo;
                        History.AddToRedo (Some "a"%string);
                        History.SaveState (Some "b"%string);
                        History.SaveState (Some "c"%string)]
             (History.init 2))
          (Some "d"%string)))) <= 2.
Proof.
  split; [lia |].
  exact (proj1 (proj1 (History.save_state_bounds_undo_stack string 2
           [History.SaveState (Some "a"%string); History.Undo;
            History.AddToRedo (Some "a"%string);
            History.SaveState (Some "b"%string);
            History.SaveState (Some "c"%string)]
           "d"%string "A"%string "B"%string "C"%string "D"%string
           ltac:(lia)))).
Defined.



(** Free-text detection on a row that lies inside the image. *)
Lemma inner_row_witness :
  Forall (TextDetector.in_bounds 100 100)
    (ImageProcessor.detect_text (Some [inner_row]) []).
Proof.
  refine (proj2 (proj2
            (ImageProcessor.detector_boxes_within_image 100 100 true
               (Some [inner_row]) "word" 30 false false [inner_row]
               [(10, 10, 20, 20)] [])) _ _).
  - constructor; [|constructor]. unfold TextDetector.in_bounds. simpl. lia.
  - constructor.
Defined.

(** The fade on black above white with the mid-grey blur. *)
Lemma gradient_fade_witness :
  ImageProcessor.gradient_fade ImageProcessor.grey_blur
    ImageProcessor.two_row_image 0 0 1 2
  = inr (ImageProcessor.crop ImageProcessor.two_row_image 0 0 1 2).
Proof.
  refine (ImageProcessor.gradient_fade_returns_region
            ImageProcessor.grey_blur ImageProcessor.two_row_image 0 0 1 2
            [[(128, 128, 128)]; [(128, 128, 128)]] eq_refl _ _).
  - repeat constructor.
  - repeat constructor; unfold ImageProcessor.is_u8; lia.
Defined.

(** Pixelation of the whole 5 by 5 image with block size 2. *)
Lemma pixelate_witness :
  ImageProcessor.temp_size 5 5 2 = (Z.max 1 (5 / Z.max 1 2),
                                    Z.max 1 (5 / Z.max 1 2)).
Proof.
  refine (proj1 (proj2
            (ImageProcessor.pixelate_floor_sizes ImageProcessor.probe_resize
               ImageProcessor.black_5x5 0 0 5 5 5 5 2 eq_refl _
               ltac:(lia) ltac:(lia) ltac:(lia) ltac:(lia) ltac:(lia)
               ltac:(lia)))).
  repeat constructor.
Defined.



(** The batch run over three files of which the second is
    [broken.png]. *)
Lemma three_files_witness :
  exists st' r1 r2 r3,
    run ["a.png"%string; "broken.png"%string; "c.png"%string] "out"
    = (st', inr [r1; r2; r3])
    /\ Batch.success r1 = true
    /\ r2 = Batch.error_info "broken.png" (Batch.load_error "broken.png")
    /\ Batch.success r2 = false
    /\ Batch.success r3 = true
    /\ List.filter (Batch.is_error Img) (Batch.trace st')
       = [Batch.EvError "broken.png"%string (Batch.load_error "broken.png")]
    /\ List.filter (Batch.is_progress Img) (Batch.trace st')
       = [Batch.EvProgress 1 3 r1; Batch.EvProgress 3 3 r3].
Proof.
  refine (proj2 (proj2
            (Batch.decode_failure_is_recovered Img shape imread imwrite
               makedirs (inr false) engine processor (Some on_progress)
               (Some on_error) 0 3 "broken.png" [] [] "out" full_blur fresh
               fresh on_error "a.png" "broken.png" "c.png" on_progress))
            eq_refl eq_refl callbacks_return_here eq_refl eq_refl _ _ _).
  - intros t. reflexivity.
  - intros s. eexists _, _. lazy. reflexivity.
  - intros s. eexists _, _. lazy. reflexivity.
Defined.

End Scenarios.

(* ===================================================================== *)
(** ** More on the history: order of undo, round trips, the editor

    The editor is the part of [gui/main_window.py] that drives the
    history: [process_image], [undo], [redo], [reset_image]. *)
(* ===================================================================== *)

Module Editor.

Section WithImage.

Variable Image : Type.

(** The fields of the main window that the history interacts with. *)
Record editor := mkEditor {
  original_image : option Image;
  processed_image : option Image;
  history_manager : History.HistoryManager Image
}.

(** [MainWindow.undo] *)
Definition undo (self : editor) : editor :=
  let '(hm, prev_image) := History.undo (history_manager self) in
  match prev_image with
  | Some prev =>
      mkEditor (original_image self) (Some prev)
        (History.add_to_redo hm (processed_image self))
  | None => mkEditor (original_image self) (processed_image self) hm
  end.

(** [MainWindow.redo] *)
Definition redo (self : editor) : editor :=
  let '(hm, next_image) := History.redo (history_manager self) in
  match next_image with
  | Some next =>
      mkEditor (original_image self) (Some next)
        (History.save_state hm (processed_image self))
  | None => mkEditor (original_image self) (processed_image self) hm
  end.

(** [MainWindow.reset_image] *)
Definition reset_image (self : editor) : editor :=
  match original_image self with
  | Some original =>
      mkEditor (Some original) (Some original)
        (History.clear (history_manager self))
  | None => self
  end.

(** [MainWindow.process_image]: the snapshot taken before the edit.
    [edit] is what detection and the effects make of the copy of the
    working image (the image itself when the method returns early or an
    effect raises before writing).  With an original but no working
    image the method raises, which is [None] here. *)
Definition process_image (edit : Image -> Image) (self : editor)
  : option editor :=
  match original_image self with
  | None => Some self
  | Some _ =>
      match processed_image self with
      | Some processed =>
          Some (mkEditor (original_image self) (Some (edit processed))
                  (History.save_state (history_manager self)
                     (Some processed)))
      | None => None
      end
  end.

Lemma removelast_snoc (l : list Image) (a : Image) :
  removelast (l ++ [a]) = l.
Proof. apply List.removelast_last. Qed.

Lemma last_snoc_Some (l : list Image) (a : Image) : last (l ++ [a]) = Some a.
Proof. apply last_snoc. Qed.

Lemma length_snoc_pos (l : list Image) (a : Image) :
  (Z.of_nat (length (l ++ [a])) >? 0) = true.
Proof. rewrite length_app. simpl. apply Z.gtb_lt. lia. Qed.

(** [undo] on a manager whose stack ends with [a]. *)
Lemma undo_snoc (h r : list Image) (a : Image) (m : Z) :
  History.undo (History.mkHistory (h ++ [a]) r m)
  = (History.mkHistory h r m, Some a).
Proof.
  unfold History.undo. simpl History.history.
  rewrite length_snoc_pos, removelast_snoc, last_snoc_Some. reflexivity.
Qed.

Lemma undo_nil (r : list Image) (m : Z) :
  History.undo (History.mkHistory [] r m) = (History.mkHistory [] r m, None).
Proof. reflexivity. Qed.

Lemma redo_snoc (h r : list Image) (a : Image) (m : Z) :
  History.redo (History.mkHistory h (r ++ [a]) m)
  = (History.mkHistory h r m, Some a).
Proof.
  unfold History.redo. simpl History.redo_stack.
  rewrite length_snoc_pos, removelast_snoc, last_snoc_Some. reflexivity.
Qed.

Lemma redo_nil (h : list Image) (m : Z) :
  History.redo (History.mkHistory h [] m) = (History.mkHistory h [] m, None).
Proof. reflexivity. Qed.

(** The stack left by [save_state]. *)
Lemma save_state_history (h r : list Image) (m : Z) (img : Image) :
  1 <= m ->
  exists h',
    History.save_state (History.mkHistory h r m) (Some img)
    = History.mkHistory (h' ++ [img]) [] m
    /\ h' = (if Z.of_nat (length h) + 1 >? m then tail h else h).
Proof.
  intros Hm. unfold History.save_state, History.pop_front.
  simpl History.history. simpl History.max_history.
  rewrite length_app. simpl length.
  replace (Z.of_nat (length h + 1)) with (Z.of_nat (length h) + 1) by lia.
  destruct (Z.of_nat (length h) + 1 >? m) eqn:E.
  - apply Z.gtb_lt in E. destruct h as [|a h]; [simpl in E; lia|].
    exists h. simpl. auto.
  - exists h. auto.
Qed.

Lemma undo_all_then_none (h r : list Image) (m : Z) (k : nat) :
  History.undo_n (length h + k) (History.mkHistory h r m)
  = map Some (rev h) ++ replicate k None.
Proof.
  revert k. induction h as [|a h IH] using rev_ind; intros k.
  - simpl. induction k as [|k IHk]; simpl; [reflexivity|].
    f_equal. exact IHk.
  - rewrite length_app. simpl length.
    replace (length h + 1 + k)%nat with (S (length h + k)) by lia.
    cbn [History.undo_n]. rewrite undo_snoc.
    rewrite rev_app_distr. simpl. f_equal. apply IH.
Qed.

(** X1. Successive [undo()] calls return the snapshots most recent
    first; once the stack is used up every further call returns
    [None]. *)
Theorem undo_returns_most_recent_first
  (self : History.HistoryManager Image) (k : nat) :
  History.undo_n (length (History.history self) + k) self
  = map Some (rev (History.history self)) ++ replicate k None.
Proof.
  destruct self as [h r m]. simpl History.history.
  apply undo_all_then_none.
Qed.

(** X2. With a capacity of at least 1, [undo()] right after
    [save_state(img)] returns [img]; the stack is then what it was
    before the push, less its oldest entry when the push met the
    capacity; the redo stack is empty. *)
Theorem undo_after_save_state
  (self : History.HistoryManager Image) (img : Image) :
  1 <= History.max_history self ->
  History.undo (History.save_state self (Some img))
  = (History.mkHistory
       (if Z.of_nat (length (History.history self)) + 1
           >? History.max_history self
        then tail (History.history self) else History.history self)
       [] (History.max_history self),
     Some img).
Proof.
  intros Hm. destruct self as [h r m]. simpl in Hm.
  destruct (save_state_history h r m img Hm) as [h' [E ->]].
  rewrite E, undo_snoc. reflexivity.
Qed.

(** [redo()] right after [add_to_redo(img)] returns [img] and leaves
    the manager as it was before the two calls. *)
Lemma redo_after_add_to_redo
  (self : History.HistoryManager Image) (img : Image) :
  History.redo (History.add_to_redo self (Some img)) = (self, Some img).
Proof.
  destruct self as [h r m]. unfold History.add_to_redo. simpl.
  apply redo_snoc.
Qed.

(** X3. [can_undo()] is true exactly when [undo()] returns a snapshot,
    and [can_redo()] exactly when [redo()] does; after [clear()] both
    are false. *)
Theorem can_undo_tells_undo (self : History.HistoryManager Image) :
  (History.can_undo Image self = true
   <-> exists img, snd (History.undo self) = Some img)
  /\ (History.can_redo Image self = true
      <-> exists img, snd (History.redo self) = Some img)
  /\ History.can_undo Image (History.clear self) = false
  /\ History.can_redo Image (History.clear self) = false
  /\ snd (History.undo (History.clear self)) = None
  /\ snd (History.redo (History.clear self)) = None.
Proof.
  destruct self as [h r m].
  split; [|split; [|repeat split]].
  - destruct h as [|a h] using rev_ind.
    + split; [discriminate | intros [img H]; discriminate].
    + rewrite undo_snoc. unfold History.can_undo. simpl History.history.
      rewrite length_snoc_pos. split; [eauto | reflexivity].
  - destruct r as [|a r] using rev_ind.
    + split; [discriminate | intros [img H]; discriminate].
    + rewrite redo_snoc. unfold History.can_redo. simpl History.redo_stack.
      rewrite length_snoc_pos. split; [eauto | reflexivity].
Qed.

(** X4. Undoing right after an edit brings back the image the edit
    started from, and puts the edited image on the redo stack
    (capacity at least 1). *)
Theorem undo_restores_image_before_edit
  (edit : Image -> Image) (self : editor) (original p : Image) :
  original_image self = Some original ->
  processed_image self = Some p ->
  1 <= History.max_history (history_manager self) ->
  exists edited,
    process_image edit self = Some edited
    /\ processed_image edited = Some (edit p)
    /\ processed_image (undo edited) = Some p
    /\ History.redo_stack (history_manager (undo edited)) = [edit p].
Proof.
  intros Ho Hp Hm. destruct self as [o q [h r m]]. simpl in *. subst o q.
  unfold process_image.
  cbn [original_image processed_image history_manager].
  eexists. split; [reflexivity|]. split; [reflexivity|].
  unfold undo. cbn [original_image processed_image history_manager].
  destruct (save_state_history h r m p Hm) as [h' [E _]].
  rewrite E, undo_snoc. simpl. auto.
Qed.

(** X5. An undo followed by a redo brings back the working image and
    the undo stack (for a stack within its capacity); the redo stack is
    left empty, whatever it held before. *)
Theorem redo_after_undo_restores
  (self : editor) (p a : Image) (h : list Image) :
  processed_image self = Some p ->
  History.history (history_manager self) = h ++ [a] ->
  Z.of_nat (length (h ++ [a])) <= History.max_history (history_manager self) ->
  redo (undo self)
  = mkEditor (original_image self) (Some p)
      (History.mkHistory (h ++ [a]) []
         (History.max_history (history_manager self))).
Proof.
  intros Hp Hh Hb. destruct self as [o q [h0 r m]]. simpl in *. subst q h0.
  unfold undo. simpl history_manager. rewrite undo_snoc.
  unfold History.add_to_redo. simpl.
  unfold redo. simpl history_manager. rewrite redo_snoc. simpl.
  unfold History.save_state, History.pop_front. simpl.
  destruct (Z.of_nat (length (h ++ [a])) >? m) eqn:E;
    [apply Z.gtb_lt in E; lia | reflexivity].
Qed.

(** X6. A redo that succeeds pushes the working image with
    [save_state], which clears the redo stack: after one redo a second
    one changes nothing, however many undos came before. *)
Theorem second_redo_does_nothing (self : editor) (p : Image) :
  processed_image self = Some p ->
  redo (redo self) = redo self
  /\ History.redo_stack (history_manager (redo self)) = []
  /\ History.can_redo Image (history_manager (redo self)) = false.
Proof.
  intros Hp. destruct self as [o q [h r m]]. simpl in *. subst q.
  destruct r as [|a r _] using rev_ind.
  - repeat split.
  - assert (redo (mkEditor o (Some p) (History.mkHistory h (r ++ [a]) m))
            = mkEditor o (Some a)
                (History.save_state (History.mkHistory h r m) (Some p)))
      as E.
    { unfold redo. cbn [original_image processed_image history_manager].
      rewrite redo_snoc. reflexivity. }
    rewrite E. unfold History.save_state.
    cbn [History.history History.redo_stack History.max_history].
    repeat split.
Qed.

End WithImage.

Arguments mkEditor {Image}.
Arguments original_image {Image}.
Arguments processed_image {Image}.
Arguments history_manager {Image}.
Arguments undo {Image}.
Arguments redo {Image}.
Arguments reset_image {Image}.
Arguments process_image {Image}.

End Editor.

(* ===================================================================== *)
(** ** Presets ([core/utils.py], class [PresetManager]) *)
(* ===================================================================== *)

Module Presets.

Section WithSettings.

(** The settings stored under a preset name (a JSON object). *)
Variable Settings : Type.

(** A Python [dict] with string keys: the items in insertion order,
    every key once. *)
Definition dict : Type := list (string * Settings).

(** [d.get(name, None)] *)
Fixpoint dict_get (name : string) (d : dict) : option Settings :=
  match d with
  | [] => None
  | (k, v) :: d' => if String.eqb k name then Some v else dict_get name d'
  end.

(** [d[name] = settings]: an existing key keeps its place. *)
Fixpoint dict_set (name : string) (settings : Settings) (d : dict) : dict :=
  match d with
  | [] => [(name, settings)]
  | (k, v) :: d' =>
      if String.eqb k name then (k, settings) :: d'
      else (k, v) :: dict_set name settings d'
  end.

(** [del d[name]] for a key that is present. *)
Fixpoint dict_del (name : string) (d : dict) : dict :=
  match d with
  | [] => []
  | (k, v) :: d' =>
      if String.eqb k name then d' else (k, v) :: dict_del name d'
  end.

(** [name in d] *)
Definition dict_mem (name : string) (d : dict) : bool :=
  match dict_get name d with Some _ => true | None => false end.

(** [list(d.keys())] *)
Definition dict_keys (d : dict) : list string := map fst d.

(** The preset file: absent, present but not readable as JSON, or
    holding the dictionary that [json.dump] wrote. *)
Inductive file :=
| Missing
| Unreadable
| Holds (d : dict).

(** The manager with the file it works on. *)
Record manager := mkManager {
  presets : dict;
  preset_file : file
}.

(** [load_presets] *)
Definition load_presets (f : file) : dict :=
  match f with
  | Holds d => d
  | Missing => []
  | Unreadable => []
  end.

(** [__init__] *)
Definition init (f : file) : manager := mkManager (load_presets f) f.

(** [save_presets]; [writable] tells whether opening the file for
    writing succeeds.  The answer is the returned boolean. *)
Definition save_presets (writable : bool) (self : manager) : manager * bool :=
  if writable then (mkManager (presets self) (Holds (presets self)), true)
  else (self, false).

(** [add_preset] *)
Definition add_preset (writable : bool) (name : string) (settings : Settings)
  (self : manager) : manager :=
  fst (save_presets writable
         (mkManager (dict_set name settings (presets self))
            (preset_file self))).

(** [delete_preset] *)
Definition delete_preset (writable : bool) (name : string) (self : manager)
  : manager * bool :=
  if dict_mem name (presets self) then
    (fst (save_presets writable
            (mkManager (dict_del name (presets self)) (preset_file self))),
     true)
  else (self, false).

(** [get_preset] *)
Definition get_preset (name : string) (self : manager) : option Settings :=
  dict_get name (presets self).

(** [get_all_presets] *)
Definition get_all_presets (self : manager) : list string :=
  dict_keys (presets self).

(** Every key once. *)
Definition unique_keys (d : dict) : Prop := NoDup (dict_keys d).

Lemma dict_get_set_same name settings d :
  dict_get name (dict_set name settings d) = Some settings.
Proof.
  induction d as [|[k v] d IH]; simpl.
  - rewrite String.eqb_refl. reflexivity.
  - destruct (String.eqb k name) eqn:E; simpl; rewrite E; auto.
Qed.

Lemma dict_get_set_other name name' settings d :
  name' <> name ->
  dict_get name' (dict_set name settings d) = dict_get name' d.
Proof.
  intros Hne. induction d as [|[k v] d IH]; simpl.
  - destruct (String.eqb name name') eqn:E; [|reflexivity].
    apply String.eqb_eq in E. congruence.
  - destruct (String.eqb k name) eqn:E; simpl.
    + apply String.eqb_eq in E. subst k.
      destruct (String.eqb name name') eqn:E'; [|reflexivity].
      apply String.eqb_eq in E'. congruence.
    + destruct (String.eqb k name'); [reflexivity | exact IH].
Qed.

Lemma dict_get_None_keys name d :
  dict_get name d = None <-> ~ In name (dict_keys d).
Proof.
  induction d as [|[k v] d IH]; simpl.
  - tauto.
  - destruct (String.eqb k name) eqn:E.
    + apply String.eqb_eq in E. split; [discriminate | tauto].
    + apply String.eqb_neq in E. rewrite IH. tauto.
Qed.

Lemma dict_keys_set name settings d :
  dict_keys (dict_set name settings d)
  = if dict_mem name d then dict_keys d else dict_keys d ++ [name].
Proof.
  unfold dict_mem. induction d as [|[k v] d IH]; simpl.
  - reflexivity.
  - destruct (String.eqb k name) eqn:E; simpl.
    + reflexivity.
    + rewrite IH. destruct (dict_get name d); reflexivity.
Qed.

Lemma dict_keys_del_incl name d k :
  In k (dict_keys (dict_del name d)) -> In k (dict_keys d).
Proof.
  induction d as [|[k' v] d IH]; simpl; [tauto|].
  destruct (String.eqb k' name); simpl; tauto.
Qed.

Lemma dict_del_unique name d :
  unique_keys d -> unique_keys (dict_del name d).
Proof.
  unfold unique_keys. induction d as [|[k v] d IH]; simpl; intros H.
  - constructor.
  - apply NoDup_cons in H. destruct H as [Hk Hd].
    destruct (String.eqb k name); [exact Hd|].
    simpl. apply NoDup_cons. split; [|apply IH; exact Hd].
    intros Hin. apply Hk. apply list_elem_of_In.
    apply (dict_keys_del_incl name). apply list_elem_of_In. exact Hin.
Qed.

Lemma dict_set_unique name settings d :
  unique_keys d -> unique_keys (dict_set name settings d).
Proof.
  unfold unique_keys. intros H. rewrite dict_keys_set.
  destruct (dict_mem name d) eqn:E; [exact H|].
  apply NoDup_app. split; [exact H|]. split.
  - intros x Hx Hx'. apply list_elem_of_In in Hx'. simpl in Hx'.
    destruct Hx' as [<-|[]]. unfold dict_mem in E.
    destruct (dict_get name d) eqn:Eg; [discriminate|].
    apply dict_get_None_keys in Eg. apply Eg.
    apply list_elem_of_In. exact Hx.
  - apply NoDup_singleton.
Qed.

Lemma dict_get_del_same name d :
  unique_keys d -> dict_get name (dict_del name d) = None.
Proof.
  unfold unique_keys. induction d as [|[k v] d IH]; simpl; intros H.
  - reflexivity.
  - apply NoDup_cons in H. destruct H as [Hk Hd].
    destruct (String.eqb k name) eqn:E.
    + apply String.eqb_eq in E. subst k. apply dict_get_None_keys.
      intros Hin. apply Hk. apply list_elem_of_In. exact Hin.
    + simpl. rewrite E. apply IH. exact Hd.
Qed.

Lemma dict_get_del_other name name' d :
  name' <> name -> dict_get name' (dict_del name d) = dict_get name' d.
Proof.
  intros Hne. induction d as [|[k v] d IH]; simpl.
  - reflexivity.
  - destruct (String.eqb k name) eqn:E.
    + apply String.eqb_eq in E. subst k.
      destruct (String.eqb name name') eqn:E'; [|reflexivity].
      apply String.eqb_eq in E'. congruence.
    + simpl. destruct (String.eqb k name'); [reflexivity | exact IH].
Qed.

Lemma presets_save writable self :
  presets (fst (save_presets writable self)) = presets self.
Proof. unfold save_presets. destruct writable; reflexivity. Qed.

(** X7. After [add_preset(name, settings)], [get_preset(name)]
    returns [settings]; every other name gives what it gave before. *)
Theorem preset_add_then_get
  (writable : bool) (name name' : string) (settings : Settings)
  (self : manager) :
  get_preset name (add_preset writable name settings self) = Some settings
  /\ (name' <> name ->
      get_preset name' (add_preset writable name settings self)
      = get_preset name' self).
Proof.
  unfold get_preset, add_preset. rewrite presets_save. simpl. split.
  - apply dict_get_set_same.
  - intros H. apply dict_get_set_other. exact H.
Qed.

(** X8. [delete_preset(name)] returns [True] exactly when the name was
    present; afterwards [get_preset(name)] is [None], and every other
    name gives what it gave before. *)
Theorem preset_delete
  (writable : bool) (name name' : string) (self : manager) :
  unique_keys (presets self) ->
  (snd (delete_preset writable name self) = true
   <-> exists settings, get_preset name self = Some settings)
  /\ get_preset name (fst (delete_preset writable name self)) = None
  /\ (name' <> name ->
      get_preset name' (fst (delete_preset writable name self))
      = get_preset name' self).
Proof.
  intros Hu. unfold get_preset, delete_preset, dict_mem.
  destruct (dict_get name (presets self)) as [v|] eqn:E; simpl.
  - rewrite presets_save. simpl. split; [|split].
    + split; [eauto | reflexivity].
    + apply dict_get_del_same. exact Hu.
    + intros H. apply dict_get_del_other. exact H.
  - split; [|split].
    + split; [discriminate | intros [v H]; discriminate].
    + exact E.
    + reflexivity.
Qed.

(** X9. [get_all_presets()] lists exactly the names [get_preset]
    knows, each once; adding a new name puts it last, adding a known
    name keeps the order, and deleting keeps every name once. *)
Theorem preset_names
  (writable : bool) (name : string) (settings : Settings) (self : manager) :
  unique_keys (presets self) ->
  (In name (get_all_presets self) <-> get_preset name self <> None)
  /\ get_all_presets (add_preset writable name settings self)
     = (if dict_mem name (presets self) then get_all_presets self
        else get_all_presets self ++ [name])
  /\ NoDup (get_all_presets (add_preset writable name settings self))
  /\ NoDup (get_all_presets (fst (delete_preset writable name self)))
  /\ ~ In name (get_all_presets (fst (delete_preset writable name self))).
Proof.
  intros Hu. unfold get_all_presets, get_preset.
  split; [|split; [|split; [|split]]].
  - pose proof (dict_get_None_keys name (presets self)) as H.
    destruct (dict_get name (presets self)) as [v|].
    + split; [discriminate|]. intros _.
      destruct (List.in_dec String.string_dec name
                  (dict_keys (presets self))) as [Hin|Hn]; [exact Hin|].
      apply H in Hn. discriminate.
    + split; [|congruence]. intros Hin. exfalso.
      apply (proj1 H eq_refl). exact Hin.
  - unfold add_preset. rewrite presets_save. simpl. apply dict_keys_set.
  - unfold add_preset. rewrite presets_save. simpl.
    apply dict_set_unique. exact Hu.
  - unfold delete_preset. destruct (dict_mem name (presets self)); simpl.
    + rewrite presets_save. simpl. apply dict_del_unique. exact Hu.
    + exact Hu.
  - unfold delete_preset, dict_mem.
    destruct (dict_get name (presets self)) eqn:E; simpl.
    + rewrite presets_save. simpl. apply dict_get_None_keys.
      apply dict_get_del_same. exact Hu.
    + apply dict_get_None_keys. exact E.
Qed.


End WithSettings.

End Presets.

(* ===================================================================== *)
(** ** More of the text detector ([core/text_detector.py]) *)
(* ===================================================================== *)

Module TextMore.

Import TextDetector.

(** An entry of the list [get_detected_text] returns: the dict with
    keys ['text'], ['confidence'], ['box']. *)
Record detected_entry := mkEntry {
  e_text : string;
  e_confidence : Z;
  e_box : box
}.

Definition row_box (row : ocr_row) : box :=
  (ocr_left row, ocr_top row, ocr_width row, ocr_height row).

(** One turn of the loop of [get_detected_text]. *)
Definition entry_of (confidence_threshold : Z) (row : ocr_row)
  : option detected_entry :=
  let text := PyStr.strip (ocr_text row) in
  if PyStr.is_empty text then None
  else
    match ocr_conf row with
    | None => None
    | Some conf =>
        if conf >? confidence_threshold
        then Some (mkEntry text conf (row_box row))
        else None
    end.

(** [get_detected_text(image, confidence_threshold)]; the arguments
    stand for the same things as in [detect_specific_word]. *)
Definition get_detected_text (tesseract_available : bool)
  (image : option (Z * Z)) (ocr : option (list ocr_row))
  (confidence_threshold : Z) : list detected_entry :=
  if negb tesseract_available then []
  else
    match image with
    | None => []
    | Some _ =>
        match ocr with
        | None => []
        | Some data => omap (entry_of confidence_threshold) data
        end
    end.

(** One turn of the loop of [detect_all_text]. *)
Definition region_of (confidence_threshold : Z) (row : ocr_row)
  : option box :=
  let text := PyStr.strip (ocr_text row) in
  if PyStr.is_empty text then None
  else
    match ocr_conf row with
    | None => None
    | Some conf =>
        if conf >? confidence_threshold then
          if (ocr_width row >? 10) && (ocr_height row >? 10)
          then Some (row_box row) else None
        else None
    end.

(** [detect_all_text(image, confidence_threshold)] *)
Definition detect_all_text (tesseract_available : bool)
  (image : option (Z * Z)) (ocr : option (list ocr_row))
  (confidence_threshold : Z) : list box :=
  if negb tesseract_available then []
  else
    match image with
    | None => []
    | Some _ =>
        match ocr with
        | None => []
        | Some data => omap (region_of confidence_threshold) data
        end
    end.

(** [detect_multiple_words(image, word_list, confidence_threshold)]:
    the dictionary [results]. *)
Definition detect_multiple_words (tesseract_available : bool)
  (image : option (Z * Z)) (ocr : option (list ocr_row))
  (word_list : list string) (confidence_threshold : Z)
  : gmap string (list box) :=
  fold_left
    (fun results word =>
       let regions :=
         detect_specific_word tesseract_available image ocr word
           confidence_threshold false false in
       match regions with
       | [] => results
       | _ :: _ => <[word := regions]> results
       end)
    word_list ∅.

(** A string of white space only (or empty). *)
Fixpoint blank (s : string) : bool :=
  match s with
  | EmptyString => true
  | String c s' => PyStr.is_space c && blank s'
  end.

(** Box [r] covers box [b]. *)
Definition covers (r b : box) : Prop :=
  let '(rx, ry, rw, rh) := r in
  let '(bx, b_y, bw, bh) := b in
  rx <= bx /\ ry <= b_y /\ bx + bw <= rx + rw /\ b_y + bh <= ry + rh.

(** A box of non-negative size inside an image. *)
Definition inside (img_w img_h : Z) (b : box) : Prop :=
  let '(x, y, w, h) := b in
  0 <= x /\ 0 <= y /\ 0 <= w /\ 0 <= h /\ x + w <= img_w /\ y + h <= img_h.

Definition big_enough (b : box) : Prop :=
  let '(x, y, w, h) := b in 5 < w /\ 5 < h.

(** Some region of the list covers the box of [m]. *)
Definition covered (regions : list box) (m : matched) : Prop :=
  exists r, In r regions /\ covers r (m_box m).

Definition wide_entry (e : detected_entry) : bool :=
  let '(x, y, w, h) := e_box e in (w >? 10) && (h >? 10).

(** *** Lists *)

Lemma omap_sublist {A B : Type} (f g : A -> option B) (l : list A) :
  (forall a b, f a = Some b -> g a = Some b) ->
  sublist (omap f l) (omap g l).
Proof.
  intros H. induction l as [|a l IH]; simpl.
  - constructor.
  - destruct (f a) as [b|] eqn:E.
    + rewrite (H a b E). constructor. exact IH.
    + destruct (g a); [constructor|]; exact IH.
Qed.

Lemma omap_length_le {A B : Type} (f : A -> option B) (l : list A) :
  (length (omap f l) <= length l)%nat.
Proof.
  induction l as [|a l IH]; [simpl; lia|].
  change (omap f (a :: l))
    with (match f a with Some y => y :: omap f l | None => omap f l end).
  destruct (f a); cbn [length]; lia.
Qed.

Lemma omap_in {A B : Type} (f : A -> option B) (l : list A) (b : B) :
  In b (omap f l) <-> exists a, In a l /\ f a = Some b.
Proof.
  induction l as [|a l IH]; simpl.
  - split; [tauto | intros [a [[] _]]].
  - destruct (f a) as [b'|] eqn:E; simpl; rewrite IH; split.
    + intros [<-|[a' [H1 H2]]]; eauto.
    + intros [a' [[<-|H1] H2]]; [left; congruence | eauto].
    + intros [a' [H1 H2]]; eauto.
    + intros [a' [[<-|H1] H2]]; [congruence | eauto].
Qed.

(** *** Sorting keeps the members *)

Lemma insert_by_key_in m m' l :
  In m' (insert_by_key m l) <-> m' = m \/ In m' l.
Proof.
  induction l as [|a l IH]; simpl.
  - intuition.
  - destruct (key_lt (sort_key a) (sort_key m)); simpl; [rewrite IH|];
      intuition.
Qed.

Lemma sorted_in m l : In m (sorted l) <-> In m l.
Proof.
  unfold sorted. induction l as [|a l IH]; simpl.
  - tauto.
  - rewrite insert_by_key_in, IH. intuition.
Qed.

Lemma insert_by_key_length m l :
  length (insert_by_key m l) = S (length l).
Proof.
  induction l as [|a l IH]; simpl; [reflexivity|].
  destruct (key_lt _ _); simpl; [rewrite IH|]; reflexivity.
Qed.

Lemma sorted_length l : length (sorted l) = length l.
Proof.
  unfold sorted. induction l as [|a l IH]; simpl; [reflexivity|].
  rewrite insert_by_key_length, IH. reflexivity.
Qed.

(** *** What the loops keep *)

Lemma group_loop_Forall (P : box -> Prop) shape max_distance sorted_boxes :
  (forall group r, group_region shape group = Some r -> P r) ->
  forall todo i used regions,
    Forall P regions ->
    Forall P (group_loop shape max_distance sorted_boxes i todo used regions).
Proof.
  intros HP todo. induction todo as [|box1 todo IH]; intros i used regions Hr.
  - exact Hr.
  - cbn [group_loop]. destruct (bool_decide (i ∈ used)).
    + apply IH. exact Hr.
    + destruct (absorb _ _ _ _ _ _ _) as [group used'].
      apply IH. destruct (group_region shape group) as [r|] eqn:Er.
      * apply Forall_app. split; [exact Hr|].
        constructor; [|constructor]. apply (HP group). exact Er.
      * exact Hr.
Qed.

Lemma group_loop_length shape max_distance sorted_boxes :
  forall todo i used regions,
    (length (group_loop shape max_distance sorted_boxes i todo used regions)
     <= length regions + length todo)%nat.
Proof.
  intros todo. induction todo as [|box1 todo IH]; intros i used regions.
  - simpl. lia.
  - cbn [group_loop]. destruct (bool_decide (i ∈ used)).
    + specialize (IH (S i) used regions). cbn [length]. lia.
    + destruct (absorb _ _ _ _ _ _ _) as [group used'].
      destruct (group_region shape group) as [r|].
      * specialize (IH (S i) used' (regions ++ [r])).
        rewrite length_app in IH. cbn [length] in *. lia.
      * specialize (IH (S i) used' regions). cbn [length]. lia.
Qed.

Lemma pad_and_clamp_big padding shape b r :
  pad_and_clamp padding shape b = Some r -> big_enough r.
Proof.
  destruct shape as [img_h img_w]. destruct r as [[[x y] w] h].
  apply pad_and_clamp_size.
Qed.

Lemma group_region_big shape group r :
  group_region shape group = Some r -> big_enough r.
Proof.
  destruct group as [|first others]; [discriminate|].
  apply pad_and_clamp_big.
Qed.

(** *** Blank phrases *)

Lemma lstrip_blank s : blank s = true -> PyStr.lstrip s = EmptyString.
Proof.
  induction s as [|c s IH]; simpl; [reflexivity|].
  destruct (PyStr.is_space c); [exact IH | discriminate].
Qed.

Lemma strip_blank s : blank s = true -> PyStr.strip s = EmptyString.
Proof.
  intros H. unfold PyStr.strip. rewrite (lstrip_blank s H). reflexivity.
Qed.

(** *** Regions cover the matched words *)

Lemma covers_trans r u b : covers r u -> covers u b -> covers r b.
Proof.
  destruct r as [[[rx ry] rw] rh], u as [[[ux uy] uw] uh],
    b as [[[bx b_y] bw] bh]. unfold covers. lia.
Qed.

Lemma pad_and_clamp_covers padding img_h img_w b :
  6 <= padding -> 5 < img_w -> 5 < img_h ->
  inside img_w img_h b ->
  exists r, pad_and_clamp padding (img_h, img_w) b = Some r /\ covers r b.
Proof.
  intros Hp Hw Hh. destruct b as [[[x y] w] h]. unfold inside.
  intros (Hx & Hy & Hw0 & Hh0 & Hxw & Hyh). unfold pad_and_clamp.
  destruct (_ && _) eqn:E.
  - eexists. split; [reflexivity|]. unfold covers. lia.
  - exfalso. apply andb_false_iff in E.
    destruct E as [E|E]; rewrite Z.gtb_ltb in E; apply Z.ltb_ge in E; lia.
Qed.

Lemma union_box_inside img_w img_h first others :
  Forall (fun m => inside img_w img_h (m_box m)) (first :: others) ->
  inside img_w img_h (union_box first others)
  /\ Forall (fun m => covers (union_box first others) (m_box m))
       (first :: others).
Proof.
  intros Hin. pose proof (union_box_spec first others) as Hu.
  destruct (union_box first others) as [[[ux uy] uw] uh].
  destruct Hu as (Hall & [mx [Hmx Ex]] & [my [Hmy Ey]] & [mxe [Hmxe Exe]]
                  & [mye [Hmye Eye]]).
  rewrite List.Forall_forall in Hin, Hall.
  assert (forall m, In m (first :: others) ->
            0 <= box_x (m_box m) /\ 0 <= box_y (m_box m)
            /\ 0 <= box_w (m_box m) /\ 0 <= box_h (m_box m)
            /\ box_x (m_box m) + box_w (m_box m) <= img_w
            /\ box_y (m_box m) + box_h (m_box m) <= img_h) as Hin'.
  { intros m Hm. specialize (Hin m Hm). unfold inside in Hin.
    destruct (m_box m) as [[[x y] w] h]. exact Hin. }
  pose proof (Hin' mx Hmx). pose proof (Hin' my Hmy).
  pose proof (Hin' mxe Hmxe). pose proof (Hin' mye Hmye).
  pose proof (Hall first (or_introl eq_refl)).
  pose proof (Hin' first (or_introl eq_refl)).
  split.
  - unfold inside. lia.
  - apply List.Forall_forall. intros m Hm.
    specialize (Hall m Hm). unfold covers.
    unfold box_x, box_y, box_w, box_h in Hall.
    destruct (m_box m) as [[[x y] w] h]. lia.
Qed.

Lemma group_region_covers img_h img_w first others :
  5 < img_w -> 5 < img_h ->
  Forall (fun m => inside img_w img_h (m_box m)) (first :: others) ->
  exists r,
    group_region (img_h, img_w) (first :: others) = Some r
    /\ Forall (fun m => covers r (m_box m)) (first :: others).
Proof.
  intros Hw Hh Hin.
  destruct (union_box_inside img_w img_h first others Hin) as [Hu Hc].
  destruct (pad_and_clamp_covers 10 img_h img_w _ ltac:(lia) Hw Hh Hu)
    as [r [Er Hr]].
  exists r. split; [exact Er|].
  eapply Forall_impl; [exact Hc|]. intros m Hm.
  eapply covers_trans; eassumption.
Qed.

Lemma covered_app regions extra m :
  covered regions m -> covered (regions ++ extra) m.
Proof.
  intros [r [Hin Hc]]. exists r. split; [|exact Hc].
  apply List.in_or_app. auto.
Qed.

Lemma group_loop_covers img_h img_w max_distance sorted_boxes :
  5 < img_w -> 5 < img_h ->
  Forall (fun m => inside img_w img_h (m_box m)) sorted_boxes ->
  forall todo i used regions,
    (forall k b, todo !! k = Some b -> sorted_boxes !! (i + k)%nat = Some b) ->
    (forall j b, sorted_boxes !! j = Some b -> j ∈ used -> covered regions b) ->
    (forall b, In b todo ->
       covered (group_loop (img_h, img_w) max_distance sorted_boxes i todo
                  used regions) b)
    /\ (forall b, covered regions b ->
          covered (group_loop (img_h, img_w) max_distance sorted_boxes i todo
                     used regions) b).
Proof.
  intros Hw Hh Hall todo.
  induction todo as [|box1 todo IH]; intros i used regions Htodo Hinv.
  - split; [intros b [] | auto].
  - assert (sorted_boxes !! i = Some box1) as Hi.
    { specialize (Htodo 0%nat box1 eq_refl).
      replace (i + 0)%nat with i in Htodo by lia. exact Htodo. }
    assert (forall k b, todo !! k = Some b ->
              sorted_boxes !! (S i + k)%nat = Some b) as Htodo'.
    { intros k b Hk. specialize (Htodo (S k) b Hk).
      replace (i + S k)%nat with (S i + k)%nat in Htodo by lia.
      exact Htodo. }
    cbn [group_loop]. destruct (bool_decide (i ∈ used)) eqn:Eu.
    + apply bool_decide_eq_true in Eu.
      destruct (IH (S i) used regions Htodo' Hinv) as [IH1 IH2].
      split; [|exact IH2].
      intros b [<-|Hb]; [|apply IH1; exact Hb].
      apply IH2. apply (Hinv i); assumption.
    + rewrite absorb_spec.
      set (F := List.filter (taken max_distance i (m_box box1) (used ∪ {[i]}))
                  (enumerate_from 0 sorted_boxes)).
      assert (forall j b, In (j, b) F -> sorted_boxes !! j = Some b) as HF.
      { intros j b Hjb. apply List.filter_In in Hjb. destruct Hjb as [Hjb _].
        apply enumerate_from_lookup in Hjb. destruct Hjb as [_ Hjb].
        replace (j - 0)%nat with j in Hjb by lia. exact Hjb. }
      assert (Forall (fun m => inside img_w img_h (m_box m))
                (box1 :: map snd F)) as Hgroup.
      { rewrite List.Forall_forall in *. intros m [<-|Hm].
        - apply Hall. apply list_elem_of_In.
          apply (list_elem_of_lookup_2 _ i). exact Hi.
        - apply List.in_map_iff in Hm. destruct Hm as [[j b] [<- Hjb]].
          apply Hall. apply list_elem_of_In.
          apply (list_elem_of_lookup_2 _ j). apply HF. exact Hjb. }
      destruct (group_region_covers img_h img_w box1 (map snd F) Hw Hh Hgroup)
        as [r [Er Hr]].
      change ([box1] ++ map snd F) with (box1 :: map snd F).
      rewrite Er.
      assert (forall j b, sorted_boxes !! j = Some b ->
                j ∈ used ∪ {[i]} ∪ list_to_set (map fst F) ->
                covered (regions ++ [r]) b) as Hinv'.
      { intros j b Hj Hju. rewrite List.Forall_forall in Hr.
        apply elem_of_union in Hju. destruct Hju as [Hju|Hju].
        - apply elem_of_union in Hju. destruct Hju as [Hju|Hju].
          + apply covered_app. apply (Hinv j); assumption.
          + apply elem_of_singleton in Hju. subst j.
            assert (b = box1) as -> by congruence.
            exists r. split; [apply List.in_or_app; right; left; reflexivity|].
            apply Hr. left. reflexivity.
        - apply elem_of_list_to_set in Hju. apply list_elem_of_In in Hju.
          apply List.in_map_iff in Hju. destruct Hju as [[j' b'] [Ej Hjb]].
          simpl in Ej. subst j'.
          assert (b' = b) as -> by (apply HF in Hjb; congruence).
          exists r. split; [apply List.in_or_app; right; left; reflexivity|].
          apply Hr. right. apply List.in_map_iff. exists (j, b). auto. }
      destruct (IH (S i) _ (regions ++ [r]) Htodo' Hinv') as [IH1 IH2].
      split.
      * intros b [<-|Hb]; [|apply IH1; exact Hb].
        apply IH2. apply (Hinv' i); [exact Hi|].
        apply elem_of_union. left. apply elem_of_union. right.
        apply elem_of_singleton. reflexivity.
      * intros b Hb. apply IH2. apply covered_app. exact Hb.
Qed.

Lemma matched_from_rows data target_word threshold cs ex m :
  In m (matched_boxes_of data target_word threshold cs ex) ->
  exists row, In row data /\ m_box m = row_box row.
Proof.
  unfold matched_boxes_of. intros H. apply omap_in in H.
  destruct H as [row [Hrow Hm]]. exists row. split; [exact Hrow|].
  unfold match_row in Hm.
  destruct (PyStr.is_empty _); [discriminate|].
  destruct (ocr_conf row) as [conf|]; [|discriminate].
  destruct (conf <? threshold); [discriminate|].
  destruct (match_found _ _ _ _); [|discriminate].
  injection Hm as <-. reflexivity.
Qed.

(** *** The dictionary of [detect_multiple_words] *)

Lemma fold_words_miss (f : string -> list box) (words : list string)
  (w : string) :
  ~ (In w words /\ f w <> []) ->
  forall acc : gmap string (list box),
    fold_left (fun results word =>
                 match f word with
                 | [] => results
                 | _ :: _ => <[word := f word]> results
                 end) words acc !! w
    = acc !! w.
Proof.
  induction words as [|a l IH]; intros Hn acc; simpl; [reflexivity|].
  rewrite IH by (intros [H1 H2]; apply Hn; simpl; auto).
  destruct (f a) as [|r rs] eqn:E; [reflexivity|].
  apply lookup_insert_ne. intros ->. apply Hn. split; [left; reflexivity|].
  rewrite E. discriminate.
Qed.

Lemma fold_words_hit (f : string -> list box) (words : list string)
  (w : string) :
  In w words -> f w <> [] ->
  forall acc : gmap string (list box),
    fold_left (fun results word =>
                 match f word with
                 | [] => results
                 | _ :: _ => <[word := f word]> results
                 end) words acc !! w
    = Some (f w).
Proof.
  induction words as [|a l IH]; intros Hin Hf acc; simpl; [destruct Hin|].
  destruct (List.in_dec String.string_dec w l) as [Hl|Hl].
  - apply IH; assumption.
  - destruct Hin as [->|Hin]; [|contradiction].
    rewrite fold_words_miss by tauto.
    destruct (f w) as [|r rs] eqn:E; [congruence|].
    apply lookup_insert_eq.
Qed.

Lemma region_of_entry threshold row :
  region_of threshold row
  = match entry_of threshold row with
    | Some e => if wide_entry e then Some (e_box e) else None
    | None => None
    end.
Proof.
  unfold region_of, entry_of.
  destruct (PyStr.is_empty _); [reflexivity|].
  destruct (ocr_conf row) as [conf|]; [|reflexivity].
  destruct (conf >? threshold); reflexivity.
Qed.

(** *** Properties *)

(** X11. [detect_all_text] returns the boxes of the entries that
    [get_detected_text] returns for the same OCR answer, less those not
    more than 10 wide or high; every entry has a confidence strictly
    above the threshold and the box of one of the OCR rows. *)
Theorem detect_all_text_from_entries
  (tesseract_available : bool) (image : option (Z * Z))
  (ocr : option (list ocr_row)) (threshold : Z) :
  detect_all_text tesseract_available image ocr threshold
  = map e_box
      (List.filter wide_entry
         (get_detected_text tesseract_available image ocr threshold))
  /\ Forall (fun e =>
               threshold < e_confidence e
               /\ e_text e <> EmptyString
               /\ exists row, In row (default [] ocr) /\ e_box e = row_box row)
       (get_detected_text tesseract_available image ocr threshold).
Proof.
  unfold detect_all_text, get_detected_text.
  destruct (negb tesseract_available); [split; [reflexivity | constructor]|].
  destruct image as [shape|]; [|split; [reflexivity | constructor]].
  destruct ocr as [data|]; [|split; [reflexivity | constructor]].
  split.
  - induction data as [|row data IH]; [reflexivity|].
    change (omap (region_of threshold) (row :: data))
      with (match region_of threshold row with
            | Some y => y :: omap (region_of threshold) data
            | None => omap (region_of threshold) data
            end).
    change (omap (entry_of threshold) (row :: data))
      with (match entry_of threshold row with
            | Some y => y :: omap (entry_of threshold) data
            | None => omap (entry_of threshold) data
            end).
    rewrite IH, region_of_entry.
    destruct (entry_of threshold row) as [e|]; [|reflexivity].
    cbn [List.filter]. destruct (wide_entry e); reflexivity.
  - simpl. apply List.Forall_forall. intros e He. apply omap_in in He.
    destruct He as [row [Hrow He]]. unfold entry_of in He.
    destruct (PyStr.strip (ocr_text row)) as [|c t] eqn:Es; [discriminate|].
    simpl in He. destruct (ocr_conf row) as [conf|]; [|discriminate].
    destruct (conf >? threshold) eqn:Ec; [|discriminate].
    injection He as <-. simpl. apply Z.gtb_lt in Ec.
    split; [lia|]. split; [discriminate|]. eauto.
Qed.

(** X12. The dictionary of [detect_multiple_words] has a word as key
    exactly when the word is in the list and [detect_specific_word]
    finds regions for it; the value is then those regions. *)
Theorem detect_multiple_words_lookup
  (tesseract_available : bool) (image : option (Z * Z))
  (ocr : option (list ocr_row)) (word_list : list string) (threshold : Z)
  (word : string) (regions : list box) :
  detect_multiple_words tesseract_available image ocr word_list threshold
    !! word = Some regions
  <-> In word word_list
      /\ regions = detect_specific_word tesseract_available image ocr word
                     threshold false false
      /\ regions <> [].
Proof.
  unfold detect_multiple_words.
  set (f := fun w => detect_specific_word tesseract_available image ocr w
                       threshold false false).
  change (detect_specific_word tesseract_available image ocr word threshold
            false false) with (f word).
  destruct (List.in_dec String.string_dec word word_list) as [Hin|Hin].
  - destruct (f word) as [|r rs] eqn:E.
    + rewrite (fold_words_miss f) by (rewrite E; tauto).
      rewrite lookup_empty. split; [discriminate|].
      intros (_ & -> & H). congruence.
    + rewrite (fold_words_hit f) by (rewrite ?E; auto; discriminate).
      rewrite E. split.
      * intros H. injection H as <-. split; [exact Hin|].
        split; [reflexivity | discriminate].
      * intros (_ & -> & _). reflexivity.
  - rewrite (fold_words_miss f) by tauto.
    rewrite lookup_empty. split; [discriminate | tauto].
Qed.

(** X13. A phrase that is empty or all white space gives no region,
    whatever the OCR answers; so does an OCR answer without rows. *)
Theorem blank_phrase_gives_nothing
  (tesseract_available : bool) (image : option (Z * Z))
  (ocr : option (list ocr_row)) (target_word : string) (threshold : Z)
  (case_sensitive exact_match : bool) :
  (blank target_word = true ->
   detect_specific_word tesseract_available image ocr target_word threshold
     case_sensitive exact_match = [])
  /\ detect_specific_word tesseract_available image (Some []) target_word
       threshold case_sensitive exact_match = [].
Proof.
  unfold detect_specific_word. split.
  - intros Hb. destruct (negb tesseract_available); [reflexivity|].
    destruct image; [|reflexivity].
    rewrite (strip_blank _ Hb). rewrite orb_true_r. reflexivity.
  - destruct (negb tesseract_available); [reflexivity|].
    destruct image; [|reflexivity].
    destruct (_ || _); reflexivity.
Qed.

(** X14. Every region [detect_specific_word] returns is more than 5
    wide and more than 5 high; on an image that is at most 5 wide or at
    most 5 high it returns nothing. *)
Theorem regions_are_not_degenerate
  (tesseract_available : bool) (img_h img_w : Z)
  (ocr : option (list ocr_row)) (target_word : string) (threshold : Z)
  (case_sensitive exact_match : bool) :
  Forall big_enough
    (detect_specific_word tesseract_available (Some (img_h, img_w)) ocr
       target_word threshold case_sensitive exact_match)
  /\ (img_w <= 5 \/ img_h <= 5 ->
      detect_specific_word tesseract_available (Some (img_h, img_w)) ocr
        target_word threshold case_sensitive exact_match = []).
Proof.
  assert (Forall big_enough
            (detect_specific_word tesseract_available (Some (img_h, img_w))
               ocr target_word threshold case_sensitive exact_match)) as Hbig.
  { unfold detect_specific_word.
    destruct (negb tesseract_available); [constructor|].
    destruct (_ || _); [constructor|].
    destruct ocr as [data|]; [|constructor].
    destruct (_ && _).
    - unfold _group_nearby_boxes.
      destruct (matched_boxes_of _ _ _ _ _) as [|m l]; [constructor|].
      apply group_loop_Forall; [|constructor].
      intros group r. apply group_region_big.
    - apply List.Forall_forall. intros r Hr. apply omap_in in Hr.
      destruct Hr as [m [_ Hm]]. eapply pad_and_clamp_big. exact Hm. }
  split; [exact Hbig|]. intros Hsmall.
  pose proof (detect_specific_word_in_bounds tesseract_available img_h img_w
                ocr target_word threshold case_sensitive exact_match) as Hin.
  destruct (detect_specific_word _ _ _ _ _ _ _) as [|r rs]; [reflexivity|].
  exfalso. inversion Hbig as [|? ? Hb _]. inversion Hin as [|? ? Hi _].
  subst. destruct r as [[[x y] w] h]. unfold big_enough in Hb.
  unfold in_bounds in Hi. lia.
Qed.

(** X15. On an image more than 5 wide and 5 high whose OCR boxes lie
    inside it, every matched word is covered by one of the returned
    regions: no match is left outside the regions, in the grouped and in
    the ungrouped case. *)
Theorem matched_words_are_covered
  (img_h img_w : Z) (data : list ocr_row) (target_word : string)
  (threshold : Z) (case_sensitive exact_match : bool) (m : matched) :
  5 < img_w -> 5 < img_h ->
  PyStr.strip target_word <> EmptyString ->
  Forall (fun row => inside img_w img_h (row_box row)) data ->
  In m (matched_boxes_of data target_word threshold case_sensitive
          exact_match) ->
  covered
    (detect_specific_word true (Some (img_h, img_w)) (Some data) target_word
       threshold case_sensitive exact_match) m.
Proof.
  intros Hw Hh Hne Hdata Hm.
  assert (Forall (fun m => inside img_w img_h (m_box m))
            (matched_boxes_of data target_word threshold case_sensitive
               exact_match)) as Hall.
  { apply List.Forall_forall. intros m' Hm'.
    apply matched_from_rows in Hm'. destruct Hm' as [row [Hrow ->]].
    rewrite List.Forall_forall in Hdata. apply Hdata. exact Hrow. }
  unfold detect_specific_word. cbn [negb].
  assert (PyStr.is_empty target_word
          || PyStr.is_empty (PyStr.strip target_word) = false) as ->.
  { destruct target_word; [contradiction|].
    destruct (PyStr.strip _); [contradiction | reflexivity]. }
  destruct (_ && _).
  - unfold _group_nearby_boxes.
    destruct (matched_boxes_of data target_word threshold case_sensitive
                exact_match) as [|m0 l] eqn:E; [destruct Hm|].
    rewrite <- E in *.
    set (boxes := matched_boxes_of data target_word threshold case_sensitive
                    exact_match) in *.
    assert (Forall (fun m => inside img_w img_h (m_box m)) (sorted boxes))
      as Hsorted.
    { apply List.Forall_forall. intros m' Hm'.
      apply (proj1 (sorted_in _ _)) in Hm'.
      rewrite List.Forall_forall in Hall. apply Hall. exact Hm'. }
    destruct (group_loop_covers img_h img_w 50 (sorted boxes) Hw Hh Hsorted
                (sorted boxes) 0%nat ∅ []) as [Hcov _].
    + intros k b Hk. exact Hk.
    + intros j b _ Hj. apply elem_of_empty in Hj. destruct Hj.
    + apply Hcov. apply sorted_in. exact Hm.
  - rewrite List.Forall_forall in Hall.
    destruct (pad_and_clamp_covers 8 img_h img_w (m_box m) ltac:(lia) Hw Hh
                (Hall m Hm)) as [r [Er Hr]].
    exists r. split; [|exact Hr]. apply omap_in. exists m. auto.
Qed.

(** X16. [detect_specific_word] never returns more regions than there
    are matched words. *)
Theorem no_more_regions_than_matches
  (tesseract_available : bool) (image : option (Z * Z))
  (data : list ocr_row) (target_word : string) (threshold : Z)
  (case_sensitive exact_match : bool) :
  (length (detect_specific_word tesseract_available image (Some data)
             target_word threshold case_sensitive exact_match)
   <= length (matched_boxes_of data target_word threshold case_sensitive
                exact_match))%nat.
Proof.
  unfold detect_specific_word.
  destruct (negb tesseract_available); [simpl; lia|].
  destruct image as [shape|]; [|simpl; lia].
  destruct (_ || _); [simpl; lia|].
  destruct (_ && _).
  - unfold _group_nearby_boxes.
    destruct (matched_boxes_of data target_word threshold case_sensitive
                exact_match) as [|m0 l] eqn:E; [simpl; lia|].
    rewrite <- E.
    pose proof (group_loop_length shape 50
                  (sorted (matched_boxes_of data target_word threshold
                             case_sensitive exact_match))
                  (sorted (matched_boxes_of data target_word threshold
                             case_sensitive exact_match)) 0%nat ∅ []) as H.
    rewrite sorted_length in H. simpl in H. exact H.
  - apply omap_length_le.
Qed.

(** X17. Raising the confidence threshold never adds a matched word:
    the matches at the higher threshold are among those at the lower
    one, in the same order. *)
Theorem higher_threshold_fewer_matches
  (data : list ocr_row) (target_word : string) (t1 t2 : Z)
  (case_sensitive exact_match : bool) :
  t1 <= t2 ->
  sublist
    (matched_boxes_of data target_word t2 case_sensitive exact_match)
    (matched_boxes_of data target_word t1 case_sensitive exact_match).
Proof.
  intros Ht. unfold matched_boxes_of. apply omap_sublist.
  intros row m. unfold match_row.
  destruct (PyStr.is_empty _); [discriminate|].
  destruct (ocr_conf row) as [conf|]; [|discriminate].
  destruct (conf <? t2) eqn:E2; [discriminate|].
  apply Z.ltb_ge in E2.
  destruct (conf <? t1) eqn:E1; [apply Z.ltb_lt in E1; lia|].
  auto.
Qed.

End TextMore.

(* ===================================================================== *)
(** ** More effects ([core/image_processor.py]) and their use on the
       working image ([gui/main_window.py], [apply_effect_to_region]) *)
(* ===================================================================== *)

Module Effects.

Import ImageProcessor.

Definition black : pixel := (0, 0, 0).

(** The kernel size [gaussian_blur] passes on: [strength], plus one
    when it is even. *)
Definition blur_kernel (strength : Z) : Z :=
  if strength mod 2 =? 0 then strength + 1 else strength.

(** [gaussian_blur(image, x, y, w, h, strength)] *)
Definition gaussian_blur (GaussianBlur : image -> Z -> exn + image)
  (img : image) (x y w h strength : Z) : exn + image :=
  GaussianBlur (crop img x y w h) (blur_kernel strength).

(** [cv2.rectangle(img, (x1, y1), (x2, y2), color, -1)]: the filled
    rectangle between the two corners, both included, as far as it lies
    in the image. *)
Definition fill_rect (img : image) (x1 y1 x2 y2 : Z) (color : pixel)
  : image :=
  imap (fun r row =>
          imap (fun c p =>
                  if (Z.min y1 y2 <=? Z.of_nat r) && (Z.of_nat r <=? Z.max y1 y2)
                     && (Z.min x1 x2 <=? Z.of_nat c)
                     && (Z.of_nat c <=? Z.max x1 x2)
                  then color else p)
               row)
       img.

(** [black_bar(image, x, y, w, h)] *)
Definition black_bar (img : image) (x y w h : Z) : image :=
  crop (fill_rect img x y (x + w) (y + h) black) x y w h.

(** [range(0, stop, step)] for a positive [step]. *)
Fixpoint range_from (fuel : nat) (i stop step : Z) : list Z :=
  match fuel with
  | O => []
  | S fuel' =>
      if i <? stop then i :: range_from fuel' (i + step) stop step else []
  end.

Definition py_range (stop step : Z) : list Z :=
  range_from (Z.to_nat stop) 0 stop step.

(** [tile.mean(axis=(0, 1)).astype(np.uint8)] of a tile that is not
    empty: per channel, the sum over the count, fraction dropped. *)
Definition channel_sum (c : nat) (pixels : list pixel) : Z :=
  fold_right Z.add 0 (map (channel c) pixels).

Definition tile_mean (tile : image) : pixel :=
  let pixels := concat tile in
  let n := Z.of_nat (length pixels) in
  (channel_sum 0 pixels / n, channel_sum 1 pixels / n,
   channel_sum 2 pixels / n).

(** [result[i:i+tile_size, j:j+tile_size] = color] for [i, j >= 0]. *)
Definition fill_block (result : image) (i j tile_size : Z) (color : pixel)
  : image :=
  imap (fun r row =>
          imap (fun c p =>
                  if (i <=? Z.of_nat r) && (Z.of_nat r <? i + tile_size)
                     && (j <=? Z.of_nat c) && (Z.of_nat c <? j + tile_size)
                  then color else p)
               row)
       result.

(** One turn of the inner loop of [mosaic_effect]. *)
Definition mosaic_tile (region : image) (tile_size i : Z) (result : image)
  (j : Z) : image :=
  let tile := crop region j i tile_size tile_size in
  if Nat.ltb 0 (length (concat tile))
  then fill_block result i j tile_size (tile_mean tile)
  else result.

Definition range_error : exn := "range() arg 3 must not be zero".

(** [mosaic_effect(image, x, y, w, h, tile_size)] *)
Definition mosaic_effect (img : image) (x y w h tile_size : Z)
  : exn + image :=
  let region := crop img x y w h in
  let '(h_reg, w_reg) := shape2 region in
  if tile_size =? 0 then inl range_error
  else if tile_size <? 0 then inr region
  else
    inr (fold_left
           (fun result i =>
              fold_left (mosaic_tile region tile_size i)
                (py_range w_reg tile_size) result)
           (py_range h_reg tile_size) region).


(** [img[r, c]] for indexes inside the array. *)
Definition px (img : image) (r c : nat) : option pixel :=
  match img !! r with Some row => row !! c | None => None end.

(** The pixel ([r], [c]) lies in the block that [fill_block] fills. *)
Definition in_block (i j tile_size : Z) (r c : nat) : bool :=
  (i <=? Z.of_nat r) && (Z.of_nat r <? i + tile_size)
  && (j <=? Z.of_nat c) && (Z.of_nat c <? j + tile_size).

(** The start of the tile that holds index [k]. *)
Definition tile_start (tile_size : Z) (k : nat) : Z :=
  Z.of_nat k / tile_size * tile_size.


(** *** Slices *)

Lemma py_slice_nonneg {A : Type} (l : list A) (a b : Z) :
  0 <= a -> 0 <= b ->
  py_slice l a b = take (Z.to_nat (b - a)) (drop (Z.to_nat a) l).
Proof.
  intros Ha Hb. unfold py_slice, slice_index.
  destruct (a <? 0) eqn:Ea; [apply Z.ltb_lt in Ea; lia|].
  destruct (b <? 0) eqn:Eb; [apply Z.ltb_lt in Eb; lia|].
  set (n := Z.of_nat (length l)).
  destruct (Z_le_gt_dec n a) as [Hna|Hna].
  - rewrite !drop_ge by lia. rewrite !take_nil. reflexivity.
  - replace (Z.min a n) with a by lia.
    destruct (Z_le_gt_dec n b) as [Hnb|Hnb].
    + replace (Z.min b n) with n by lia.
      rewrite !take_ge; [reflexivity | |]; rewrite length_drop; lia.
    + replace (Z.min b n) with b by lia. reflexivity.
Qed.


(** *** Rounding to odd *)

Lemma blur_kernel_odd strength :
  Z.odd (blur_kernel strength) = true
  /\ strength <= blur_kernel strength <= strength + 1
  /\ (Z.odd strength = true -> blur_kernel strength = strength).
Proof.
  unfold blur_kernel. rewrite Zmod_odd.
  destruct (Z.odd strength) eqn:E; simpl.
  - repeat split; try lia. exact E.
  - split; [rewrite Z.odd_add, E; reflexivity|].
    split; [lia | discriminate].
Qed.

Lemma lookup_map {A B : Type} (f : A -> B) (l : list A) (i : nat) :
  map f l !! i = f <$> l !! i.
Proof.
  revert i. induction l as [|a l IH]; intros [|i]; simpl; auto.
Qed.

Lemma py_slice_map {A B : Type} (f : A -> B) (l : list A) (a b : Z) :
  py_slice (map f l) a b = map f (py_slice l a b).
Proof.
  unfold py_slice. rewrite length_map.
  rewrite <- firstn_map, <- skipn_map. reflexivity.
Qed.

(** The length of a slice depends on the length of the list only. *)
Lemma py_slice_length_eq {A B : Type} (l : list A) (k : list B) (a b : Z) :
  length l = length k ->
  length (py_slice l a b) = length (py_slice k a b).
Proof.
  intros H. unfold py_slice. rewrite !length_take, !length_drop, H.
  reflexivity.
Qed.

Lemma crop_same_shape (a b : image) (x y w h : Z) :
  map (@length pixel) a = map (@length pixel) b ->
  map (@length pixel) (crop a x y w h)
  = map (@length pixel) (crop b x y w h).
Proof.
  intros H.
  assert (Hs : forall img : image,
             map (@length pixel) (crop img x y w h)
             = map (fun n => length (py_slice (replicate n black) x (x + w)))
                 (py_slice (map (@length pixel) img) y (y + h))).
  { intros img. unfold crop. rewrite py_slice_map, !map_map.
    apply map_ext. intros row.
    apply py_slice_length_eq. rewrite length_replicate. reflexivity. }
  rewrite !Hs, H. reflexivity.
Qed.






(** X19. [gaussian_blur] hands the blur collaborator the box's slice of
    the image and a kernel size that is always odd: the strength itself
    when that is odd, the strength plus one when it is even. *)
Theorem gaussian_blur_kernel_is_odd
  (GaussianBlur : image -> Z -> exn + image) (img : image)
  (x y w h strength : Z) :
  exists k,
    gaussian_blur GaussianBlur img x y w h strength
    = GaussianBlur (crop img x y w h) k
    /\ Z.odd k = true
    /\ strength <= k <= strength + 1.
Proof.
  exists (blur_kernel strength). split; [reflexivity|].
  pose proof (blur_kernel_odd strength) as (H1 & H2 & _). auto.
Qed.

(** *** Pixels of a crop, of a filled block *)

Lemma crop_px (img : image) (x y w h : Z) (i j : nat) (q : pixel) :
  0 <= x -> 0 <= y ->
  px img (Z.to_nat y + i) (Z.to_nat x + j) = Some q ->
  Z.of_nat i < h -> Z.of_nat j < w ->
  px (crop img x y w h) i j = Some q.
Proof.
  intros Hx Hy Hq Hi Hj. unfold px, crop in *. unfold image in *.
  rewrite lookup_map, py_slice_nonneg by lia.
  rewrite lookup_take_lt by lia. rewrite lookup_drop.
  destruct (img !! (Z.to_nat y + i)%nat) as [row|]; [|discriminate].
  simpl. rewrite py_slice_nonneg by lia.
  rewrite lookup_take_lt by lia. rewrite lookup_drop. exact Hq.
Qed.

Lemma px_nonempty (tile : image) (a b : nat) (q : pixel) :
  px tile a b = Some q -> (0 < length (concat tile))%nat.
Proof.
  unfold px. intros H.
  destruct (tile !! a) as [row|] eqn:E; [|discriminate].
  apply list_elem_of_lookup_2, list_elem_of_In in E.
  apply list_elem_of_lookup_2, list_elem_of_In in H.
  assert (Hin : In q (concat tile)) by (apply in_concat; eauto).
  destruct (concat tile); [destruct Hin | simpl; lia].
Qed.

Lemma px_fill_block (res : image) (i j t : Z) (col : pixel) (r c : nat) :
  px (fill_block res i j t col) r c
  = match px res r c with
    | Some q => Some (if in_block i j t r c then col else q)
    | None => None
    end.
Proof.
  unfold px, fill_block, in_block. unfold image in *.
  rewrite list_lookup_imap.
  destruct (res !! r) as [row|]; simpl; [|reflexivity].
  rewrite list_lookup_imap.
  destruct (row !! c) as [q|]; reflexivity.
Qed.

Lemma fill_block_shape (res : image) (i j t : Z) (col : pixel) :
  map (@length pixel) (fill_block res i j t col) = map (@length pixel) res.
Proof.
  unfold fill_block. apply list_eq. intros k. unfold image in *.
  rewrite !lookup_map, list_lookup_imap.
  destruct (_ !! k) as [row|]; simpl; [|reflexivity].
  f_equal. apply length_imap.
Qed.

Lemma fill_block_u8 (res : image) (i j t : Z) (col : pixel) :
  image_u8 res -> pixel_u8 col -> image_u8 (fill_block res i j t col).
Proof.
  intros Hres Hcol. unfold image_u8, fill_block in *. unfold image in *.
  apply Forall_lookup. intros r row Hrow.
  rewrite list_lookup_imap in Hrow.
  destruct (res !! r) as [row0|] eqn:E; [|discriminate].
  simpl in Hrow. injection Hrow as <-.
  apply Forall_lookup. intros c p Hp.
  rewrite list_lookup_imap in Hp.
  destruct (row0 !! c) as [p0|] eqn:E0; [|discriminate].
  simpl in Hp. injection Hp as <-.
  destruct (_ && _); [exact Hcol|].
  eapply Forall_lookup_1 in E; [|exact Hres].
  eapply Forall_lookup_1 in E0; [|exact E]. exact E0.
Qed.

(** *** The mean of a tile *)

Lemma channel_sum_bounds (c : nat) (pixels : list pixel) :
  Forall pixel_u8 pixels ->
  0 <= channel_sum c pixels <= 255 * Z.of_nat (length pixels).
Proof.
  unfold channel_sum. induction 1 as [|p l Hp _ IH]; simpl; [lia|].
  assert (is_u8 (channel c p)).
  { destruct p as [[b g] r]. destruct Hp as (Hb & Hg & Hr).
    destruct c as [|[|c]]; assumption. }
  unfold is_u8 in *. lia.
Qed.

Lemma tile_mean_u8 (tile : image) :
  image_u8 tile -> (0 < length (concat tile))%nat -> pixel_u8 (tile_mean tile).
Proof.
  intros Hu Hn.
  assert (Hall : Forall pixel_u8 (concat tile)).
  { apply Forall_forall. intros p Hp. apply list_elem_of_In, in_concat in Hp.
    destruct Hp as (row & Hrow & Hp).
    apply list_elem_of_In in Hrow. apply list_elem_of_In in Hp.
    unfold image_u8 in Hu. rewrite Forall_forall in Hu.
    specialize (Hu row Hrow). rewrite Forall_forall in Hu. auto. }
  unfold tile_mean, pixel_u8, is_u8.
  set (n := Z.of_nat (length (concat tile))).
  assert (0 < n) by (unfold n; lia).
  pose proof (channel_sum_bounds 0 _ Hall).
  pose proof (channel_sum_bounds 1 _ Hall).
  pose proof (channel_sum_bounds 2 _ Hall).
  repeat split;
    first [ apply Z.div_pos; lia
          | apply Z.div_le_upper_bound; fold n; lia ].
Qed.

(** *** The loops of [mosaic_effect] *)

Lemma range_from_in (fuel : nat) (i stop step v : Z) :
  0 < step -> stop - i <= Z.of_nat fuel ->
  In v (range_from fuel i stop step)
  <-> exists k, 0 <= k /\ v = i + k * step /\ v < stop.
Proof.
  intros Hstep. revert i. induction fuel as [|fuel IH]; intros i Hfuel.
  - simpl. split; [intros []|]. intros (k & Hk & -> & Hlt). nia.
  - cbn [range_from]. destruct (i <? stop) eqn:E.
    + apply Z.ltb_lt in E. simpl. rewrite IH by lia. split.
      * intros [<-|(k & Hk & -> & Hlt)].
        -- exists 0. lia.
        -- exists (k + 1). split; [lia|]. split; [ring | exact Hlt].
      * intros (k & Hk & -> & Hlt).
        destruct (Z.eq_dec k 0) as [->|Hk0]; [left; ring|].
        right. exists (k - 1). split; [lia|]. split; [ring | exact Hlt].
    + apply Z.ltb_ge in E. split; [intros []|].
      intros (k & Hk & -> & Hlt). nia.
Qed.

Lemma py_range_in (stop step v : Z) :
  0 < step ->
  In v (py_range stop step)
  <-> exists k, 0 <= k /\ v = k * step /\ v < stop.
Proof.
  intros Hstep. unfold py_range. rewrite range_from_in by lia.
  split; intros (k & Hk & -> & Hlt); exists k; repeat split; lia.
Qed.

Lemma tile_start_in_range (t stop : Z) (k : nat) :
  0 < t -> Z.of_nat k < stop ->
  existsb (Z.eqb (tile_start t k)) (py_range stop t) = true.
Proof.
  intros Ht Hk. apply existsb_exists. exists (tile_start t k).
  split; [|apply Z.eqb_refl].
  apply py_range_in; [exact Ht|]. exists (Z.of_nat k / t).
  unfold tile_start. split; [apply Z.div_pos; lia|]. split; [reflexivity|].
  pose proof (Z.mul_div_le (Z.of_nat k) t Ht). lia.
Qed.

(** Among the starts of tiles, only [tile_start] holds the index. *)
Lemma holds_iff_tile_start (t j : Z) (k : nat) :
  0 < t -> (exists m, 0 <= m /\ j = m * t) ->
  (j <=? Z.of_nat k) && (Z.of_nat k <? j + t) = (tile_start t k =? j).
Proof.
  intros Ht (m & Hm & ->). unfold tile_start.
  pose proof (Z.mul_div_le (Z.of_nat k) t Ht) as H1.
  pose proof (Z.mul_succ_div_gt (Z.of_nat k) t Ht) as H2.
  destruct (Z.eq_dec (Z.of_nat k / t) m) as [E|E].
  - rewrite E, Z.eqb_refl. rewrite E in H1, H2.
    apply andb_true_intro. split; [apply Z.leb_le | apply Z.ltb_lt]; lia.
  - replace (Z.of_nat k / t * t =? m * t) with false
      by (symmetry; apply Z.eqb_neq; nia).
    apply andb_false_iff.
    destruct (Z_lt_ge_dec (Z.of_nat k / t) m).
    + left. apply Z.leb_gt. nia.
    + right. apply Z.ltb_ge. nia.
Qed.

Lemma in_block_split (i j t : Z) (r c : nat) :
  in_block i j t r c
  = ((i <=? Z.of_nat r) && (Z.of_nat r <? i + t))
    && ((j <=? Z.of_nat c) && (Z.of_nat c <? j + t)).
Proof.
  unfold in_block. rewrite !andb_assoc. reflexivity.
Qed.

Lemma mosaic_tile_px (region : image) (t i j : Z) (res : image) (r c : nat)
  (q : pixel) :
  0 <= i -> 0 <= j ->
  px res r c = Some q -> px region r c <> None ->
  px (mosaic_tile region t i res j) r c
  = Some (if in_block i j t r c then tile_mean (crop region j i t t) else q).
Proof.
  intros Hi Hj Hq Hreg. unfold mosaic_tile.
  destruct (Nat.ltb 0 (length (concat (crop region j i t t)))) eqn:E.
  - rewrite px_fill_block, Hq. reflexivity.
  - destruct (in_block i j t r c) eqn:B; [|exact Hq]. exfalso.
    apply Nat.ltb_ge in E.
    destruct (px region r c) as [q0|] eqn:E0; [|congruence].
    unfold in_block in B. apply andb_prop in B. destruct B as [B B4].
    apply andb_prop in B. destruct B as [B B3].
    apply andb_prop in B. destruct B as [B1 B2].
    apply Z.leb_le in B1, B3. apply Z.ltb_lt in B2, B4.
    assert (Hpx : px (crop region j i t t)
                    (r - Z.to_nat i) (c - Z.to_nat j) = Some q0).
    { apply crop_px; try lia.
      replace (Z.to_nat i + (r - Z.to_nat i))%nat with r by lia.
      replace (Z.to_nat j + (c - Z.to_nat j))%nat with c by lia.
      exact E0. }
    apply px_nonempty in Hpx. lia.
Qed.

Lemma mosaic_row_px (region : image) (t i : Z) (js : list Z) :
  0 < t -> 0 <= i ->
  (forall j, In j js -> exists m, 0 <= m /\ j = m * t) ->
  forall (res : image) (r c : nat) (q : pixel),
    px res r c = Some q -> px region r c <> None ->
    px (fold_left (mosaic_tile region t i) js res) r c
    = Some (if (i <=? Z.of_nat r) && (Z.of_nat r <? i + t)
               && existsb (Z.eqb (tile_start t c)) js
            then tile_mean (crop region (tile_start t c) i t t)
            else q).
Proof.
  intros Ht Hi. induction js as [|j js IH]; intros Hjs res r c q Hq Hreg.
  - simpl. rewrite andb_false_r. exact Hq.
  - cbn [fold_left existsb].
    assert (Hj : exists m, 0 <= m /\ j = m * t) by (apply Hjs; left; auto).
    assert (Hj0 : 0 <= j) by (destruct Hj as (m & Hm & ->); nia).
    pose proof (mosaic_tile_px region t i j res r c q Hi Hj0 Hq Hreg) as Hstep.
    rewrite (IH (fun j' H => Hjs j' (or_intror H)) _ _ _ _ Hstep Hreg).
    f_equal. rewrite in_block_split.
    rewrite (holds_iff_tile_start t j c Ht Hj).
    destruct ((i <=? Z.of_nat r) && (Z.of_nat r <? i + t)); simpl;
      [|reflexivity].
    destruct (tile_start t c =? j) eqn:E; simpl.
    + apply Z.eqb_eq in E. rewrite E.
      destruct (existsb _ js); reflexivity.
    + reflexivity.
Qed.

Lemma mosaic_rows_px (region : image) (t : Z) (rows js : list Z) :
  0 < t ->
  (forall i, In i rows -> exists m, 0 <= m /\ i = m * t) ->
  (forall j, In j js -> exists m, 0 <= m /\ j = m * t) ->
  forall (res : image) (r c : nat) (q : pixel),
    px res r c = Some q -> px region r c <> None ->
    px (fold_left
          (fun result i => fold_left (mosaic_tile region t i) js result)
          rows res) r c
    = Some (if existsb (Z.eqb (tile_start t r)) rows
               && existsb (Z.eqb (tile_start t c)) js
            then tile_mean
                   (crop region (tile_start t c) (tile_start t r) t t)
            else q).
Proof.
  intros Ht. induction rows as [|i rows IH];
    intros Hrows Hjs res r c q Hq Hreg.
  - exact Hq.
  - cbn [fold_left existsb].
    assert (Hi : exists m, 0 <= m /\ i = m * t) by (apply Hrows; left; auto).
    assert (Hi0 : 0 <= i) by (destruct Hi as (m & Hm & ->); nia).
    pose proof (mosaic_row_px region t i js Ht Hi0 Hjs res r c q Hq Hreg)
      as Hstep.
    rewrite (IH (fun i' H => Hrows i' (or_intror H)) Hjs _ _ _ _ Hstep Hreg).
    f_equal. rewrite (holds_iff_tile_start t i r Ht Hi).
    destruct (tile_start t r =? i) eqn:E; simpl.
    + apply Z.eqb_eq in E. rewrite E.
      destruct (existsb (Z.eqb (tile_start t c)) js);
        [|rewrite !andb_false_r; reflexivity].
      rewrite !andb_true_r. destruct (existsb _ rows); reflexivity.
    + reflexivity.
Qed.

Lemma fold_left_keeps {A B : Type} (P : A -> Prop) (f : A -> B -> A)
  (l : list B) (a : A) :
  P a -> (forall a' b, P a' -> P (f a' b)) -> P (fold_left f l a).
Proof.
  intros Ha Hstep. revert a Ha.
  induction l as [|b l IH]; intros a Ha; simpl; auto.
Qed.

Lemma crop_u8 (img : image) (x y w h : Z) :
  image_u8 img -> image_u8 (crop img x y w h).
Proof.
  intros H. unfold image_u8, crop. apply List.Forall_map.
  apply py_slice_Forall. eapply Forall_impl; [exact H|].
  intros row Hrow. apply py_slice_Forall. exact Hrow.
Qed.

Lemma mosaic_tile_keeps (region : image) (t i j : Z) (res : image) :
  image_u8 region ->
  map (@length pixel) res = map (@length pixel) region /\ image_u8 res ->
  map (@length pixel) (mosaic_tile region t i res j)
  = map (@length pixel) region
  /\ image_u8 (mosaic_tile region t i res j).
Proof.
  intros Hreg [Hs Hu]. unfold mosaic_tile.
  destruct (Nat.ltb 0 (length (concat (crop region j i t t)))) eqn:E;
    [|auto].
  apply Nat.ltb_lt in E. split.
  - rewrite fill_block_shape. exact Hs.
  - apply fill_block_u8; [exact Hu|].
    apply tile_mean_u8; [apply crop_u8; exact Hreg | exact E].
Qed.

(** X20. [mosaic_effect] with a positive tile size, on an image of
    [uint8] pixels: the result has the shape of the region
    [image[y:y+h, x:x+w]] and holds [uint8] values, and every pixel
    (r, c) of the region becomes the mean colour of the tile it lies
    in, the one that starts at row [r // tile_size * tile_size] and
    column [c // tile_size * tile_size] (cut at the region's border):
    per channel the sum over the tile's pixels divided by their number,
    fraction dropped. *)
Theorem mosaic_tiles_take_their_mean (img : image) (x y w h tile_size : Z) :
  0 < tile_size -> image_u8 img ->
  let region := crop img x y w h in
  exists out,
    mosaic_effect img x y w h tile_size = inr out
    /\ map (@length pixel) out = map (@length pixel) region
    /\ image_u8 out
    /\ forall (r c : nat) (q : pixel),
         px region r c = Some q ->
         Z.of_nat c < snd (shape2 region) ->
         px out r c
         = Some (tile_mean
                   (crop region (tile_start tile_size c)
                      (tile_start tile_size r) tile_size tile_size)).
Proof.
  intros Ht Hu region.
  assert (Hreg : image_u8 region) by (apply crop_u8; exact Hu).
  unfold mosaic_effect. fold region. cbv zeta.
  unfold shape2.
  replace (tile_size =? 0) with false by (symmetry; apply Z.eqb_neq; lia).
  replace (tile_size <? 0) with false by (symmetry; apply Z.ltb_ge; lia).
  eexists. split; [reflexivity|].
  set (rows := py_range (Z.of_nat (length region)) tile_size).
  set (js := py_range (Z.of_nat (length (hd [] region))) tile_size).
  assert (Hrows : forall i, In i rows -> exists m, 0 <= m /\ i = m * tile_size).
  { intros i Hi. apply py_range_in in Hi; [|exact Ht].
    destruct Hi as (m & Hm & -> & _). eauto. }
  assert (Hjs : forall j, In j js -> exists m, 0 <= m /\ j = m * tile_size).
  { intros j Hj. apply py_range_in in Hj; [|exact Ht].
    destruct Hj as (m & Hm & -> & _). eauto. }
  assert (Hkeep :
            map (@length pixel)
              (fold_left
                 (fun result i =>
                    fold_left (mosaic_tile region tile_size i) js result)
                 rows region)
            = map (@length pixel) region
            /\ image_u8
                 (fold_left
                    (fun result i =>
                       fold_left (mosaic_tile region tile_size i) js result)
                    rows region)).
  { apply (fold_left_keeps
             (fun res => map (@length pixel) res = map (@length pixel) region
                         /\ image_u8 res)); [auto|].
    intros res i Hres.
    apply (fold_left_keeps
             (fun res => map (@length pixel) res = map (@length pixel) region
                         /\ image_u8 res)); [exact Hres|].
    intros res' j Hres'. apply mosaic_tile_keeps; assumption. }
  destruct Hkeep as [Hshape Hu8]. split; [exact Hshape|].
  split; [exact Hu8|].
  intros r c q Hq Hc. simpl in Hc.
  rewrite (mosaic_rows_px region tile_size rows js Ht Hrows Hjs
             region r c q Hq) by congruence.
  assert (Hr : Z.of_nat r < Z.of_nat (length region)).
  { unfold px in Hq. destruct (region !! r) as [row|] eqn:E; [|discriminate].
    apply lookup_lt_Some in E. lia. }
  unfold rows, js. rewrite !tile_start_in_range by assumption.
  reflexivity.
Qed.

(** *** Opacity *)





End Effects.

(* ===================================================================== *)
(** ** Effects on the working image ([gui/main_window.py],
       [apply_effect_to_region]) *)
(* ===================================================================== *)

Module Canvas.

Import ImageProcessor.
Import Effects.

Definition broadcast_error : exn := "could not broadcast input array".

(** NumPy's broadcasting along one axis: a sequence of the wanted
    length is taken as it is, a sequence of one item is repeated. *)
Definition broadcast {A : Type} (n : nat) (l : list A) : option (list A) :=
  if Nat.eqb (length l) n then Some l
  else match l with
       | [v] => Some (replicate n v)
       | _ => None
       end.

Fixpoint broadcast_all {A : Type} (n : nat) (rows : list (list A))
  : option (list (list A)) :=
  match rows with
  | [] => Some []
  | r :: rest =>
      match broadcast n r, broadcast_all n rest with
      | Some r', Some rest' => Some (r' :: rest')
      | _, _ => None
      end
  end.

(** [l[start:stop] = v] for a [v] as long as the slice. *)
Definition splice {A : Type} (l : list A) (start stop : Z) (v : list A)
  : list A :=
  let n := Z.of_nat (length l) in
  let a := Z.to_nat (slice_index n start) in
  take a l ++ v ++ drop (a + length (py_slice l start stop)) l.

(** [img[y:y+h, x:x+w] = value]: the value is broadcast to the shape of
    the slice, and the assignment raises when it cannot be. *)
Definition assign_region (img : image) (x y w h : Z) (value : image)
  : exn + image :=
  let rows := py_slice img y (y + h) in
  let target_w := length (py_slice (hd [] img) x (x + w)) in
  match broadcast_all target_w value with
  | None => inl broadcast_error
  | Some value_rows =>
      match broadcast (length rows) value_rows with
      | None => inl broadcast_error
      | Some value_rows =>
          inr (splice img y (y + h)
                 (zip_with (fun row v => splice row x (x + w) v)
                    rows value_rows))
      end
  end.

(** What [apply_effect_to_region] reads of the window. *)
Record window := mkWindow {
  original_image : image;
  processed_image : image;
  blur_strength : Z;
  pixel_size : Z;
  opacity : Z
}.

(** The pixel ([r], [c]) lies in the box [(x, y, w, h)]. *)
Definition in_box (x y w h : Z) (r c : nat) : bool :=
  (y <=? Z.of_nat r) && (Z.of_nat r <? y + h)
  && (x <=? Z.of_nat c) && (Z.of_nat c <? x + w).

(** Every row has [width] columns. *)
Definition rectangular (width : nat) (img : image) : Prop :=
  Forall (fun row => length row = width) img.

Section Collaborators.

Variable resize : image -> Z * Z -> interpolation -> exn + image.
Variable GaussianBlur : image -> Z -> exn + image.
(** [frosted_glass] and [oil_paint] go through PIL and [cv2.xphoto]
    and are taken as they are. *)
Variable frosted_glass : image -> Z -> Z -> Z -> Z -> exn + image.
Variable oil_paint : image -> Z -> Z -> Z -> Z -> exn + image.

(** The [if effect == ...] chain; [None] for the final [else: return]. *)
Definition effect_result (self : window) (x y w h : Z) (effect : string)
  : option (exn + image) :=
  let img := processed_image self in
  if String.eqb effect "blur" then
    Some (gaussian_blur GaussianBlur img x y w h (blur_strength self))
  else if String.eqb effect "pixelation" then
    Some (pixelate resize img x y w h (pixel_size self))
  else if String.eqb effect "black_bar" then
    Some (inr (black_bar img x y w h))
  else if String.eqb effect "gradient" then
    Some (gradient_fade GaussianBlur img x y w h)
  else if String.eqb effect "mosaic" then
    Some (mosaic_effect img x y w h 10)
  else if String.eqb effect "glass" then
    Some (frosted_glass img x y w h)
  else if String.eqb effect "oil_paint" then
    Some (oil_paint img x y w h)
  else None.

(** [apply_effect_to_region(self, x, y, w, h, effect)]: the new
    [self.processed_image], or the exception raised (the working image
    is then as it was). *)
Definition apply_effect_to_region (self : window) (x y w h : Z)
  (effect : string) : exn + image :=
  let original_region := crop (original_image self) x y w h in
  match effect_result self x y w h effect with
  | None => inr (processed_image self)
  | Some (inl e) => inl e
  | Some (inr result) =>
      match opacity_step original_region result (opacity self) with
      | inl e => inl e
      | inr result => assign_region (processed_image self) x y w h result
      end
  end.

End Collaborators.

(** *** Slice assignment *)

Lemma py_slice_nonneg_length {A : Type} (l : list A) (a b : Z) :
  0 <= a -> 0 <= b ->
  length (py_slice l a b)
  = Nat.min (Z.to_nat (b - a)) (length l - Z.to_nat a).
Proof.
  intros Ha Hb. rewrite py_slice_nonneg by assumption.
  rewrite length_take, length_drop. reflexivity.
Qed.

Lemma splice_length {A : Type} (l : list A) (start stop : Z) (v : list A) :
  0 <= start -> 0 <= stop ->
  length v = length (py_slice l start stop) ->
  length (splice l start stop v) = length l.
Proof.
  intros Ha Hb Hv. unfold splice.
  rewrite !length_app, length_take, length_drop, Hv.
  rewrite py_slice_nonneg_length by assumption.
  unfold slice_index.
  destruct (start <? 0) eqn:E; [apply Z.ltb_lt in E; lia|]. lia.
Qed.

Lemma splice_lookup {A : Type} (l : list A) (start stop : Z) (v : list A)
  (i : nat) :
  0 <= start -> 0 <= stop ->
  length v = length (py_slice l start stop) ->
  splice l start stop v !! i
  = if (start <=? Z.of_nat i) && (Z.of_nat i <? stop)
       && (Z.of_nat i <? Z.of_nat (length l))
    then v !! (i - Z.to_nat start)%nat
    else l !! i.
Proof.
  intros Ha Hb Hv. unfold splice.
  rewrite py_slice_nonneg_length in * by assumption.
  unfold slice_index.
  destruct (start <? 0) eqn:E; [apply Z.ltb_lt in E; lia|]. clear E.
  set (n := length l) in *.
  set (a := Z.to_nat (Z.min start (Z.of_nat n))).
  set (len := Nat.min (Z.to_nat (stop - start)) (n - Z.to_nat start)) in *.
  assert (Htake : length (take a l) = a).
  { rewrite length_take. fold n. unfold a. lia. }
  destruct (Nat.lt_ge_cases i a) as [Hi|Hi].
  - rewrite lookup_app_l by lia. rewrite lookup_take_lt by lia.
    replace (start <=? Z.of_nat i) with false
      by (symmetry; apply Z.leb_gt; unfold a in Hi; lia).
    reflexivity.
  - rewrite lookup_app_r by lia. rewrite Htake.
    destruct (Nat.lt_ge_cases (i - a) len) as [Hlen|Hlen].
    + rewrite lookup_app_l by lia.
      assert (Hstart : (Z.to_nat start <= n)%nat) by (unfold len in Hlen; lia).
      replace a with (Z.to_nat start) in * by (unfold a; lia).
      replace (start <=? Z.of_nat i) with true
        by (symmetry; apply Z.leb_le; lia).
      replace (Z.of_nat i <? stop) with true
        by (symmetry; apply Z.ltb_lt; unfold len in Hlen; lia).
      replace (Z.of_nat i <? Z.of_nat n) with true
        by (symmetry; apply Z.ltb_lt; unfold len in Hlen; lia).
      reflexivity.
    + rewrite lookup_app_r by lia. rewrite lookup_drop, Hv.
      replace (a + len + (i - a - len))%nat with i by lia.
      destruct ((start <=? Z.of_nat i) && (Z.of_nat i <? stop)
                && (Z.of_nat i <? Z.of_nat n)) eqn:E; [|reflexivity].
      exfalso. apply andb_prop in E. destruct E as [E E3].
      apply andb_prop in E. destruct E as [E1 E2].
      apply Z.leb_le in E1. apply Z.ltb_lt in E2, E3.
      unfold a, len in *. lia.
Qed.

Lemma broadcast_same {A : Type} (n : nat) (l : list A) :
  length l = n -> broadcast n l = Some l.
Proof.
  intros H. unfold broadcast. rewrite H, Nat.eqb_refl. reflexivity.
Qed.

Lemma broadcast_all_same {A : Type} (n : nat) (rows : list (list A)) :
  Forall (fun r => length r = n) rows -> broadcast_all n rows = Some rows.
Proof.
  induction 1 as [|r rows Hr _ IH]; simpl; [reflexivity|].
  rewrite (broadcast_same _ _ Hr), IH. reflexivity.
Qed.

Lemma py_slice_row (img : image) (y h : Z) (r : nat) :
  0 <= y -> 0 <= h ->
  (y <=? Z.of_nat r) && (Z.of_nat r <? y + h) = true ->
  py_slice img y (y + h) !! (r - Z.to_nat y)%nat = img !! r.
Proof.
  intros Hy Hh B. apply andb_prop in B. destruct B as [B1 B2].
  apply Z.leb_le in B1. apply Z.ltb_lt in B2.
  rewrite py_slice_nonneg by lia. rewrite lookup_take_lt by lia.
  rewrite lookup_drop. f_equal. lia.
Qed.

(** In a rectangular image the slices of all rows are as wide as the
    slice of the first. *)
Lemma crop_rows_width (img : image) (x y w h : Z) (width : nat) :
  rectangular width img ->
  Forall (fun n => n = length (py_slice (hd [] img) x (x + w)))
    (map (@length pixel) (crop img x y w h)).
Proof.
  intros Hrect.
  assert (Hhd : Forall (fun row => length row = length (hd [] img)) img).
  { destruct img as [|first rest]; [constructor|].
    inversion Hrect; subst. simpl.
    eapply Forall_impl; [exact Hrect|]. simpl. intros row Hrow. congruence. }
  unfold crop. rewrite map_map. apply List.Forall_map.
  eapply Forall_impl; [apply py_slice_Forall; exact Hhd|].
  intros row Hrow. apply py_slice_length_eq. exact Hrow.
Qed.

Lemma value_rows_width (img value : image) (x y w h : Z) (width : nat) :
  rectangular width img ->
  map (@length pixel) value = map (@length pixel) (crop img x y w h) ->
  Forall (fun r => length r = length (py_slice (hd [] img) x (x + w))) value.
Proof.
  intros Hrect Hshape.
  pose proof (crop_rows_width img x y w h width Hrect) as H.
  rewrite <- Hshape in H. apply List.Forall_map in H. exact H.
Qed.

Lemma assign_region_rows (img value : image) (x y w h : Z) (width : nat) :
  rectangular width img ->
  0 <= x -> 0 <= y -> 0 <= w -> 0 <= h ->
  map (@length pixel) value = map (@length pixel) (crop img x y w h) ->
  exists out,
    assign_region img x y w h value = inr out
    /\ length out = length img
    /\ forall (r : nat) (row : list pixel),
         img !! r = Some row ->
         if (y <=? Z.of_nat r) && (Z.of_nat r <? y + h)
         then exists v,
                value !! (r - Z.to_nat y)%nat = Some v
                /\ length v = length (py_slice row x (x + w))
                /\ out !! r = Some (splice row x (x + w) v)
         else out !! r = Some row.
Proof.
  intros Hrect Hx Hy Hw Hh Hshape. unfold assign_region.
  rewrite (broadcast_all_same _ _ (value_rows_width _ _ _ _ _ _ _ Hrect Hshape)).
  assert (Hlen : length value = length (py_slice img y (y + h))).
  { apply (f_equal (@length nat)) in Hshape.
    rewrite !length_map in Hshape. unfold crop in Hshape.
    rewrite length_map in Hshape. exact Hshape. }
  rewrite (broadcast_same _ _ Hlen).
  eexists. split; [reflexivity|].
  assert (Hzip : length (zip_with (fun row v => splice row x (x + w) v)
                           (py_slice img y (y + h)) value)
                 = length (py_slice img y (y + h))).
  { rewrite length_zip_with. lia. }
  split; [apply splice_length; [lia | lia | exact Hzip]|].
  intros r row Hrow. unfold image in *.
  rewrite splice_lookup by (try lia; exact Hzip).
  pose proof (lookup_lt_Some _ _ _ Hrow) as Hr.
  replace (Z.of_nat r <? Z.of_nat (length img)) with true
    by (symmetry; apply Z.ltb_lt; lia).
  rewrite andb_true_r.
  destruct ((y <=? Z.of_nat r) && (Z.of_nat r <? y + h)) eqn:B;
    [|exact Hrow].
  pose proof (py_slice_row img y h r Hy Hh B) as Hsl.
  unfold image in *. rewrite Hrow in Hsl.
  assert (Hv : is_Some (value !! (r - Z.to_nat y)%nat)).
  { apply lookup_lt_is_Some_2. rewrite Hlen.
    apply lookup_lt_Some in Hsl. exact Hsl. }
  destruct Hv as [v Hv]. exists v. split; [exact Hv|].
  split.
  - apply (f_equal (fun l => l !! (r - Z.to_nat y)%nat)) in Hshape.
    unfold crop in Hshape. rewrite !lookup_map, Hv, Hsl in Hshape.
    simpl in Hshape. congruence.
  - rewrite lookup_zip_with, Hsl, Hv. reflexivity.
Qed.

(** Assigning a value shaped like the box's slice: the pixels of the
    box come from the value, the others stay. *)
Lemma assign_region_px (img value : image) (x y w h : Z) (width : nat) :
  rectangular width img ->
  0 <= x -> 0 <= y -> 0 <= w -> 0 <= h ->
  map (@length pixel) value = map (@length pixel) (crop img x y w h) ->
  exists out,
    assign_region img x y w h value = inr out
    /\ forall r c : nat,
         px out r c
         = match px img r c with
           | Some q =>
               if in_box x y w h r c
               then px value (r - Z.to_nat y) (c - Z.to_nat x)
               else Some q
           | None => None
           end.
Proof.
  intros Hrect Hx Hy Hw Hh Hshape.
  destruct (assign_region_rows img value x y w h width Hrect Hx Hy Hw Hh
              Hshape) as (out & Hout & Hlen & Hrows).
  exists out. split; [exact Hout|]. intros r c.
  unfold px at 1 2. unfold image in *.
  destruct (img !! r) as [row|] eqn:Hrow.
  - specialize (Hrows r row Hrow). unfold in_box.
    destruct ((y <=? Z.of_nat r) && (Z.of_nat r <? y + h)) eqn:B.
    + destruct Hrows as (v & Hv & Hvl & ->).
      rewrite splice_lookup by (try lia; exact Hvl).
      unfold px. unfold image in *. rewrite Hv. simpl.
      destruct (row !! c) as [q|] eqn:Hc.
      * apply lookup_lt_Some in Hc.
        replace (Z.of_nat c <? Z.of_nat (length row)) with true
          by (symmetry; apply Z.ltb_lt; lia).
        rewrite andb_true_r. cbn [andb].
        destruct ((x <=? Z.of_nat c) && (Z.of_nat c <? x + w));
          reflexivity.
      * apply lookup_ge_None in Hc.
        replace (Z.of_nat c <? Z.of_nat (length row)) with false
          by (symmetry; apply Z.ltb_ge; lia).
        rewrite andb_false_r. reflexivity.
    + rewrite Hrows. simpl. destruct (row !! c); reflexivity.
  - apply lookup_ge_None in Hrow.
    rewrite (lookup_ge_None_2 out r) by lia. reflexivity.
Qed.

Lemma assign_region_shape (img value : image) (x y w h : Z) (width : nat)
  (out : image) :
  rectangular width img ->
  0 <= x -> 0 <= y -> 0 <= w -> 0 <= h ->
  map (@length pixel) value = map (@length pixel) (crop img x y w h) ->
  assign_region img x y w h value = inr out ->
  map (@length pixel) out = map (@length pixel) img.
Proof.
  intros Hrect Hx Hy Hw Hh Hshape Hout.
  destruct (assign_region_rows img value x y w h width Hrect Hx Hy Hw Hh
              Hshape) as (out' & Hout' & Hlen & Hrows).
  rewrite Hout in Hout'. injection Hout' as <-.
  apply list_eq. intros r. unfold image in *. rewrite !lookup_map.
  destruct (img !! r) as [row|] eqn:Hrow.
  - specialize (Hrows r row Hrow).
    destruct ((y <=? Z.of_nat r) && (Z.of_nat r <? y + h)).
    + destruct Hrows as (v & Hv & Hvl & ->). simpl. f_equal.
      apply splice_length; [lia | lia | exact Hvl].
    + rewrite Hrows. reflexivity.
  - apply lookup_ge_None in Hrow.
    rewrite (lookup_ge_None_2 out r) by lia. reflexivity.
Qed.

Lemma broadcast_Forall {A : Type} (P : A -> Prop) (n : nat) (l l' : list A) :
  Forall P l -> broadcast n l = Some l' ->
  Forall P l' /\ length l' = n.
Proof.
  intros Hl. unfold broadcast.
  destruct (Nat.eqb (length l) n) eqn:E.
  - apply Nat.eqb_eq in E. intros [= <-]. auto.
  - destruct l as [|v [|]]; try discriminate. intros [= <-].
    inversion Hl; subst. split; [|apply length_replicate].
    apply Forall_replicate. assumption.
Qed.

Lemma broadcast_all_width {A : Type} (n : nat) (rows rows' : list (list A)) :
  broadcast_all n rows = Some rows' ->
  Forall (fun r => length r = n) rows'.
Proof.
  revert rows'. induction rows as [|r rows IH]; intros rows'; simpl.
  - intros [= <-]. constructor.
  - destruct (broadcast n r) as [r'|] eqn:Er; [|discriminate].
    destruct (broadcast_all n rows) as [rest|]; [|discriminate].
    intros [= <-]. constructor; [|apply IH; reflexivity].
    apply (broadcast_Forall (fun _ => True)) in Er; [apply Er|].
    apply Forall_forall. auto.
Qed.

Lemma constant_lists_equal {A : Type} (k : A) (a b : list A) :
  Forall (fun n => n = k) a -> Forall (fun n => n = k) b ->
  length a = length b -> a = b.
Proof.
  intros Ha. revert b. induction Ha as [|u a Hu _ IH]; intros b Hb Hlen.
  - destruct b; [reflexivity | discriminate].
  - destruct Hb as [|v b Hv Hb]; [discriminate|].
    f_equal; [congruence|]. apply IH; [exact Hb|]. simpl in Hlen. lia.
Qed.

(** An assignment that goes through is the assignment of the value
    after broadcasting, which has the shape of the box's slice. *)
Lemma assign_region_normal (img value : image) (x y w h : Z) (width : nat)
  (out : image) :
  rectangular width img ->
  assign_region img x y w h value = inr out ->
  exists value',
    map (@length pixel) value' = map (@length pixel) (crop img x y w h)
    /\ assign_region img x y w h value' = inr out.
Proof.
  intros Hrect. unfold assign_region at 1.
  destruct (broadcast_all _ value) as [rows1|] eqn:E1; [|discriminate].
  destruct (broadcast _ rows1) as [rows2|] eqn:E2; [|discriminate].
  intros Hout.
  apply broadcast_all_width in E1.
  destruct (broadcast_Forall _ _ _ _ E1 E2) as [Hwidth Hcount].
  assert (Hshape : map (@length pixel) rows2
                   = map (@length pixel) (crop img x y w h)).
  { apply (constant_lists_equal (length (py_slice (hd [] img) x (x + w)))).
    - apply List.Forall_map. exact Hwidth.
    - eapply crop_rows_width. exact Hrect.
    - rewrite !length_map. unfold crop. rewrite length_map. exact Hcount. }
  exists rows2. split; [exact Hshape|].
  unfold assign_region.
  rewrite (broadcast_all_same _ _ Hwidth), (broadcast_same _ _ Hcount).
  exact Hout.
Qed.

Lemma in_box_false_px (T : Type) (x y w h : Z) (r c : nat) (a b : T) :
  in_box x y w h r c = false ->
  (if in_box x y w h r c then a else b) = b.
Proof.
  intros ->. reflexivity.
Qed.

Lemma px_same_shape (a b : image) (i j : nat) (q : pixel) :
  map (@length pixel) a = map (@length pixel) b ->
  px a i j = Some q -> exists v, px b i j = Some v.
Proof.
  intros Hshape Hq. unfold px in *. unfold image in *.
  apply (f_equal (fun l => l !! i)) in Hshape. rewrite !lookup_map in Hshape.
  destruct (a !! i) as [ra|]; [|discriminate].
  destruct (b !! i) as [rb|]; [|discriminate].
  simpl in Hshape. injection Hshape as Hlen.
  apply lookup_lt_Some in Hq. rewrite Hlen in Hq.
  destruct (lookup_lt_is_Some_2 rb j Hq) as [v Hv]. eauto.
Qed.

Lemma in_box_true (x y w h : Z) (r c : nat) :
  in_box x y w h r c = true ->
  y <= Z.of_nat r < y + h /\ x <= Z.of_nat c < x + w.
Proof.
  unfold in_box. intros B.
  apply andb_prop in B. destruct B as [B B4].
  apply andb_prop in B. destruct B as [B B3].
  apply andb_prop in B. destruct B as [B1 B2].
  apply Z.leb_le in B1, B3. apply Z.ltb_lt in B2, B4. lia.
Qed.

(** The pixel of the box's slice that stands for ([r], [c]). *)
Lemma crop_px_in_box (img : image) (x y w h : Z) (r c : nat) (q : pixel) :
  0 <= x -> 0 <= y ->
  in_box x y w h r c = true -> px img r c = Some q ->
  px (crop img x y w h) (r - Z.to_nat y) (c - Z.to_nat x) = Some q.
Proof.
  intros Hx Hy B Hq. apply in_box_true in B.
  apply crop_px; try lia.
  replace (Z.to_nat y + (r - Z.to_nat y))%nat with r by lia.
  replace (Z.to_nat x + (c - Z.to_nat x))%nat with c by lia.
  exact Hq.
Qed.


Lemma same_shape_lengths (a b : image) :
  same_shape a b -> map (@length pixel) a = map (@length pixel) b.
Proof.
  unfold same_shape. induction 1 as [|ra rb a b Hr _ IH]; simpl;
    [reflexivity|]. rewrite Hr, IH. reflexivity.
Qed.

Section Theorems.

Variable resize : image -> Z * Z -> interpolation -> exn + image.
Variable GaussianBlur : image -> Z -> exn + image.
Variable frosted_glass : image -> Z -> Z -> Z -> Z -> exn + image.
Variable oil_paint : image -> Z -> Z -> Z -> Z -> exn + image.


(** X22. Whatever the effect, the opacity and the results of the
    OpenCV and PIL collaborators: when [apply_effect_to_region] goes
    through for a box of non-negative numbers on a rectangular working
    image, the new working image has the shape of the old one and
    every pixel outside the box is as before. *)
Theorem effect_stays_in_box (self : window) (x y w h : Z) (effect : string)
  (width : nat) (out : image) :
  rectangular width (processed_image self) ->
  0 <= x -> 0 <= y -> 0 <= w -> 0 <= h ->
  apply_effect_to_region resize GaussianBlur frosted_glass oil_paint
    self x y w h effect = inr out ->
  map (@length pixel) out = map (@length pixel) (processed_image self)
  /\ forall r c : nat,
       in_box x y w h r c = false ->
       px out r c = px (processed_image self) r c.
Proof.
  intros Hrect Hx Hy Hw Hh. unfold apply_effect_to_region.
  destruct (effect_result _ _ _ _ self x y w h effect) as [[e|result]|];
    [intros; discriminate | |intros [= <-]; auto].
  destruct (opacity_step _ result (opacity self)) as [e|result'];
    [intros; discriminate|].
  intros Hout.
  destruct (assign_region_normal _ _ _ _ _ _ _ _ Hrect Hout)
    as (value & Hshape & Hout').
  split.
  - exact (assign_region_shape _ value x y w h width out
             Hrect Hx Hy Hw Hh Hshape Hout').
  - destruct (assign_region_px _ value x y w h width Hrect Hx Hy Hw Hh Hshape)
      as (out' & Hout'' & Hpx).
    rewrite Hout' in Hout''. injection Hout'' as <-.
    intros r c B. rewrite Hpx, B.
    destruct (px (processed_image self) r c); reflexivity.
Qed.


(** X24. At opacity 0, an effect whose result has the shape of the
    box's slice puts the pixels of the ORIGINAL image (the image as it
    was loaded, not the working image) into the box of the working
    image: what earlier effects did inside the box is gone; outside
    the box the working image stays as it was. *)
Theorem zero_opacity_puts_original_back (self : window) (x y w h : Z)
  (effect : string) (width : nat) (result : image) :
  rectangular width (processed_image self) ->
  map (@length pixel) (original_image self)
  = map (@length pixel) (processed_image self) ->
  image_u8 (original_image self) ->
  0 <= x -> 0 <= y -> 0 <= w -> 0 <= h ->
  opacity self = 0 ->
  effect_result resize GaussianBlur frosted_glass oil_paint self x y w h
    effect = Some (inr result) ->
  same_shape result (crop (original_image self) x y w h) ->
  exists out,
    apply_effect_to_region resize GaussianBlur frosted_glass oil_paint
      self x y w h effect = inr out
    /\ forall (r c : nat) (q : pixel),
         px (processed_image self) r c = Some q ->
         px out r c
         = if in_box x y w h r c then px (original_image self) r c
           else Some q.
Proof.
  intros Hrect Hsame Hu Hx Hy Hw Hh Hop Heff Hshape.
  unfold apply_effect_to_region. rewrite Heff.
  unfold opacity_step. rewrite Hop. cbn [Z.ltb Z.compare].
  rewrite (apply_opacity_0 _ _ Hshape (crop_u8 _ _ _ _ _ Hu)).
  assert (Hcrop : map (@length pixel) (crop (original_image self) x y w h)
                  = map (@length pixel)
                      (crop (processed_image self) x y w h))
    by (apply crop_same_shape; exact Hsame).
  destruct (assign_region_px (processed_image self)
              (crop (original_image self) x y w h) x y w h width
              Hrect Hx Hy Hw Hh Hcrop) as (out & Hout & Hpx).
  exists out. split; [exact Hout|].
  intros r c q Hq. rewrite Hpx, Hq.
  destruct (in_box x y w h r c) eqn:B; [|reflexivity].
  destruct (px_same_shape _ (original_image self) _ _ _ (eq_sym Hsame) Hq)
    as [o Ho].
  rewrite Ho. apply crop_px_in_box; assumption.
Qed.

End Theorems.

End Canvas.

(* ===================================================================== *)
(** ** More of the batch engine ([core/batch_processor.py]) *)
(* ===================================================================== *)

Module BatchMore.

Import Batch.

Section Engine.

Variable Image : Type.
Variable shape : Image -> Z * Z.
Variable imread : list (event Image) -> string -> option Image.
Variable imwrite : list (event Image) -> string -> Image -> option exn.
Variable makedirs : list (event Image) -> string -> option exn.
Variable empty_array_truth : exn + bool.
Variable engine : detection_engine Image.
Variable processor : image_processor Image.
Variable progress_callback :
  option (list (event Image) -> Z -> Z -> result -> option exn).
Variable error_callback :
  option (list (event Image) -> string -> string -> option exn).

Local Abbreviation process_single :=
  (_process_single_image Image shape imread imwrite empty_array_truth
     engine processor).

Local Abbreviation process_turn :=
  (process_one Image shape imread imwrite empty_array_truth engine
     processor progress_callback error_callback).


(** X26. When the detector finds nothing (an empty list, or the empty
    tuple OpenCV answers with) and the write goes through, the image
    is written as it was read, under the derived name, and the
    result reports success with 0 regions. *)
Theorem nothing_found_writes_the_original
  (input_path output_dir : string) (stg : settings) (st : state Image)
  (img : Image) (regions : detected) :
  imread (trace st) input_path = Some img ->
  _detect_regions Image shape engine img
    (default "face"%string (detection_mode stg)) = inr regions ->
  regions = PyList [] \/ regions = PyTuple ->
  imwrite (trace st) (written_path input_path output_dir) img = None ->
  process_single input_path output_dir stg st
  = (mkState
       (trace st ++ [EvImwrite (written_path input_path output_dir) img])
       (results st),
     inr (mkResult input_path (Some (written_path input_path output_dir))
            true (Some 0) None)).
Proof.
  intros Hread Hdet Hnone Hwrite.
  unfold _process_single_image, written_path in *.
  unfold read_image, write_image, mbind, M_bind, bind, ret, lift, call.
  cbv beta zeta. rewrite Hread, Hdet.
  destruct Hnone as [-> | ->]; simpl; rewrite Hwrite; reflexivity.
Qed.

(** X27. In mode "full" no detector is asked: the one region is the
    whole frame, (0, 0, width, height) of the image's shape; the effect
    is applied to it once, its result is what is written, and the
    result reports 1 region. *)
Theorem full_mode_is_one_region
  (input_path output_dir : string) (stg : settings) (st : state Image)
  (img out : Image) (h w : Z) :
  imread (trace st) input_path = Some img ->
  detection_mode stg = Some "full"%string ->
  shape img = (h, w) ->
  _apply_effect_to_region Image processor img 0 0 w h
    (default "blur"%string (effect_type stg))
    (default ∅ (effect_params stg)) = inr out ->
  imwrite (trace st) (written_path input_path output_dir) out = None ->
  process_single input_path output_dir stg st
  = (mkState
       (trace st ++ [EvImwrite (written_path input_path output_dir) out])
       (results st),
     inr (mkResult input_path (Some (written_path input_path output_dir))
            true (Some 1) None)).
Proof.
  intros Hread Hmode Hshape Heff Hwrite.
  unfold _process_single_image, written_path in *.
  unfold read_image, write_image, mbind, M_bind, bind, ret, lift, call.
  cbv beta zeta. rewrite Hread, Hmode.
  change (default "face"%string (Some "full"%string)) with "full"%string.
  unfold _detect_regions. cbn [String.eqb Ascii.eqb Bool.eqb].
  cbv iota beta. rewrite Hshape. cbn [not_regions boxes_of apply_effects].
  rewrite Heff. cbn [length Z.of_nat]. rewrite Hwrite. reflexivity.
Qed.

(** X28. A progress callback that raises after a file was processed
    makes the file count twice: the result of the processing is
    already appended when the callback is called, and the handler of
    the exception appends a failure for the same file, then calls the
    error callback. *)
Theorem raising_progress_callback_adds_a_failure
  (i total : Z) (input_path output_dir : string) (stg : settings)
  (st st1 : state Image) (r : result) (e : exn)
  (cb : list (event Image) -> Z -> Z -> result -> option exn) :
  process_single input_path output_dir stg st = (st1, inr r) ->
  progress_callback = Some cb ->
  cb (trace st1) (i + 1) total r = Some e ->
  (forall ecb, error_callback = Some ecb ->
               ecb (trace st1 ++ [EvProgress (i + 1) total r])
                 input_path e = None) ->
  process_turn i total input_path output_dir stg st
  = (mkState
       (trace st1 ++ [EvProgress (i + 1) total r]
          ++ match error_callback with
             | Some _ => [EvError input_path e]
             | None => []
             end)
       (results st1 ++ [r; error_info input_path e]),
     inr tt).
Proof.
  intros Hrun Hcb Hraise Hecb. unfold process_one.
  unfold try_except, mbind, M_bind, bind, ret, call, append_result.
  cbv beta zeta. rewrite Hrun, Hcb. simpl. rewrite Hraise. simpl.
  destruct error_callback as [ecb|]; simpl.
  - rewrite (Hecb ecb eq_refl). rewrite <- !app_assoc. reflexivity.
  - rewrite <- !app_assoc. reflexivity.
Qed.

End Engine.

Section OnArrays.

(** The engine on images as arrays of pixels, with the black bar of
    [core/image_processor.py] as the processor's. *)
Variable imread :
  list (event ImageProcessor.image) -> string -> option ImageProcessor.image.
Variable imwrite :
  list (event ImageProcessor.image) -> string -> ImageProcessor.image
  -> option exn.
Variable empty_array_truth : exn + bool.
Variable engine : detection_engine ImageProcessor.image.
Variable processor : image_processor ImageProcessor.image.


End OnArrays.

End BatchMore.

(* ===================================================================== *)
(** ** Checking the input files of a batch ([core/batch_processor.py],
       [get_supported_formats] and [validate_input_files]) *)
(* ===================================================================== *)

Module Validate.

(** [SUPPORTED_FORMATS] of [config.py]. *)
Definition SUPPORTED_FORMATS : list (string * string) :=
  [ ("All Supported Images",
     "*.jpg *.jpeg *.png *.bmp *.gif *.tiff *.webp");
    ("JPEG Images", "*.jpg *.jpeg");
    ("PNG Images", "*.png");
    ("BMP Images", "*.bmp");
    ("TIFF Images", "*.tiff *.tif");
    ("WebP Images", "*.webp");
    ("All Files", "*.*") ]%string.

(** [s.replace('*', '')] *)
Fixpoint remove_stars (s : string) : string :=
  match s with
  | EmptyString => EmptyString
  | String c s' =>
      if Ascii.eqb c "*"%char then remove_stars s'
      else String c (remove_stars s')
  end.

(** [get_supported_formats()]: the list is made from a set, so that
    its order is not fixed; only membership is used. *)
Definition get_supported_formats : gset string :=
  fold_left
    (fun valid_extensions filter_tuple =>
       if negb (PyStr.is_empty (snd filter_tuple))
       then valid_extensions
              ∪ list_to_set (PyStr.split (remove_stars (snd filter_tuple)))
       else valid_extensions)
    SUPPORTED_FORMATS ∅.

Section Files.

Variable Image : Type.
(** [os.path.exists] and [cv2.imread], which may raise, answer [None]
    or answer an image. *)
Variable exists_ : string -> bool.
Variable imread : string -> string + option Image.

Definition not_found (path : string) : string :=
  String.append "File not found: " path.

Definition unsupported (ext path : string) : string :=
  String.append "Unsupported format "
    (String.append ext (String.append ": " path)).

Definition not_loaded (path : string) : string :=
  String.append "Could not load image: " path.

Definition load_raised (path e : string) : string :=
  String.append "Error loading "
    (String.append path (String.append ": " e)).

(** One turn of the loop of [validate_input_files]. *)
Definition validate_one (acc : list string * list string) (path : string)
  : list string * list string :=
  let '(valid_files, invalid_files) := acc in
  if negb (exists_ path) then
    (valid_files, invalid_files ++ [not_found path])
  else
    let ext := PyStr.lower (PyPath.suffix path) in
    if negb (bool_decide (ext ∈ get_supported_formats)) then
      (valid_files, invalid_files ++ [unsupported ext path])
    else
      match imread path with
      | inr None => (valid_files, invalid_files ++ [not_loaded path])
      | inr (Some _) => (valid_files ++ [path], invalid_files)
      | inl e => (valid_files, invalid_files ++ [load_raised path e])
      end.

(** [validate_input_files(file_paths)] *)
Definition validate_input_files (file_paths : list string)
  : list string * list string :=
  fold_left validate_one file_paths ([], []).

(** The extensions the check lets through, lower case. *)
Definition extensions : list string :=
  [".jpg"; ".jpeg"; ".png"; ".bmp"; ".gif"; ".tiff"; ".tif"; ".webp"]%string.

(** The file exists, has one of the extensions (in any case) and can
    be decoded. *)
Definition usable (path : string) : bool :=
  exists_ path
  && existsb (String.eqb (PyStr.lower (PyPath.suffix path))) extensions
  && match imread path with inr (Some _) => true | _ => false end.

End Files.

(** *** The extensions *)

Lemma get_supported_formats_eq :
  get_supported_formats = list_to_set (extensions ++ ["."%string]).
Proof. vm_compute. reflexivity. Qed.

Lemma lower_length (s : string) :
  String.length (PyStr.lower s) = String.length s.
Proof.
  induction s as [|c s IH]; simpl; [reflexivity|]. rewrite IH. reflexivity.
Qed.

Lemma substring_length (s : string) (n m : nat) :
  (n + m <= String.length s)%nat ->
  String.length (String.substring n m s) = m.
Proof.
  revert n m. induction s as [|c s IH]; intros n m H; simpl in H.
  - destruct n, m; simpl; lia.
  - destruct n as [|n]; simpl.
    + destruct m as [|m]; simpl; [reflexivity|].
      rewrite (IH 0%nat m) by lia. reflexivity.
    + apply IH. lia.
Qed.

Lemma rfind_dot_lt (s : string) (i : nat) :
  PyPath.rfind_dot s = Some i -> (i < String.length s)%nat.
Proof.
  revert i. induction s as [|c s IH]; intros i; simpl; [discriminate|].
  destruct (PyPath.rfind_dot s) as [j|].
  - intros [= <-]. specialize (IH j eq_refl). lia.
  - destruct (Ascii.eqb c PyPath.dot); [|discriminate].
    intros [= <-]. lia.
Qed.

(** A suffix is empty or holds a dot and at least one more character. *)
Lemma suffix_length (path : string) :
  String.length (PyPath.suffix path) <> 1%nat.
Proof.
  unfold PyPath.suffix, PyPath.suffix_start.
  set (nm := PyPath.name path).
  destruct (PyPath.rfind_dot nm) as [i|] eqn:E; [|simpl; lia].
  destruct (Nat.ltb 0 i && Nat.ltb i (String.length nm - 1)) eqn:B;
    [|simpl; lia].
  apply andb_prop in B. destruct B as [_ B]. apply Nat.ltb_lt in B.
  rewrite substring_length by lia. lia.
Qed.

Lemma supported_iff (path : string) :
  bool_decide (PyStr.lower (PyPath.suffix path) ∈ get_supported_formats)
  = existsb (String.eqb (PyStr.lower (PyPath.suffix path))) extensions.
Proof.
  set (ext := PyStr.lower (PyPath.suffix path)).
  assert (Hdot : ext <> "."%string).
  { intros H. apply (f_equal String.length) in H.
    unfold ext in H. rewrite lower_length in H. simpl in H.
    exact (suffix_length path H). }
  rewrite get_supported_formats_eq.
  destruct (existsb (String.eqb ext) extensions) eqn:E.
  - apply bool_decide_eq_true. apply elem_of_list_to_set.
    apply existsb_exists in E. destruct E as (e & Hin & He).
    apply String.eqb_eq in He. subst e.
    apply list_elem_of_In. apply List.in_or_app. left. exact Hin.
  - apply bool_decide_eq_false. rewrite elem_of_list_to_set.
    rewrite list_elem_of_In. intros Hin. apply List.in_app_or in Hin.
    destruct Hin as [Hin | [Hin | []]]; [|congruence].
    assert (existsb (String.eqb ext) extensions = true).
    { apply existsb_exists. exists ext. split; [exact Hin|].
      apply String.eqb_refl. }
    congruence.
Qed.

Section Loop.

Variable Image : Type.
Variable exists_ : string -> bool.
Variable imread : string -> string + option Image.

Lemma validate_one_usable (valid invalid : list string) (path : string) :
  validate_one Image exists_ imread (valid, invalid) path
  = if usable Image exists_ imread path
    then (valid ++ [path], invalid)
    else (valid,
          invalid ++ [nth 0 (snd (validate_one Image exists_ imread
                                    ([], []) path)) EmptyString]).
Proof.
  unfold validate_one, usable. cbv zeta. rewrite !supported_iff.
  destruct (exists_ path); cbn [negb andb]; [|reflexivity].
  destruct (existsb (String.eqb (PyStr.lower (PyPath.suffix path)))
              extensions); cbn [negb andb]; [|reflexivity].
  destruct (imread path) as [e|[img|]]; reflexivity.
Qed.

Lemma validate_loop (paths : list string) :
  forall valid invalid,
    fst (fold_left (validate_one Image exists_ imread) paths
           (valid, invalid))
    = valid ++ List.filter (usable Image exists_ imread) paths
    /\ length (snd (fold_left (validate_one Image exists_ imread) paths
                      (valid, invalid)))
       = (length invalid
          + length (List.filter
                      (fun p => negb (usable Image exists_ imread p))
                      paths))%nat.
Proof.
  induction paths as [|p paths IH]; intros valid invalid.
  - simpl. rewrite app_nil_r. split; [reflexivity | lia].
  - cbn [fold_left List.filter]. rewrite validate_one_usable.
    destruct (usable Image exists_ imread p); cbn [negb].
    + destruct (IH (valid ++ [p]) invalid) as [-> ->].
      rewrite <- app_assoc. split; reflexivity.
    + destruct (IH valid
                  (invalid ++ [nth 0 (snd (validate_one Image exists_ imread
                                             ([], []) p)) EmptyString]))
        as [-> ->].
      rewrite length_app. simpl. split; [reflexivity | lia].
Qed.

(** X30. [validate_input_files] keeps, in their order, exactly the
    paths that exist, whose extension is, in any case, one of .jpg,
    .jpeg, .png, .bmp, .gif, .tiff, .tif and .webp, and that
    [cv2.imread] decodes; every other path gives exactly one message,
    so that the two lists together have as many entries as there were
    paths.  (The pattern "*.*" of the file dialog adds the extension
    "." to the supported ones, which no path has.) *)
Theorem validate_input_files_keeps_the_usable (file_paths : list string) :
  fst (validate_input_files Image exists_ imread file_paths)
  = List.filter (usable Image exists_ imread) file_paths
  /\ (length (fst (validate_input_files Image exists_ imread file_paths))
      + length (snd (validate_input_files Image exists_ imread file_paths))
      = length file_paths)%nat.
Proof.
  unfold validate_input_files.
  destruct (validate_loop file_paths [] []) as [Hv Hi].
  split; [exact Hv|]. rewrite Hv, Hi. simpl. clear Hv Hi.
  induction file_paths as [|p paths IH]; simpl; [reflexivity|].
  destruct (usable Image exists_ imread p); simpl; lia.
Qed.

End Loop.

End Validate.

(* ===================================================================== *)
(** ** The further properties on concrete inputs *)
(* ===================================================================== *)

Module Checks.

(** An editor on images named by strings: the working image is "b",
    the undo stack holds "a", the capacity is 20 (MAX_HISTORY). *)
Definition history_a : History.HistoryManager string :=
  History.mkHistory ["a"%string] [] 20.

Definition editor_b : Editor.editor string :=
  Editor.mkEditor (Some "o"%string) (Some "b"%string) history_a.

Definition sharpen (img : string) : string := String.append img "'".

Lemma undo_after_save_state_witness :
  History.undo (History.save_state history_a (Some "b"%string))
  = (History.mkHistory ["a"%string] [] 20, Some "b"%string).
Proof.
  exact (Editor.undo_after_save_state string history_a "b"%string
           ltac:(simpl; lia)).
Defined.

Lemma undo_restores_image_before_edit_witness :
  exists edited,
    Editor.process_image sharpen editor_b = Some edited
    /\ Editor.processed_image edited = Some "b'"%string
    /\ Editor.processed_image (Editor.undo edited) = Some "b"%string
    /\ History.redo_stack (Editor.history_manager (Editor.undo edited))
       = ["b'"%string].
Proof.
  exact (Editor.undo_restores_image_before_edit string sharpen editor_b
           "o"%string "b"%string eq_refl eq_refl ltac:(simpl; lia)).
Defined.

Lemma redo_after_undo_restores_witness :
  Editor.redo (Editor.undo editor_b) = editor_b.
Proof.
  exact (Editor.redo_after_undo_restores string editor_b "b"%string
           "a"%string [] eq_refl eq_refl ltac:(simpl; lia)).
Defined.

Lemma second_redo_does_nothing_witness :
  Editor.redo (Editor.redo (Editor.undo editor_b))
  = Editor.redo (Editor.undo editor_b).
Proof.
  exact (proj1 (Editor.second_redo_does_nothing string
                  (Editor.undo editor_b) "a"%string eq_refl)).
Defined.

(** Two presets, stored by blur strength, in a file that holds them. *)
Definition two_presets : Presets.dict Z :=
  [("soft"%string, 15); ("hard"%string, 199)].

Definition preset_manager : Presets.manager Z :=
  Presets.mkManager Z two_presets (Presets.Holds Z two_presets).

Lemma two_presets_unique : Presets.unique_keys Z two_presets.
Proof.
  unfold Presets.unique_keys, two_presets. simpl.
  apply (bool_decide_unpack _). vm_compute. reflexivity.
Defined.

Lemma preset_add_then_get_witness :
  Presets.get_preset Z "soft"
    (Presets.add_preset Z true "hard" 51 preset_manager) = Some 15.
Proof.
  rewrite (proj2 (Presets.preset_add_then_get Z true "hard" "soft" 51
                    preset_manager) ltac:(discriminate)).
  reflexivity.
Defined.

Lemma preset_delete_witness :
  Presets.get_preset Z "soft"
    (fst (Presets.delete_preset Z true "soft" preset_manager)) = None.
Proof.
  exact (proj1 (proj2 (Presets.preset_delete Z true "soft" "hard"
                         preset_manager two_presets_unique))).
Defined.

Lemma preset_names_witness :
  Presets.get_all_presets Z
    (Presets.add_preset Z true "medium" 51 preset_manager)
  = ["soft"; "hard"; "medium"]%string.
Proof.
  exact (proj1 (proj2 (Presets.preset_names Z true "medium" 51
                         preset_manager two_presets_unique))).
Defined.


(** The words "Remind" and "Me" on a 200 by 100 image. *)
Lemma blank_phrase_gives_nothing_witness :
  TextDetector.detect_specific_word true (Some (100, 200))
    (Some TextDetector.remind_me_rows) "  " 30 false false = [].
Proof.
  exact (proj1 (TextMore.blank_phrase_gives_nothing true (Some (100, 200))
                  (Some TextDetector.remind_me_rows) "  " 30 false false)
           eq_refl).
Defined.

Lemma regions_are_not_degenerate_witness :
  TextDetector.detect_specific_word true (Some (100, 5))
    (Some TextDetector.remind_me_rows) "Remind Me" 30 false false = [].
Proof.
  exact (proj2 (TextMore.regions_are_not_degenerate true 100 5
                  (Some TextDetector.remind_me_rows) "Remind Me" 30 false
                  false)
           ltac:(left; lia)).
Defined.

Lemma remind_me_rows_inside :
  Forall (fun row => TextMore.inside 200 100 (TextMore.row_box row))
    TextDetector.remind_me_rows.
Proof.
  repeat constructor; simpl; lia.
Defined.

Lemma matched_words_are_covered_witness :
  TextMore.covered
    (TextDetector.detect_specific_word true (Some (100, 200))
       (Some TextDetector.remind_me_rows) "Remind Me" 30 false false)
    (TextDetector.mkMatched "Me" (65, 10, 30, 20) 88).
Proof.
  exact (TextMore.matched_words_are_covered 100 200
           TextDetector.remind_me_rows "Remind Me" 30 false false
           (TextDetector.mkMatched "Me" (65, 10, 30, 20) 88)
           ltac:(lia) ltac:(lia) ltac:(discriminate)
           remind_me_rows_inside
           ltac:(right; left; reflexivity)).
Defined.

Lemma higher_threshold_fewer_matches_witness :
  sublist
    (TextDetector.matched_boxes_of TextDetector.remind_me_rows "Remind Me"
       89 false false)
    (TextDetector.matched_boxes_of TextDetector.remind_me_rows "Remind Me"
       30 false false).
Proof.
  exact (TextMore.higher_threshold_fewer_matches
           TextDetector.remind_me_rows "Remind Me" 30 89 false false
           ltac:(lia)).
Defined.

(** A 3 by 3 image, and a window that works on it with the box
    (1, 1, 2, 2): the last two columns of the last two rows. *)
Definition photo : ImageProcessor.image :=
  [ [(10, 20, 30); (40, 50, 60); (70, 80, 90)];
    [(11, 21, 31); (41, 51, 61); (71, 81, 91)];
    [(12, 22, 32); (42, 52, 62); (72, 82, 92)] ].

Definition barred : ImageProcessor.image :=
  [ [(10, 20, 30); (40, 50, 60); (70, 80, 90)];
    [(11, 21, 31); (0, 0, 0); (0, 0, 0)];
    [(12, 22, 32); (0, 0, 0); (0, 0, 0)] ].

Definition no_resize (_ : ImageProcessor.image) (_ : Z * Z)
  (_ : ImageProcessor.interpolation)
  : ImageProcessor.exn + ImageProcessor.image := inl "unused"%string.

Definition no_blur (_ : ImageProcessor.image) (_ : Z)
  : ImageProcessor.exn + ImageProcessor.image := inl "unused"%string.

Definition no_filter (_ : ImageProcessor.image) (_ _ _ _ : Z)
  : ImageProcessor.exn + ImageProcessor.image := inl "unused"%string.

Definition window_full : Canvas.window := Canvas.mkWindow photo photo 51 15 100.

(** The same window after a black bar, with the opacity at 0. *)
Definition window_clear : Canvas.window := Canvas.mkWindow photo barred 51 15 0.

Lemma photo_u8 : ImageProcessor.image_u8 photo.
Proof.
  repeat constructor; unfold ImageProcessor.is_u8; lia.
Defined.

Lemma photo_rectangular : Canvas.rectangular 3 photo.
Proof.
  repeat constructor.
Defined.

Lemma barred_rectangular : Canvas.rectangular 3 barred.
Proof.
  repeat constructor.
Defined.


Lemma mosaic_tiles_take_their_mean_witness :
  exists out,
    Effects.mosaic_effect photo 0 0 3 3 2 = inr out
    /\ ImageProcessor.image_u8 out
    /\ Effects.px out 0 1
       = Some (Effects.tile_mean (ImageProcessor.crop photo 0 0 2 2)).
Proof.
  destruct (Effects.mosaic_tiles_take_their_mean photo 0 0 3 3 2
              ltac:(lia) photo_u8) as (out & H1 & _ & H3 & H4).
  exists out. split; [exact H1|]. split; [exact H3|].
  exact (H4 0%nat 1%nat (40, 50, 60) eq_refl ltac:(simpl; lia)).
Defined.


Lemma effect_stays_in_box_witness :
  Effects.px barred 0 2 = Effects.px photo 0 2.
Proof.
  exact (proj2 (Canvas.effect_stays_in_box no_resize no_blur no_filter
                  no_filter window_full 1 1 2 2 "black_bar" 3 barred
                  photo_rectangular ltac:(lia) ltac:(lia) ltac:(lia)
                  ltac:(lia) ltac:(vm_compute; reflexivity))
           0%nat 2%nat eq_refl).
Defined.


Lemma zero_opacity_puts_original_back_witness :
  exists out,
    Canvas.apply_effect_to_region no_resize no_blur no_filter no_filter
      window_clear 1 1 2 2 "black_bar" = inr out
    /\ Effects.px out 2 2 = Some (72, 82, 92).
Proof.
  destruct (Canvas.zero_opacity_puts_original_back no_resize no_blur
              no_filter no_filter window_clear 1 1 2 2 "black_bar" 3
              (Effects.black_bar barred 1 1 2 2)
              barred_rectangular eq_refl photo_u8
              ltac:(lia) ltac:(lia) ltac:(lia) ltac:(lia)
              eq_refl eq_refl ltac:(repeat constructor))
    as (out & H1 & H2).
  exists out. split; [exact H1|].
  exact (H2 2%nat 2%nat (0, 0, 0) eq_refl).
Defined.


Definition face_blur : Batch.settings :=
  Batch.mkSettings (Some "face"%string) (Some "blur"%string) None.

(** A progress callback that raises. *)
Definition bad_progress (_ : list (Batch.event Scenarios.Img)) (_ _ : Z)
  (_ : Batch.result) : option Batch.exn := Some "boom"%string.


Lemma nothing_found_writes_the_original_witness :
  Batch._process_single_image Scenarios.Img Scenarios.shape Scenarios.imread
    Scenarios.imwrite (inr false) Scenarios.engine Scenarios.processor
    "photo.png" "out" face_blur Scenarios.fresh
  = (Batch.mkState
       [Batch.EvImwrite "out/processed_photo.jpg" "photo.png"%string] [],
     inr (Batch.mkResult "photo.png" (Some "out/processed_photo.jpg"%string)
            true (Some 0) None)).
Proof.
  exact (BatchMore.nothing_found_writes_the_original Scenarios.Img
           Scenarios.shape Scenarios.imread Scenarios.imwrite (inr false)
           Scenarios.engine Scenarios.processor
           "photo.png" "out" face_blur Scenarios.fresh
           "photo.png"%string Batch.PyTuple
           eq_refl eq_refl (or_intror eq_refl) eq_refl).
Defined.

Lemma full_mode_is_one_region_witness :
  Batch._process_single_image Scenarios.Img Scenarios.shape Scenarios.imread
    Scenarios.imwrite (inr false) Scenarios.engine Scenarios.processor
    "photo.png" "out" Scenarios.full_blur Scenarios.fresh
  = (Batch.mkState
       [Batch.EvImwrite "out/processed_photo.jpg" "photo.png"%string] [],
     inr Scenarios.photo_result).
Proof.
  exact (BatchMore.full_mode_is_one_region Scenarios.Img
           Scenarios.shape Scenarios.imread Scenarios.imwrite (inr false)
           Scenarios.engine Scenarios.processor
           "photo.png" "out" Scenarios.full_blur Scenarios.fresh
           "photo.png"%string "photo.png"%string 10 20
           eq_refl eq_refl eq_refl eq_refl eq_refl).
Defined.

Lemma raising_progress_callback_adds_a_failure_witness :
  Batch.results
    (fst (Batch.process_one Scenarios.Img Scenarios.shape Scenarios.imread
            Scenarios.imwrite (inr false) Scenarios.engine
            Scenarios.processor (Some bad_progress)
            (Some Scenarios.on_error) 0 1 "photo.png" "out"
            Scenarios.full_blur Scenarios.fresh))
  = [Scenarios.photo_result; Batch.error_info "photo.png" "boom"].
Proof.
  rewrite (BatchMore.raising_progress_callback_adds_a_failure Scenarios.Img
             Scenarios.shape Scenarios.imread Scenarios.imwrite (inr false)
             Scenarios.engine Scenarios.processor (Some bad_progress)
             (Some Scenarios.on_error) 0 1 "photo.png" "out"
             Scenarios.full_blur Scenarios.fresh
             (Batch.mkState
                [Batch.EvImwrite "out/processed_photo.jpg"
                   "photo.png"%string] [])
             Scenarios.photo_result "boom" bad_progress
             eq_refl eq_refl eq_refl
             ltac:(intros ecb H; injection H as <-; reflexivity)).
  reflexivity.
Defined.







End Checks.
